(** * contextcond: a condition variable with a cancellable wait

    A shallow embedding of [cond.go] and the properties its specification
    states about it.

    [cond.go] holds two variants of the primitive:

    - the variant whose bookkeeping is guarded by the channel [mtxCh] and
      whose [Signal] hands the token over synchronously, lowering the
      waiter count on behalf of a waiter that was woken by something else
      (lines 1-138); it is embedded in [Module DelegCond];
    - the variant whose bookkeeping is guarded by a [sync.Mutex] and whose
      wake channel buffers one token (lines 140-251); it is embedded in
      [Module TokenCond].

    Goroutines are modelled as a pool of threads, every statement of an
    operation is one step of the thread that executes it, and the
    scheduler, the choice among the ready cases of a [select] and the
    cancellation of a context are the actions of a labelled transition
    function.  A blocked statement has no step. *)

From stdpp Require Import base list strings.
From Stdlib Require Import ZArith Lia.

Local Open Scope Z_scope.

(** ** The Go runtime: errors, contexts, integers, channels *)

(** A non-nil [error]; a Go value of type [error] is an [option error],
    [None] being [nil]. *)
Definition error := string.

(** [context.Context], by its contract: [Done()] is closed once the
    context is cancelled and [Err()] is non-nil from then on;
    [context.Background()] is never cancelled. *)
Inductive Context :=
| Background
| Cancelable (fired : option error).

Definition Done (ctx : Context) : bool :=
  match ctx with
  | Cancelable (Some _) => true
  | _ => false
  end.

Definition Err (ctx : Context) : option error :=
  match ctx with
  | Cancelable fired => fired
  | Background => None
  end.

(** [int] is 64 bits wide on the platforms of the benchmark. *)
Definition int_wrap (z : Z) : Z := (z + 2 ^ 63) mod 2 ^ 64 - 2 ^ 63.
Definition max_int : Z := 2 ^ 63 - 1.

(** A [chan struct{}]: tokens carry no data, so the buffer is a count. *)
Record chan := Chan { cap : nat; buf : nat; closed : bool }.

Definition make (n : nat) : chan := Chan n 0 false.

(** A buffered send that does not have to wait; [None] when it would. *)
Definition chan_send (c : chan) : option chan :=
  if (buf c <? cap c)%nat then Some (Chan (cap c) (S (buf c)) (closed c)) else None.

(** A receive that does not have to wait: a buffered token first, then
    the zero value of a closed channel.  The boolean is the [ok] of
    [v, ok = <-ch]. *)
Definition chan_recv (c : chan) : option (chan * bool) :=
  match buf c with
  | S n => Some (Chan (cap c) n (closed c), true)
  | O => if closed c then Some (c, false) else None
  end.

Definition chan_close (c : chan) : chan := Chan (cap c) (buf c) true.

(** Channels live in a heap; a channel value is a reference into it or
    [nil]. *)
Abbreviation ref := nat.
Abbreviation heap := (list chan).

Definition alloc (h : heap) (c : chan) : heap * ref := (h ++ [c], length h).

(** What a heap says of the channel behind a reference. *)
Definition closed_at (h : heap) (r : ref) : bool :=
  match h !! r with Some c => closed c | None => false end.
Definition open_at (h : heap) (r : ref) : bool :=
  match h !! r with Some c => negb (closed c) | None => false end.
Definition empty_at (h : heap) (r : ref) : bool :=
  match h !! r with Some c => Nat.eqb (buf c) 0 | None => false end.

(** ** copyChecker (both variants, lines 129-138 and 242-251)

    [self] is the address of the checker field, [v] the [uintptr] stored
    in it.  The address of a live field is not null. *)
Definition ptr := positive.
Definition uintptr := Z.
Definition copyChecker := uintptr.

Definition uintptr_of (p : ptr) : uintptr := Z.pos p.

Definition CompareAndSwapUintptr (v old new : uintptr) : bool * uintptr :=
  if v =? old then (true, new) else (false, v).

(** [None] is the panic "contextcond.Cond is copied". *)
Definition check (self : ptr) (v : copyChecker) : option copyChecker :=
  if negb (v =? uintptr_of self) then
    let '(swapped, v1) := CompareAndSwapUintptr v 0 (uintptr_of self) in
    if negb swapped && negb (v1 =? uintptr_of self) then None else Some v1
  else Some v.

Definition copied_msg : string := "contextcond.Cond is copied".
Definition uninit_msg : string := "contextcond.Cond must be initialized with NewCond".

(** Which case of the blocking [select] of [WaitContext] fired (ghost). *)
Inductive wake := NotYet | ByChannel | ByCancel.

(** ** The variant guarded by [sync.Mutex] (lines 140-251) *)
Module TokenCond.

(** [L] is [true] when the interface value is not nil; the lock it
    refers to is [Lk] below.  [mtx] records the goroutine that locked it
    (ghost: [sync.Mutex] only knows locked or not). *)
Record Cond := mkCond {
  L : bool;
  mtx : option nat;
  ch : option ref;
  waiters : Z;
  checker : copyChecker
}.

(** [&Cond{L: l}] *)
Definition NewCond (l : bool) : Cond := mkCond l None None 0 0.

(** Everything the goroutines share. [Lk] is the owner of the external
    lock, [fault] the message of a panic that aborted the process. *)
Record world := World {
  cond : Cond;
  hp : heap;
  Lk : option nat;
  fault : option string
}.

Inductive Bpc := B_check | B_lock | B_if | B_close | B_make | B_unlock.
Inductive Spc := S_check | S_lock | S_if | S_select | S_unlock.
Inductive Wpc :=
| W_check | W_lock | W_init | W_capture | W_incr | W_unlock | W_Lunlock
| W_select | W_relock | W_decr | W_if | W_drain | W_unlock2 | W_Llock | W_ret.

Inductive pc :=
| Idle
| InBroadcast (p : Bpc)
| InSignal (p : Spc)
| InWaitContext (p : Wpc).

(** A goroutine: where it is, and the locals of [WaitContext]. *)
Record thread := Thread {
  at_pc : pc;
  ctx : Context;
  l_ch : option ref;
  err : option error;
  how : wake
}.

Record state := State { threads : list thread; shared : world }.

Definition set_mtx (c : Cond) (m : option nat) : Cond :=
  mkCond (L c) m (ch c) (waiters c) (checker c).
Definition set_ch (c : Cond) (r : option ref) : Cond :=
  mkCond (L c) (mtx c) r (waiters c) (checker c).
Definition set_waiters (c : Cond) (n : Z) : Cond :=
  mkCond (L c) (mtx c) (ch c) n (checker c).
Definition set_checker (c : Cond) (v : copyChecker) : Cond :=
  mkCond (L c) (mtx c) (ch c) (waiters c) v.

Definition set_cond (w : world) (c : Cond) : world := World c (hp w) (Lk w) (fault w).
Definition set_hp (w : world) (h : heap) : world := World (cond w) h (Lk w) (fault w).
Definition set_Lk (w : world) (o : option nat) : world := World (cond w) (hp w) o (fault w).
Definition panic (w : world) (msg : string) : world := World (cond w) (hp w) (Lk w) (Some msg).

Definition goto (th : thread) (p : pc) : thread :=
  Thread p (ctx th) (l_ch th) (err th) (how th).

(** [c.checker.check()] *)
Definition do_check (self : ptr) (w : world) : option world :=
  match check self (checker (cond w)) with
  | Some v => Some (set_cond w (set_checker (cond w) v))
  | None => None
  end.

(** [c.mtx.Lock()]: no step while another goroutine holds the mutex. *)
Definition do_lock (i : nat) (w : world) : option world :=
  match mtx (cond w) with
  | None => Some (set_cond w (set_mtx (cond w) (Some i)))
  | Some _ => None
  end.

(** [c.mtx.Unlock()] *)
Definition do_unlock (w : world) : world :=
  match mtx (cond w) with
  | Some _ => set_cond w (set_mtx (cond w) None)
  | None => panic w "sync: unlock of unlocked mutex"
  end.

(** Broadcast, lines 173-181.  The result is the next program point and
    the world; [None] when the statement blocks. *)
Definition Broadcast (self : ptr) (i : nat) (p : Bpc) (w : world) : option (pc * world) :=
  match p with
  | B_check =>
      match do_check self w with
      | Some w' => Some (InBroadcast B_lock, w')
      | None => Some (InBroadcast B_check, panic w copied_msg)
      end
  | B_lock =>
      match do_lock i w with
      | Some w' => Some (InBroadcast B_if, w')
      | None => None
      end
  | B_if =>
      if 0 <? waiters (cond w) then Some (InBroadcast B_close, w)
      else Some (InBroadcast B_unlock, w)
  | B_close =>
      match ch (cond w) with
      | None => Some (InBroadcast B_close, panic w "close of nil channel")
      | Some r =>
          match hp w !! r with
          | Some c =>
              if closed c then Some (InBroadcast B_close, panic w "close of closed channel")
              else Some (InBroadcast B_make, set_hp w (<[r := chan_close c]> (hp w)))
          | None => None
          end
      end
  | B_make =>
      let '(h, r) := alloc (hp w) (make 1) in
      Some (InBroadcast B_unlock, set_cond (set_hp w h) (set_ch (cond w) (Some r)))
  | B_unlock => Some (Idle, do_unlock w)
  end.

(** Signal, lines 188-198.  The [select] has a [default]: it never
    blocks. *)
Definition Signal (self : ptr) (i : nat) (p : Spc) (w : world) : option (pc * world) :=
  match p with
  | S_check =>
      match do_check self w with
      | Some w' => Some (InSignal S_lock, w')
      | None => Some (InSignal S_check, panic w copied_msg)
      end
  | S_lock =>
      match do_lock i w with
      | Some w' => Some (InSignal S_if, w')
      | None => None
      end
  | S_if =>
      if 0 <? waiters (cond w) then Some (InSignal S_select, w)
      else Some (InSignal S_unlock, w)
  | S_select =>
      match ch (cond w) with
      | None => Some (InSignal S_unlock, w)
      | Some r =>
          match hp w !! r with
          | Some c =>
              if closed c then Some (InSignal S_select, panic w "send on closed channel")
              else
                match chan_send c with
                | Some c' => Some (InSignal S_unlock, set_hp w (<[r := c']> (hp w)))
                | None => Some (InSignal S_unlock, w)
                end
          | None => None
          end
      end
  | S_unlock => Some (Idle, do_unlock w)
  end.

(** WaitContext, lines 207-240, every statement but the blocking
    [select] of lines 220-225. *)
Definition WaitContext (self : ptr) (i : nat) (p : Wpc) (th : thread) (w : world)
  : option (thread * world) :=
  match p with
  | W_check =>
      match do_check self w with
      | Some w' => Some (goto th (InWaitContext W_lock), w')
      | None => Some (th, panic w copied_msg)
      end
  | W_lock =>
      match do_lock i w with
      | Some w' => Some (goto th (InWaitContext W_init), w')
      | None => None
      end
  | W_init =>
      match ch (cond w) with
      | None =>
          let '(h, r) := alloc (hp w) (make 1) in
          Some (goto th (InWaitContext W_capture),
                set_cond (set_hp w h) (set_ch (cond w) (Some r)))
      | Some _ => Some (goto th (InWaitContext W_capture), w)
      end
  | W_capture =>
      Some (Thread (InWaitContext W_incr) (ctx th) (ch (cond w)) (err th) (how th), w)
  | W_incr =>
      Some (goto th (InWaitContext W_unlock),
            set_cond w (set_waiters (cond w) (int_wrap (waiters (cond w) + 1))))
  | W_unlock => Some (goto th (InWaitContext W_Lunlock), do_unlock w)
  | W_Lunlock =>
      if L (cond w) then
        match Lk w with
        | Some _ => Some (goto th (InWaitContext W_select), set_Lk w None)
        | None => Some (th, panic w "sync: unlock of unlocked mutex")
        end
      else Some (th, panic w "invalid memory address or nil pointer dereference")
  | W_select => None
  | W_relock =>
      match do_lock i w with
      | Some w' => Some (goto th (InWaitContext W_decr), w')
      | None => None
      end
  | W_decr =>
      Some (goto th (InWaitContext W_if),
            set_cond w (set_waiters (cond w) (int_wrap (waiters (cond w) - 1))))
  | W_if =>
      if waiters (cond w) =? 0 then Some (goto th (InWaitContext W_drain), w)
      else Some (goto th (InWaitContext W_unlock2), w)
  | W_drain =>
      match ch (cond w) with
      | None => Some (goto th (InWaitContext W_unlock2), w)
      | Some r =>
          match hp w !! r with
          | Some c =>
              match chan_recv c with
              | Some (c', _) =>
                  Some (goto th (InWaitContext W_unlock2), set_hp w (<[r := c']> (hp w)))
              | None => Some (goto th (InWaitContext W_unlock2), w)
              end
          | None => None
          end
      end
  | W_unlock2 => Some (goto th (InWaitContext W_Llock), do_unlock w)
  | W_Llock =>
      if L (cond w) then
        match Lk w with
        | None => Some (goto th (InWaitContext W_ret), set_Lk w (Some i))
        | Some _ => None
        end
      else Some (th, panic w "invalid memory address or nil pointer dereference")
  | W_ret => Some (goto th Idle, w)
  end.

(** The two cases of the [select] of lines 220-225. *)
Inductive select_case := CaseCh | CaseDone.

Definition WaitContext_select (k : select_case) (th : thread) (w : world)
  : option (thread * world) :=
  match k with
  | CaseCh =>
      match l_ch th with
      | None => None
      | Some r =>
          match hp w !! r with
          | Some c =>
              match chan_recv c with
              | Some (c', _) =>
                  Some (Thread (InWaitContext W_relock) (ctx th) (l_ch th) None ByChannel,
                        set_hp w (<[r := c']> (hp w)))
              | None => None
              end
          | None => None
          end
      end
  | CaseDone =>
      if Done (ctx th) then
        Some (Thread (InWaitContext W_relock) (ctx th) (l_ch th) (Err (ctx th)) ByCancel, w)
      else None
  end.

(** What a goroutine may call.  [Wait] is
    [WaitContext(context.Background())], line 203. *)
Inductive op := OpBroadcast | OpSignal | OpWait | OpWaitContext (c : Context).

Definition enter (c : Context) (th : thread) : thread :=
  Thread (InWaitContext W_check) c None None NotYet.

(** The caller of [Wait] and [WaitContext] holds [c.L]. *)
Definition call (i : nat) (o : op) (th : thread) (w : world) : option (thread * world) :=
  match o with
  | OpBroadcast => Some (goto th (InBroadcast B_check), w)
  | OpSignal => Some (goto th (InSignal S_check), w)
  | OpWait => if decide (Lk w = Some i) then Some (enter Background th, w) else None
  | OpWaitContext c => if decide (Lk w = Some i) then Some (enter c th, w) else None
  end.

Inductive action :=
| Call (i : nat) (o : op)
| Tau (i : nat)
| Select (i : nat) (k : select_case)
| Cancel (i : nat) (e : error)
| LockL (i : nat)
| UnlockL (i : nat).

Definition actor (a : action) : nat :=
  match a with
  | Call i _ | Tau i | Select i _ | Cancel i _ | LockL i | UnlockL i => i
  end.

(** One step of goroutine [actor a]. *)
Definition local (self : ptr) (a : action) (th : thread) (w : world)
  : option (thread * world) :=
  match a with
  | Call i o =>
      match at_pc th with
      | Idle => call i o th w
      | _ => None
      end
  | Tau i =>
      match at_pc th with
      | Idle => None
      | InBroadcast p =>
          match Broadcast self i p w with
          | Some (p', w') => Some (goto th p', w')
          | None => None
          end
      | InSignal p =>
          match Signal self i p w with
          | Some (p', w') => Some (goto th p', w')
          | None => None
          end
      | InWaitContext p => WaitContext self i p th w
      end
  | Select i k =>
      match at_pc th with
      | InWaitContext W_select => WaitContext_select k th w
      | _ => None
      end
  | Cancel i e =>
      match ctx th with
      | Cancelable None =>
          Some (Thread (at_pc th) (Cancelable (Some e)) (l_ch th) (err th) (how th), w)
      | _ => None
      end
  | LockL i =>
      match at_pc th, Lk w with
      | Idle, None => Some (th, set_Lk w (Some i))
      | _, _ => None
      end
  | UnlockL i =>
      match at_pc th with
      | Idle => if decide (Lk w = Some i) then Some (th, set_Lk w None) else None
      | _ => None
      end
  end.

(** A panic aborts the process: nothing steps after it. *)
Definition step (self : ptr) (a : action) (s : state) : option state :=
  match fault (shared s) with
  | Some _ => None
  | None =>
      match threads s !! actor a with
      | Some th =>
          match local self a th (shared s) with
          | Some (th', w') => Some (State (<[actor a := th']> (threads s)) w')
          | None => None
          end
      | None => None
      end
  end.

Fixpoint run (self : ptr) (tr : list action) (s : state) : option state :=
  match tr with
  | [] => Some s
  | a :: tr' =>
      match step self a s with
      | Some s' => run self tr' s'
      | None => None
      end
  end.

Definition idle : thread := Thread Idle Background None None NotYet.

(** [n] goroutines share a Cond [c] and an unlocked external lock. *)
Definition init (c : Cond) (n : nat) : state :=
  State (replicate n idle) (World c [] None None).

Definition reachable_from (self : ptr) (s0 s : state) : Prop :=
  ∃ tr, run self tr s0 = Some s.

(** The states of a Cond built by [NewCond] with a lock. *)
Definition reachable (self : ptr) (n : nat) (s : state) : Prop :=
  reachable_from self (init (NewCond true) n) s.


(** *** Program points and invariants *)

(** Between [c.mtx.Lock()] and [c.mtx.Unlock()]. *)
Definition in_cs (p : pc) : bool :=
  match p with
  | InBroadcast (B_if | B_close | B_make | B_unlock)
  | InSignal (S_if | S_select | S_unlock)
  | InWaitContext (W_init | W_capture | W_incr | W_unlock | W_decr | W_if | W_drain | W_unlock2) => true
  | _ => false
  end.

(** Where the caller's hold of [c.L] is in force inside [WaitContext]. *)
Definition holds_L (p : pc) : bool :=
  match p with
  | InWaitContext (W_check | W_lock | W_init | W_capture | W_incr | W_unlock | W_Lunlock | W_ret) => true
  | _ => false
  end.

(** Past [c.checker.check()]. *)
Definition guarded (p : pc) : bool :=
  match p with
  | Idle | InBroadcast B_check | InSignal S_check | InWaitContext W_check => false
  | _ => true
  end.

(** Past the blocking [select]. *)
Definition woken (p : pc) : bool :=
  match p with
  | InWaitContext (W_relock | W_decr | W_if | W_drain | W_unlock2 | W_Llock | W_ret) => true
  | _ => false
  end.

(** After [c.waiters++] and before [c.waiters--]. *)
Definition counted (p : pc) : bool :=
  match p with
  | InWaitContext (W_unlock | W_Lunlock | W_select | W_relock | W_decr) => true
  | _ => false
  end.

(** Registered, outside the mutex, and not past the [select]. *)
Definition parked (p : pc) : bool :=
  match p with InWaitContext (W_Lunlock | W_select) => true | _ => false end.

Definition needs_ch (p : pc) : bool :=
  match p with InWaitContext (W_capture | W_incr) => true | _ => false end.
Definition sees_waiters (p : pc) : bool :=
  match p with InBroadcast (B_close | B_make) | InSignal S_select => true | _ => false end.
Definition at_make (p : pc) : bool :=
  match p with InBroadcast B_make => true | _ => false end.
Definition at_release (p : pc) : bool :=
  match p with InBroadcast B_unlock => true | _ => false end.
Definition holds_ref (p : pc) : bool :=
  match p with InWaitContext (W_incr | W_unlock | W_Lunlock | W_select) => true | _ => false end.
Definition settled (p : pc) : bool :=
  match p with InWaitContext (W_if | W_drain) => false | _ => in_cs p end.
Definition at_drain (p : pc) : bool :=
  match p with InWaitContext W_drain => true | _ => false end.

(** The outcome of the [select]: the channel case leaves [err] nil, the
    [ctx.Done()] case leaves the context's error. *)
Definition outcome_ok (th : thread) : Prop :=
  (how th = ByChannel ∧ err th = None) ∨
  (how th = ByCancel ∧ Done (ctx th) = true ∧ err th = Err (ctx th)).

Definition weight (th : thread) : nat := if counted (at_pc th) then 1 else 0.

(** The goroutines that have raised [c.waiters] and not lowered it yet. *)
Fixpoint registered (ts : list thread) : nat :=
  match ts with
  | [] => 0
  | th :: ts' => weight th + registered ts'
  end.


Definition ch_open (w : world) : Prop :=
  ∀ r, ch (cond w) = Some r → open_at (hp w) r = true.
Definition ch_empty (w : world) : Prop :=
  ∀ r, ch (cond w) = Some r → empty_at (hp w) r = true.
Definition ch_closed (w : world) : Prop :=
  ∃ r, ch (cond w) = Some r ∧ closed_at (hp w) r = true.

(** The channel a waiter captured is the current one or a closed one. *)
Definition captured (th : thread) (w : world) : Prop :=
  ∃ r, l_ch th = Some r ∧ is_Some (hp w !! r) ∧
       (ch (cond w) = Some r ∨ closed_at (hp w) r = true).

Definition woken_by_close (th : thread) (w : world) : Prop :=
  ∃ r, l_ch th = Some r ∧ closed_at (hp w) r = true.

Definition one_token (c : chan) : Prop := cap c = 1%nat ∧ (buf c ≤ 1)%nat.

Definition all_threads (T : nat → thread → world → Prop) (s : state) : Prop :=
  ∀ j thj, threads s !! j = Some thj → T j thj (shared s).

Definition tinv1 (self : ptr) (i : nat) (th : thread) (w : world) : Prop :=
  (in_cs (at_pc th) = true → mtx (cond w) = Some i) ∧
  (holds_L (at_pc th) = true → Lk w = Some i) ∧
  (guarded (at_pc th) = true → checker (cond w) = uintptr_of self) ∧
  (woken (at_pc th) = true → outcome_ok th).

Definition ginv1 (self : ptr) (w : world) : Prop :=
  L (cond w) = true ∧ (checker (cond w) = 0 ∨ checker (cond w) = uintptr_of self).

Definition inv1 (self : ptr) (s : state) : Prop :=
  all_threads (tinv1 self) s ∧ ginv1 self (shared s).

Definition inv2 (s : state) : Prop :=
  waiters (cond (shared s)) = Z.of_nat (registered (threads s)) ∧
  Z.of_nat (length (threads s)) ≤ max_int.

Definition tinv3 (i : nat) (th : thread) (w : world) : Prop :=
  (needs_ch (at_pc th) = true → ch (cond w) ≠ None) ∧
  (sees_waiters (at_pc th) = true → 0 < waiters (cond w)) ∧
  (at_make (at_pc th) = true → ch_closed w) ∧
  (in_cs (at_pc th) = true → at_make (at_pc th) = false → ch_open w) ∧
  (holds_ref (at_pc th) = true → captured th w) ∧
  (settled (at_pc th) = true → waiters (cond w) = 0 → ch_empty w) ∧
  (at_drain (at_pc th) = true → waiters (cond w) = 0).

Definition ginv3 (w : world) : Prop :=
  (mtx (cond w) = None → ch_open w ∧ (waiters (cond w) = 0 → ch_empty w)) ∧
  Forall one_token (hp w) ∧
  (0 < waiters (cond w) → ch (cond w) ≠ None).

Definition inv3 (s : state) : Prop := all_threads tinv3 s ∧ ginv3 (shared s).

(** When a Broadcast is about to release the mutex, every parked waiter
    holds a closed channel. *)
Definition inv5 (s : state) : Prop :=
  ∀ b j thb thj,
    threads s !! b = Some thb → threads s !! j = Some thj →
    at_release (at_pc thb) = true → parked (at_pc thj) = true →
    woken_by_close thj (shared s).

Definition safe (s : state) : Prop := fault (shared s) = None.

Definition Inv (self : ptr) (s : state) : Prop :=
  inv1 self s ∧ inv2 s ∧ inv3 s ∧ inv5 s ∧ safe s.

(** *** Following one Broadcast and one waiter along a trace *)

(** The action is not a new call by goroutine [i]. *)
Definition no_call (i : nat) (a : action) : bool :=
  match a with
  | Call j _ => if decide (i = j) then false else true
  | _ => true
  end.

(** Registered: [c.waiters] raised, channel captured, [select] not left. *)
Definition waiting (p : pc) : bool :=
  match p with InWaitContext (W_unlock | W_Lunlock | W_select) => true | _ => false end.
Definition b_working (p : pc) : bool :=
  match p with InBroadcast (B_if | B_close | B_make) => true | _ => false end.
Definition b_finished (p : pc) : bool :=
  match p with InBroadcast B_unlock | Idle => true | _ => false end.
Definition w_phase (p : pc) : bool :=
  match p with Idle => true | _ => parked p || woken p end.

(** Broadcaster [b] holds or has released the mutex, waiter [j] is
    parked, past its [select] or back with the outcome of its [select];
    once [b] is done, a parked [j] holds a closed channel. *)
Definition served (b j : nat) (s : state) : Prop :=
  ∃ thb thj, threads s !! b = Some thb ∧ threads s !! j = Some thj ∧
    b_working (at_pc thb) || b_finished (at_pc thb) = true ∧
    w_phase (at_pc thj) = true ∧
    (parked (at_pc thj) = false → outcome_ok thj) ∧
    (b_finished (at_pc thb) = true → parked (at_pc thj) = true →
     woken_by_close thj (shared s)).

(** A receive from the channel would not wait. *)
Definition ready_at (h : heap) (r : ref) : bool :=
  match h !! r with Some c => (0 <? buf c)%nat || closed c | None => false end.

Definition entry (o : op) : pc :=
  match o with
  | OpBroadcast => InBroadcast B_check
  | OpSignal => InSignal S_check
  | OpWait | OpWaitContext _ => InWaitContext W_check
  end.

(** A Cond that was declared and given a lock, but not built by
    [NewCond]: every other field has its zero value. *)
Definition zero_value (l : bool) : Cond := mkCond l None None 0 0.

(** *** Example runs

    Two goroutines share a Cond at address 1.  Goroutine 0 locks [c.L],
    calls [WaitContext] with a cancellable context and parks in the
    [select]. *)
Definition after (tr : list action) : state :=
  default (init (NewCond true) 2) (run 1%positive tr (init (NewCond true) 2)).

Definition park0 : list action :=
  [LockL 0; Call 0 (OpWaitContext (Cancelable None));
   Tau 0; Tau 0; Tau 0; Tau 0; Tau 0; Tau 0; Tau 0]%nat.

(** Goroutine 1 calls [Broadcast] and passes the copy guard ... *)
Definition broadcast_called : list action := park0 ++ [Call 1 OpBroadcast; Tau 1]%nat.
(** ... locks the mutex, then runs to its return, ... *)
Definition broadcast_body : list action := [Tau 1; Tau 1; Tau 1; Tau 1]%nat.
Definition broadcast_done : list action := broadcast_called ++ Tau 1%nat :: broadcast_body.
(** ... and goroutine 0 wakes and runs to its [return err]. *)
Definition woken_run : list action :=
  broadcast_done ++ [Select 0 CaseCh; Tau 0; Tau 0; Tau 0; Tau 0; Tau 0; Tau 0]%nat.

(** The context of goroutine 0 is cancelled instead. *)
Definition cancelled_run : list action :=
  park0 ++ [Cancel 0 "context canceled"; Select 0 CaseDone;
            Tau 0; Tau 0; Tau 0; Tau 0; Tau 0; Tau 0]%nat.

(** Goroutine 1 signals, and is in its second [Signal], at the [select],
    before goroutine 0 has taken the token. *)
Definition signalled_twice : list action :=
  park0 ++ [Call 1 OpSignal; Tau 1; Tau 1; Tau 1; Tau 1; Tau 1;
            Call 1 OpSignal; Tau 1; Tau 1; Tau 1]%nat.

(** Goroutine 0 is the only waiter and leaves on cancellation: it is at
    [if c.waiters == 0], then at the draining [select]. *)
Definition leaving_run : list action :=
  park0 ++ [Cancel 0 "context canceled"; Select 0 CaseDone; Tau 0; Tau 0]%nat.

(** Goroutine 0 has run [Signal] up to the lock, goroutine 1 has called
    [Broadcast]. *)
Definition used_run : list action := [Call 0 OpSignal; Tau 0]%nat.

(** Goroutine 1 broadcasts, goroutine 0 leaves its [select] but has not
    lowered the count yet, and goroutine 1 signals. *)
Definition signal_after_broadcast : list action :=
  park0 ++ [Call 1 OpBroadcast; Tau 1; Tau 1; Tau 1; Tau 1; Tau 1; Tau 1;
            Select 0 CaseCh;
            Call 1 OpSignal; Tau 1; Tau 1; Tau 1; Tau 1; Tau 1]%nat.

(** Goroutine 0 then locks the mutex, lowers the count to 0 and is at
    the draining [select]. *)
Definition drain_run : list action := signal_after_broadcast ++ [Tau 0; Tau 0; Tau 0]%nat.

(** With a third goroutine in the pool: after [signal_after_broadcast]
    goroutine 2 locks [c.L], calls [WaitContext] and runs to its
    [return err]; nobody else moves. *)
Definition after3 (tr : list action) : state :=
  default (init (NewCond true) 3) (run 1%positive tr (init (NewCond true) 3)).

Definition late_waiter : list action :=
  [LockL 2; Call 2 (OpWaitContext (Cancelable None));
   Tau 2; Tau 2; Tau 2; Tau 2; Tau 2; Tau 2; Tau 2;
   Select 2 CaseCh; Tau 2; Tau 2; Tau 2; Tau 2; Tau 2]%nat.

(** The world once the copy guard has passed. *)
Definition checked (self : ptr) (w : world) : world :=
  set_cond w (set_checker (cond w) (uintptr_of self)).

End TokenCond.

(** ** The variant guarded by the channel [mtxCh] (lines 1-138) *)
Module DelegCond.

Record Cond := mkCond {
  L : bool;
  mtxCh : option ref;
  ch : option ref;
  waiters : Z;
  delegateWaiterLowering : option ref;
  checker : copyChecker
}.

Record world := World {
  cond : Cond;
  hp : heap;
  Lk : option nat;
  fault : option string
}.

(** NewCond, lines 29-36: three fresh channels. *)
Definition NewCond (l : bool) (h : heap) : Cond * heap :=
  let '(h1, m) := alloc h (make 1) in
  let '(h2, c) := alloc h1 (make 0) in
  let '(h3, d) := alloc h2 (make 0) in
  (mkCond l (Some m) (Some c) 0 (Some d) 0, h3).

(** A Cond that was declared and given a lock, but not built by
    [NewCond]. *)
Definition zero_value (l : bool) : Cond := mkCond l None None 0 None 0.

Inductive Bpc := B_checks | B_lock | B_if | B_close | B_make | B_unlock.
Inductive Spc := S_checks | S_lock | S_for | S_select | S_lower | S_unlock.
Inductive Wpc :=
| W_checks | W_lock | W_capture | W_incr | W_unlock | W_Lunlock
| W_select | W_ifsig | W_select2 | W_ifdeleg | W_decr | W_unlock2 | W_Llock | W_ret.

Inductive pc :=
| Idle
| InBroadcast (p : Bpc)
| InSignal (p : Spc)
| InWaitContext (p : Wpc).

Record thread := Thread {
  at_pc : pc;
  ctx : Context;
  l_ch : option ref;
  err : option error;
  signalled : bool;
  loweringDelegated : bool;
  how : wake
}.

Record state := State { threads : list thread; shared : world }.

Definition set_ch (c : Cond) (r : option ref) : Cond :=
  mkCond (L c) (mtxCh c) r (waiters c) (delegateWaiterLowering c) (checker c).
Definition set_waiters (c : Cond) (n : Z) : Cond :=
  mkCond (L c) (mtxCh c) (ch c) n (delegateWaiterLowering c) (checker c).
Definition set_checker (c : Cond) (v : copyChecker) : Cond :=
  mkCond (L c) (mtxCh c) (ch c) (waiters c) (delegateWaiterLowering c) v.

Definition set_cond (w : world) (c : Cond) : world := World c (hp w) (Lk w) (fault w).
Definition set_hp (w : world) (h : heap) : world := World (cond w) h (Lk w) (fault w).
Definition set_Lk (w : world) (o : option nat) : world := World (cond w) (hp w) o (fault w).
Definition panic (w : world) (msg : string) : world := World (cond w) (hp w) (Lk w) (Some msg).

Definition goto (th : thread) (p : pc) : thread :=
  Thread p (ctx th) (l_ch th) (err th) (signalled th) (loweringDelegated th) (how th).

(** checks, lines 38-43: the message of the panic, or the world with the
    checker set. *)
Definition checks (self : ptr) (w : world) : world + string :=
  match mtxCh (cond w) with
  | None => inr uninit_msg
  | Some _ =>
      match check self (checker (cond w)) with
      | Some v => inl (set_cond w (set_checker (cond w) v))
      | None => inr copied_msg
      end
  end.

Inductive outcome := Proceed (w : world) | Blocked | Panics (msg : string).

(** [o <- struct{}{}] as a statement: a nil channel blocks for ever. *)
Definition send_on (o : option ref) (w : world) : outcome :=
  match o with
  | None => Blocked
  | Some r =>
      match hp w !! r with
      | Some c =>
          if closed c then Panics "send on closed channel"
          else
            match chan_send c with
            | Some c' => Proceed (set_hp w (<[r := c']> (hp w)))
            | None => Blocked
            end
      | None => Blocked
      end
  end.

(** [<-o] as a statement. *)
Definition recv_on (o : option ref) (w : world) : outcome :=
  match o with
  | None => Blocked
  | Some r =>
      match hp w !! r with
      | Some c =>
          match chan_recv c with
          | Some (c', _) => Proceed (set_hp w (<[r := c']> (hp w)))
          | None => Blocked
          end
      | None => Blocked
      end
  end.

Definition continue (p q : pc) (w : world) (o : outcome) : option (pc * world) :=
  match o with
  | Proceed w' => Some (q, w')
  | Blocked => None
  | Panics msg => Some (p, panic w msg)
  end.

(** Broadcast, lines 48-56. *)
Definition Broadcast (self : ptr) (p : Bpc) (w : world) : option (pc * world) :=
  match p with
  | B_checks =>
      match checks self w with
      | inl w' => Some (InBroadcast B_lock, w')
      | inr msg => Some (InBroadcast B_checks, panic w msg)
      end
  | B_lock => continue (InBroadcast B_lock) (InBroadcast B_if) w (send_on (mtxCh (cond w)) w)
  | B_if =>
      if 0 <? waiters (cond w) then Some (InBroadcast B_close, w)
      else Some (InBroadcast B_unlock, w)
  | B_close =>
      match ch (cond w) with
      | None => Some (InBroadcast B_close, panic w "close of nil channel")
      | Some r =>
          match hp w !! r with
          | Some c =>
              if closed c then Some (InBroadcast B_close, panic w "close of closed channel")
              else Some (InBroadcast B_make, set_hp w (<[r := chan_close c]> (hp w)))
          | None => None
          end
      end
  | B_make =>
      let '(h, r) := alloc (hp w) (make 0) in
      Some (InBroadcast B_unlock, set_cond (set_hp w h) (set_ch (cond w) (Some r)))
  | B_unlock => continue (InBroadcast B_unlock) Idle w (recv_on (mtxCh (cond w)) w)
  end.

(** Signal, lines 63-78, every statement but the [select] of lines
    67-75.  That [select] has no [default]: alone, the signaller only
    moves when [c.ch] is closed, and then the send panics. *)
Definition Signal (self : ptr) (p : Spc) (w : world) : option (pc * world) :=
  match p with
  | S_checks =>
      match checks self w with
      | inl w' => Some (InSignal S_lock, w')
      | inr msg => Some (InSignal S_checks, panic w msg)
      end
  | S_lock => continue (InSignal S_lock) (InSignal S_for) w (send_on (mtxCh (cond w)) w)
  | S_for =>
      if 0 <? waiters (cond w) then Some (InSignal S_select, w)
      else Some (InSignal S_unlock, w)
  | S_select =>
      match ch (cond w) with
      | None => None
      | Some r =>
          match hp w !! r with
          | Some c =>
              if closed c then Some (InSignal S_select, panic w "send on closed channel")
              else None
          | None => None
          end
      end
  | S_lower =>
      Some (InSignal S_for, set_cond w (set_waiters (cond w) (int_wrap (waiters (cond w) - 1))))
  | S_unlock => continue (InSignal S_unlock) Idle w (recv_on (mtxCh (cond w)) w)
  end.

Definition moved (th : thread) (o : option (pc * world)) : option (thread * world) :=
  match o with
  | Some (p, w) => Some (goto th p, w)
  | None => None
  end.

(** WaitContext, lines 89-127, every statement but the two [select]s. *)
Definition WaitContext (self : ptr) (i : nat) (p : Wpc) (th : thread) (w : world)
  : option (thread * world) :=
  match p with
  | W_checks =>
      match checks self w with
      | inl w' => Some (goto th (InWaitContext W_lock), w')
      | inr msg => Some (th, panic w msg)
      end
  | W_lock =>
      moved th (continue (InWaitContext W_lock) (InWaitContext W_capture) w
                  (send_on (mtxCh (cond w)) w))
  | W_capture =>
      Some (Thread (InWaitContext W_incr) (ctx th) (ch (cond w)) (err th)
              (signalled th) (loweringDelegated th) (how th), w)
  | W_incr =>
      Some (goto th (InWaitContext W_unlock),
            set_cond w (set_waiters (cond w) (int_wrap (waiters (cond w) + 1))))
  | W_unlock =>
      moved th (continue (InWaitContext W_unlock) (InWaitContext W_Lunlock) w
                  (recv_on (mtxCh (cond w)) w))
  | W_Lunlock =>
      if L (cond w) then
        match Lk w with
        | Some _ => Some (goto th (InWaitContext W_select), set_Lk w None)
        | None => Some (th, panic w "sync: unlock of unlocked mutex")
        end
      else Some (th, panic w "invalid memory address or nil pointer dereference")
  | W_select => None
  | W_ifsig =>
      if signalled th then Some (goto th (InWaitContext W_ifdeleg), w)
      else Some (goto th (InWaitContext W_select2), w)
  | W_select2 => None
  | W_ifdeleg =>
      if loweringDelegated th then Some (goto th (InWaitContext W_Llock), w)
      else Some (goto th (InWaitContext W_decr), w)
  | W_decr =>
      Some (goto th (InWaitContext W_unlock2),
            set_cond w (set_waiters (cond w) (int_wrap (waiters (cond w) - 1))))
  | W_unlock2 =>
      moved th (continue (InWaitContext W_unlock2) (InWaitContext W_Llock) w
                  (recv_on (mtxCh (cond w)) w))
  | W_Llock =>
      if L (cond w) then
        match Lk w with
        | None => Some (goto th (InWaitContext W_ret), set_Lk w (Some i))
        | Some _ => None
        end
      else Some (th, panic w "invalid memory address or nil pointer dereference")
  | W_ret => Some (goto th Idle, w)
  end.

(** The cases of the two [select]s of [WaitContext] a waiter can take on
    its own: a closed [ch], a cancelled context (lines 100-105), the
    free mutex (line 111). *)
Inductive select_case := CaseCh | CaseDone | CaseLock.

Definition WaitContext_select (k : select_case) (th : thread) (w : world)
  : option (thread * world) :=
  match at_pc th, k with
  | InWaitContext W_select, CaseCh =>
      match l_ch th with
      | None => None
      | Some r =>
          match hp w !! r with
          | Some c =>
              match chan_recv c with
              | Some (c', ok) =>
                  Some (Thread (InWaitContext W_ifsig) (ctx th) (l_ch th) None
                          ok (loweringDelegated th) ByChannel,
                        set_hp w (<[r := c']> (hp w)))
              | None => None
              end
          | None => None
          end
      end
  | InWaitContext W_select, CaseDone =>
      if Done (ctx th) then
        Some (Thread (InWaitContext W_ifsig) (ctx th) (l_ch th) (Err (ctx th))
                (signalled th) (loweringDelegated th) ByCancel, w)
      else None
  | InWaitContext W_select2, CaseLock =>
      moved th (continue (InWaitContext W_select2) (InWaitContext W_ifdeleg) w
                  (send_on (mtxCh (cond w)) w))
  | _, _ => None
  end.

(** The send of line 68 meeting the receive of line 101: the signaller
    returns without unlocking, the waiter is signalled. *)
Definition deliver (sg wt : thread) (w : world) : option (thread * thread) :=
  match at_pc sg, at_pc wt, ch (cond w), l_ch wt with
  | InSignal S_select, InWaitContext W_select, Some r, Some r' =>
      if decide (r = r') then
        match hp w !! r with
        | Some c =>
            if closed c then None
            else Some (goto sg Idle,
                       Thread (InWaitContext W_ifsig) (ctx wt) (l_ch wt) None
                         true (loweringDelegated wt) ByChannel)
        | None => None
        end
      else None
  | _, _, _, _ => None
  end.

(** The receive of line 71 meeting the send of line 112: the signaller
    will lower the count for the waiter. *)
Definition delegate (sg wt : thread) (w : world) : option (thread * thread) :=
  match at_pc sg, at_pc wt, delegateWaiterLowering (cond w) with
  | InSignal S_select, InWaitContext W_select2, Some d =>
      match hp w !! d with
      | Some c =>
          if closed c then None
          else Some (goto sg (InSignal S_lower),
                     Thread (InWaitContext W_ifdeleg) (ctx wt) (l_ch wt) (err wt)
                       (signalled wt) true (how wt))
      | None => None
      end
  | _, _, _ => None
  end.

Inductive op := OpBroadcast | OpSignal | OpWait | OpWaitContext (c : Context).

Definition enter (c : Context) (th : thread) : thread :=
  Thread (InWaitContext W_checks) c None None false false NotYet.

Definition call (i : nat) (o : op) (th : thread) (w : world) : option (thread * world) :=
  match o with
  | OpBroadcast => Some (goto th (InBroadcast B_checks), w)
  | OpSignal => Some (goto th (InSignal S_checks), w)
  | OpWait => if decide (Lk w = Some i) then Some (enter Background th, w) else None
  | OpWaitContext c => if decide (Lk w = Some i) then Some (enter c th, w) else None
  end.

Inductive action :=
| Call (i : nat) (o : op)
| Tau (i : nat)
| Select (i : nat) (k : select_case)
| Deliver (i j : nat)
| Delegate (i j : nat)
| Cancel (i : nat) (e : error)
| LockL (i : nat)
| UnlockL (i : nat).

Definition local (self : ptr) (i : nat) (a : action) (th : thread) (w : world)
  : option (thread * world) :=
  match a with
  | Call _ o =>
      match at_pc th with
      | Idle => call i o th w
      | _ => None
      end
  | Tau _ =>
      match at_pc th with
      | Idle => None
      | InBroadcast p => moved th (Broadcast self p w)
      | InSignal p => moved th (Signal self p w)
      | InWaitContext p => WaitContext self i p th w
      end
  | Select _ k => WaitContext_select k th w
  | Cancel _ e =>
      match ctx th with
      | Cancelable None =>
          Some (Thread (at_pc th) (Cancelable (Some e)) (l_ch th) (err th)
                  (signalled th) (loweringDelegated th) (how th), w)
      | _ => None
      end
  | LockL _ =>
      match at_pc th, Lk w with
      | Idle, None => Some (th, set_Lk w (Some i))
      | _, _ => None
      end
  | UnlockL _ =>
      match at_pc th with
      | Idle => if decide (Lk w = Some i) then Some (th, set_Lk w None) else None
      | _ => None
      end
  | Deliver _ _ | Delegate _ _ => None
  end.

Definition solo (self : ptr) (i : nat) (a : action) (s : state) : option state :=
  match threads s !! i with
  | Some th =>
      match local self i a th (shared s) with
      | Some (th', w') => Some (State (<[i := th']> (threads s)) w')
      | None => None
      end
  | None => None
  end.

Definition duo (f : thread → thread → world → option (thread * thread))
    (i j : nat) (s : state) : option state :=
  if decide (i = j) then None
  else
    match threads s !! i, threads s !! j with
    | Some sg, Some wt =>
        match f sg wt (shared s) with
        | Some (sg', wt') => Some (State (<[j := wt']> (<[i := sg']> (threads s))) (shared s))
        | None => None
        end
    | _, _ => None
    end.

Definition step (self : ptr) (a : action) (s : state) : option state :=
  match fault (shared s) with
  | Some _ => None
  | None =>
      match a with
      | Call i _ | Tau i | Select i _ | Cancel i _ | LockL i | UnlockL i => solo self i a s
      | Deliver i j => duo deliver i j s
      | Delegate i j => duo delegate i j s
      end
  end.

Fixpoint run (self : ptr) (tr : list action) (s : state) : option state :=
  match tr with
  | [] => Some s
  | a :: tr' =>
      match step self a s with
      | Some s' => run self tr' s'
      | None => None
      end
  end.

Definition idle : thread := Thread Idle Background None None false false NotYet.

Definition init (ch : Cond * heap) (n : nat) : state :=
  State (replicate n idle) (World (fst ch) (snd ch) None None).

Definition reachable_from (self : ptr) (s0 s : state) : Prop :=
  ∃ tr, run self tr s0 = Some s.

Definition reachable (self : ptr) (n : nat) (s : state) : Prop :=
  reachable_from self (init (NewCond true []) n) s.


(** *** Program points and invariants *)

Definition holds_L (p : pc) : bool :=
  match p with
  | InWaitContext (W_checks | W_lock | W_capture | W_incr | W_unlock | W_Lunlock | W_ret) => true
  | _ => false
  end.

(** Past [c.checks()]. *)
Definition guarded (p : pc) : bool :=
  match p with
  | Idle | InBroadcast B_checks | InSignal S_checks | InWaitContext W_checks => false
  | _ => true
  end.

(** Past the [select] of lines 100-105. *)
Definition woken (p : pc) : bool :=
  match p with
  | InWaitContext (W_ifsig | W_select2 | W_ifdeleg | W_decr | W_unlock2 | W_Llock | W_ret) => true
  | _ => false
  end.

(** Before the [select] of lines 110-116 is left. *)
Definition undelegated (p : pc) : bool :=
  match p with
  | InWaitContext (W_checks | W_lock | W_capture | W_incr | W_unlock | W_Lunlock
                   | W_select | W_ifsig | W_select2) => true
  | _ => false
  end.

Definition outcome_ok (th : thread) : Prop :=
  (how th = ByChannel ∧ err th = None) ∨
  (how th = ByCancel ∧ Done (ctx th) = true ∧ err th = Err (ctx th)).

(** A waiter weighs on [c.waiters] from its [c.waiters++] to its
    [c.waiters--], or until it hands the lowering over to a signaller,
    who then weighs in its place until [c.waiters--] of line 74. *)
Definition weight (th : thread) : nat :=
  match at_pc th with
  | InWaitContext (W_unlock | W_Lunlock | W_select | W_ifsig | W_select2 | W_decr) => 1
  | InWaitContext W_ifdeleg => if loweringDelegated th then 0 else 1
  | InSignal S_lower => 1
  | _ => 0
  end.

Fixpoint registered (ts : list thread) : nat :=
  match ts with
  | [] => 0
  | th :: ts' => weight th + registered ts'
  end.

Definition unbuffered_at (h : heap) (r : ref) : bool :=
  match h !! r with Some c => Nat.eqb (cap c) 0 | None => false end.

Definition within_cap (c : chan) : Prop := (buf c ≤ cap c)%nat.

Definition all_threads (T : nat → thread → world → Prop) (s : state) : Prop :=
  ∀ j thj, threads s !! j = Some thj → T j thj (shared s).

(** Before the [select] of lines 100-105 is left. *)
Definition unsignalled (p : pc) : bool :=
  match p with
  | InWaitContext (W_checks | W_lock | W_capture | W_incr | W_unlock | W_Lunlock | W_select) => true
  | _ => false
  end.

Definition holds_ref (p : pc) : bool :=
  match p with InWaitContext (W_incr | W_unlock | W_Lunlock | W_select) => true | _ => false end.
Definition at_make (p : pc) : bool :=
  match p with InBroadcast B_make => true | _ => false end.

(** The goroutine that put the token into [mtxCh], or was handed the
    lock by a signaller, and has not taken the token out nor passed the
    lock on. *)
Definition holder (th : thread) : bool :=
  match at_pc th with
  | InBroadcast (B_if | B_close | B_make | B_unlock)
  | InSignal (S_for | S_select | S_lower | S_unlock)
  | InWaitContext (W_capture | W_incr | W_unlock | W_decr | W_unlock2) => true
  | InWaitContext W_ifsig => signalled th
  | InWaitContext W_ifdeleg => negb (loweringDelegated th)
  | _ => false
  end.

Definition hweight (th : thread) : nat := if holder th then 1 else 0.

Fixpoint holders (ts : list thread) : nat :=
  match ts with
  | [] => 0
  | th :: ts' => hweight th + holders ts'
  end.

Definition ch_open (w : world) : Prop :=
  ∀ r, ch (cond w) = Some r → open_at (hp w) r = true.
Definition ch_closed (w : world) : Prop :=
  ∃ r, ch (cond w) = Some r ∧ closed_at (hp w) r = true.

Definition tinv (self : ptr) (i : nat) (th : thread) (w : world) : Prop :=
  (holds_L (at_pc th) = true → Lk w = Some i) ∧
  (guarded (at_pc th) = true → checker (cond w) = uintptr_of self) ∧
  (woken (at_pc th) = true → outcome_ok th) ∧
  (undelegated (at_pc th) = true → loweringDelegated th = false) ∧
  (unsignalled (at_pc th) = true → signalled th = false) ∧
  (holds_ref (at_pc th) = true →
   ∃ r, l_ch th = Some r ∧ unbuffered_at (hp w) r = true) ∧
  (at_make (at_pc th) = true → ch_closed w) ∧
  (holder th = true → at_make (at_pc th) = false → ch_open w).

(** The lock, the checker, the wake channel (never nil, unbuffered) and
    the channels' bounds. *)
Definition ginv (self : ptr) (w : world) : Prop :=
  L (cond w) = true ∧
  (checker (cond w) = 0 ∨ checker (cond w) = uintptr_of self) ∧
  (∃ r, ch (cond w) = Some r ∧ unbuffered_at (hp w) r = true) ∧
  Forall within_cap (hp w).

(** [mtxCh] is a mutex: it is never closed, it is not the wake channel,
    and it holds one token per holder, so at most one. *)
Definition minv (s : state) : Prop :=
  (∃ m c, mtxCh (cond (shared s)) = Some m ∧ hp (shared s) !! m = Some c ∧
          cap c = 1%nat ∧ closed c = false ∧ buf c = holders (threads s) ∧
          ch (cond (shared s)) ≠ Some m) ∧
  (holders (threads s) = 0%nat → ch_open (shared s)).

Definition counts (s : state) : Prop :=
  waiters (cond (shared s)) = Z.of_nat (registered (threads s)) ∧
  Z.of_nat (length (threads s)) ≤ max_int.

Definition safe (s : state) : Prop := fault (shared s) = None.

Definition Inv (self : ptr) (s : state) : Prop :=
  all_threads (tinv self) s ∧ ginv self (shared s) ∧ minv s ∧ safe s.

(** The goroutines an action moves. *)
Definition movers (a : action) : list nat :=
  match a with
  | Call i _ | Tau i | Select i _ | Cancel i _ | LockL i | UnlockL i => [i]
  | Deliver i j | Delegate i j => [i; j]
  end.

(** One step, seen from the goroutines that take it. *)
Inductive stepped (self : ptr) (s s' : state) : action → Prop :=
| stepped_solo a i th th' :
    movers a = [i] →
    threads s !! i = Some th →
    local self i a th (shared s) = Some (th', shared s') →
    threads s' = <[i := th']> (threads s) →
    stepped self s s' a
| stepped_duo a f i j sg wt sg' wt' :
    movers a = [i; j] → i ≠ j →
    (f = deliver ∨ f = delegate) →
    threads s !! i = Some sg → threads s !! j = Some wt →
    f sg wt (shared s) = Some (sg', wt') →
    threads s' = <[j := wt']> (<[i := sg']> (threads s)) →
    shared s' = shared s →
    stepped self s s' a.

Definition entry (o : op) : pc :=
  match o with
  | OpBroadcast => InBroadcast B_checks
  | OpSignal => InSignal S_checks
  | OpWait | OpWaitContext _ => InWaitContext W_checks
  end.

(** *** Example runs

    Two goroutines share a Cond at address 1.  Goroutine 0 locks [c.L],
    calls [WaitContext] with a cancellable context, registers and is
    about to unlock [c.L]. *)
Definition after (tr : list action) : state :=
  default (init (NewCond true []) 2) (run 1%positive tr (init (NewCond true []) 2)).

Definition park0 : list action :=
  [LockL 0; Call 0 (OpWaitContext (Cancelable None));
   Tau 0; Tau 0; Tau 0; Tau 0; Tau 0]%nat.

(** Goroutine 1 calls [Signal] and reaches the [select] of lines 67-75
    while goroutine 0 has not reached its own [select] yet. *)
Definition signal_waits : list action := park0 ++ [Call 1 OpSignal; Tau 1; Tau 1; Tau 1]%nat.

(** Goroutine 0 reaches its [select], takes the token and runs to its
    [return err]. *)
Definition delivered_run : list action :=
  signal_waits ++ [Tau 0; Deliver 1 0; Tau 0; Tau 0; Tau 0; Tau 0; Tau 0]%nat.

(** The context of goroutine 0 is cancelled instead, with no signaller. *)
Definition cancelled_run : list action :=
  park0 ++ [Tau 0; Cancel 0 "context canceled"; Select 0 CaseDone;
            Tau 0; Select 0 CaseLock; Tau 0; Tau 0; Tau 0; Tau 0]%nat.

Definition used_run : list action := [Call 0 OpSignal; Tau 0]%nat.

(** The world once the copy guard has passed. *)
Definition checked (self : ptr) (w : world) : world :=
  set_cond w (set_checker (cond w) (uintptr_of self)).

End DelegCond.

(** * Proofs *)

#[local] Set Warnings "-clear-no-such-hyp".

(** ** The runtime *)

Lemma int_wrap_id z : - 2 ^ 63 ≤ z ≤ max_int → int_wrap z = z.
Proof. unfold int_wrap, max_int. intros H. rewrite Z.mod_small; lia. Qed.

Lemma check_cases self v v' :
  check self v = Some v' → v' = uintptr_of self ∧ (v = 0 ∨ v = uintptr_of self).
Proof.
  unfold check, CompareAndSwapUintptr, uintptr_of. intros H.
  repeat case_match; simplify_eq/=; try lia; split; try lia.
Qed.

Lemma check_ok self v :
  v = 0 ∨ v = uintptr_of self → check self v = Some (uintptr_of self).
Proof.
  unfold check, CompareAndSwapUintptr, uintptr_of. intros H.
  destruct (Z.eqb_spec v (Z.pos self)) as [->|Hn]; simpl; [done|].
  destruct H as [->|?]; [|done]. simpl.
  destruct (Z.eqb_spec (Z.pos self) (Z.pos self)); done.
Qed.

Lemma check_copied self self' :
  self ≠ self' → check self' (uintptr_of self) = None.
Proof.
  unfold check, CompareAndSwapUintptr, uintptr_of. intros H.
  assert ((Z.pos self =? Z.pos self') = false) as E by (apply Z.eqb_neq; congruence).
  rewrite E. cbn -[Z.eqb]. change (Z.pos self =? 0) with false.
  cbn -[Z.eqb]. by rewrite E.
Qed.

Lemma Done_Err c : Done c = true → ∃ e, Err c = Some e.
Proof. destruct c as [|[e|]]; simpl; eauto; done. Qed.

Lemma recv_facts c c' ok :
  chan_recv c = Some (c', ok) →
  closed c' = closed c ∧ cap c' = cap c ∧ (buf c' ≤ buf c)%nat ∧
  ((buf c ≤ 1)%nat → buf c' = 0%nat).
Proof.
  unfold chan_recv. intros H.
  destruct c as [k [|n] cl]; simpl in *; repeat case_match; simplify_eq/=;
    repeat split; lia.
Qed.

Lemma recv_none c : chan_recv c = None → buf c = 0%nat ∧ closed c = false.
Proof. unfold chan_recv. destruct c as [k [|n] []]; simpl; intros; simplify_eq; done. Qed.

Lemma send_facts c c' :
  chan_send c = Some c' →
  closed c' = closed c ∧ cap c' = cap c ∧ (buf c' ≤ cap c)%nat ∧ buf c' = S (buf c).
Proof.
  unfold chan_send. intros H. case_match eqn:E; simplify_eq/=.
  apply Nat.ltb_lt in E. repeat split; lia.
Qed.

Lemma send_none c : chan_send c = None → (cap c ≤ buf c)%nat.
Proof. unfold chan_send. case_match eqn:E; [done|]. intros _. by apply Nat.ltb_ge. Qed.

Lemma lookup_fresh (h : heap) (c : chan) : (h ++ [c]) !! length h = Some c.
Proof. rewrite lookup_app_r by lia. by rewrite Nat.sub_diag. Qed.

Lemma lookup_alloc (h : heap) (c : chan) x : is_Some (h !! x) → is_Some ((h ++ [c]) !! x).
Proof. intros [d Hd]. exists d. by apply lookup_app_l_Some. Qed.

(** *** Heaps *)

Arguments closed_at : simpl never.
Arguments open_at : simpl never.
Arguments empty_at : simpl never.

Section heap_update.
Context (h : heap) (r : ref) (c : chan) (Hr : h !! r = Some c).

Lemma at_upd (f : chan → bool) c' x :
  match <[r := c']> h !! x with Some d => f d | None => false end =
  if decide (x = r) then f c' else match h !! x with Some d => f d | None => false end.
Proof.
  apply lookup_lt_Some in Hr.
  rewrite list_lookup_insert. repeat case_decide; naive_solver.
Qed.

Lemma closed_upd_mono c' x :
  (closed c = true → closed c' = true) →
  closed_at h x = true → closed_at (<[r := c']> h) x = true.
Proof.
  intros E. unfold closed_at. rewrite (at_upd closed).
  case_decide; subst; rewrite ?Hr; auto.
Qed.

Lemma closed_upd_close : closed_at (<[r := chan_close c]> h) r = true.
Proof. unfold closed_at. rewrite (at_upd closed). by rewrite decide_True. Qed.

Lemma open_upd_keep c' x :
  closed c' = closed c → open_at h x = true → open_at (<[r := c']> h) x = true.
Proof.
  intros E. unfold open_at. rewrite (at_upd (λ d, negb (closed d))).
  case_decide; subst; rewrite ?Hr, ?E; done.
Qed.

Lemma empty_upd_mono c' x :
  (buf c' ≤ buf c)%nat → empty_at h x = true → empty_at (<[r := c']> h) x = true.
Proof.
  intros E. unfold empty_at. rewrite (at_upd (λ d, Nat.eqb (buf d) 0)).
  case_decide; subst; rewrite ?Hr; auto.
  rewrite !Nat.eqb_eq. lia.
Qed.

Lemma empty_upd_at c' : buf c' = 0%nat → empty_at (<[r := c']> h) r = true.
Proof.
  intros E. unfold empty_at. rewrite (at_upd (λ d, Nat.eqb (buf d) 0)).
  rewrite decide_True by done. by rewrite E.
Qed.

Lemma empty_intro : buf c = 0%nat → empty_at h r = true.
Proof. unfold empty_at. rewrite Hr. by intros ->. Qed.
Lemma open_intro : closed c = false → open_at h r = true.
Proof. unfold open_at. rewrite Hr. by intros ->. Qed.
Lemma closed_intro : closed c = true → closed_at h r = true.
Proof. unfold closed_at. by rewrite Hr. Qed.
Lemma open_elim : open_at h r = true → closed c = false.
Proof. unfold open_at. rewrite Hr. by destruct (closed c). Qed.
Lemma empty_elim : empty_at h r = true → buf c = 0%nat.
Proof. unfold empty_at. rewrite Hr. by intros ?%Nat.eqb_eq. Qed.
End heap_update.

Lemma closed_alloc (h : heap) c x : closed_at h x = true → closed_at (h ++ [c]) x = true.
Proof.
  unfold closed_at. destruct (h !! x) as [d|] eqn:E; [|done].
  by rewrite (lookup_app_l_Some _ _ _ _ E).
Qed.
Lemma open_alloc (h : heap) c x : open_at h x = true → open_at (h ++ [c]) x = true.
Proof.
  unfold open_at. destruct (h !! x) as [d|] eqn:E; [|done].
  by rewrite (lookup_app_l_Some _ _ _ _ E).
Qed.
Lemma empty_alloc (h : heap) c x : empty_at h x = true → empty_at (h ++ [c]) x = true.
Proof.
  unfold empty_at. destruct (h !! x) as [d|] eqn:E; [|done].
  by rewrite (lookup_app_l_Some _ _ _ _ E).
Qed.
Lemma open_fresh (h : heap) n : open_at (h ++ [make n]) (length h) = true.
Proof. unfold open_at. by rewrite lookup_fresh. Qed.
Lemma empty_fresh (h : heap) n : empty_at (h ++ [make n]) (length h) = true.
Proof. unfold empty_at. by rewrite lookup_fresh. Qed.
Lemma open_not_closed (h : heap) x : open_at h x = true → closed_at h x = true → False.
Proof. unfold open_at, closed_at. destruct (h !! x) as [[? ? []]|]; simpl; congruence. Qed.
Lemma open_lookup (h : heap) x : open_at h x = true → is_Some (h !! x).
Proof. unfold open_at. destruct (h !! x); eauto. done. Qed.

Lemma open_upd_other (h : heap) r (c' : chan) x :
  r ≠ x → open_at h x = true → open_at (<[r := c']> h) x = true.
Proof. intros Hne. unfold open_at. by rewrite list_lookup_insert_ne. Qed.
Lemma recv_open c c' ok :
  chan_recv c = Some (c', ok) → closed c = false → buf c = S (buf c').
Proof.
  unfold chan_recv. destruct c as [k [|n] cl]; simpl; intros; repeat case_match; simplify_eq/=; done.
Qed.
Lemma send_one c c' : chan_send c = Some c' → cap c = 1%nat → buf c = 0%nat.
Proof. unfold chan_send. case_match eqn:E; [|done]. apply Nat.ltb_lt in E. lia. Qed.

(** ** The variant guarded by [sync.Mutex] *)
Module TokenFacts.
Import TokenCond.

Lemma one_token_upd (h : heap) (r : nat) (c' : chan) :
  Forall one_token h → one_token c' → Forall one_token (<[r := c']> h).
Proof. intros. by apply Forall_insert. Qed.
Lemma one_token_alloc (h : heap) : Forall one_token h → Forall one_token (h ++ [make 1]).
Proof. intros. apply Forall_app; split; [done|]. repeat constructor. Qed.
Lemma one_token_lookup (h : heap) r c : Forall one_token h → h !! r = Some c → one_token c.
Proof. intros H ?. eapply Forall_lookup_1 in H; eauto. Qed.

(** *** Counting the registered waiters *)

Lemma registered_insert (ts : list thread) i th th' :
  ts !! i = Some th →
  (registered (<[i := th']> ts) + weight th = registered ts + weight th')%nat.
Proof.
  revert i. induction ts as [|t ts IH]; intros [|i] H; simplify_eq/=; try lia.
  specialize (IH _ H). lia.
Qed.

Lemma registered_le (ts : list thread) : (registered ts ≤ length ts)%nat.
Proof. induction ts as [|t ts IH]; simpl; [lia|]. unfold weight. case_match; lia. Qed.

Lemma registered_pos (ts : list thread) i th :
  ts !! i = Some th → counted (at_pc th) = true → (1 ≤ registered ts)%nat.
Proof.
  revert i. induction ts as [|t ts IH]; intros [|i] H Hc; simplify_eq/=.
  - unfold weight. rewrite Hc. lia.
  - specialize (IH _ H Hc). lia.
Qed.

Lemma registered_idle n : registered (replicate n idle) = 0%nat.
Proof. induction n; simpl; auto. Qed.

(** *** Program points *)

Lemma cs_of_make p : at_make p = true → in_cs p = true.
Proof. by destruct p as [|[]|[]|[]]. Qed.
Lemma cs_of_sees p : sees_waiters p = true → in_cs p = true.
Proof. by destruct p as [|[]|[]|[]]. Qed.
Lemma cs_of_needs p : needs_ch p = true → in_cs p = true.
Proof. by destruct p as [|[]|[]|[]]. Qed.
Lemma cs_of_settled p : settled p = true → in_cs p = true.
Proof. by destruct p as [|[]|[]|[]]. Qed.
Lemma cs_of_drain p : at_drain p = true → in_cs p = true.
Proof. by destruct p as [|[]|[]|[]]. Qed.
Lemma cs_of_release p : at_release p = true → in_cs p = true.
Proof. by destruct p as [|[]|[]|[]]. Qed.
Lemma parked_counted p : parked p = true → counted p = true.
Proof. by destruct p as [|[]|[]|[]]. Qed.
Lemma parked_holds p : parked p = true → holds_ref p = true.
Proof. by destruct p as [|[]|[]|[]]. Qed.

(** *** One step, seen from the thread that takes it *)

Lemma all_threads_step (T : nat → thread → world → Prop) (ts : list thread) w i th th' w' :
  (∀ j thj, ts !! j = Some thj → T j thj w) →
  ts !! i = Some th →
  T i th' w' →
  (∀ j thj, j ≠ i → ts !! j = Some thj → T j thj w → T j thj w') →
  ∀ j thj, <[i := th']> ts !! j = Some thj → T j thj w'.
Proof.
  intros Hall Hi Hnew Hframe j thj Hj.
  destruct (decide (j = i)) as [->|Hne].
  - rewrite list_lookup_insert_eq in Hj by (by eapply lookup_lt_Some). by simplify_eq.
  - rewrite list_lookup_insert_ne in Hj by done. eauto.
Qed.

Lemma step_inv_local self a s s' :
  step self a s = Some s' →
  ∃ th th', threads s !! actor a = Some th ∧
    local self a th (shared s) = Some (th', shared s') ∧
    threads s' = <[actor a := th']> (threads s) ∧ fault (shared s) = None.
Proof.
  unfold step. intros H. repeat case_match; simplify_eq/=. eauto 10.
Qed.

Ltac local_cases H :=
  unfold local, call, Broadcast, Signal, WaitContext, WaitContext_select,
    do_check, do_lock, alloc in H;
  repeat (case_match; simplify_eq/=).

Ltac tidy :=
  repeat match goal with
  | H : at_pc ?t = _ |- context [at_pc ?t] => rewrite H
  | H : at_pc ?t = _, H' : context [at_pc ?t] |- _ =>
      lazymatch H' with H => fail | _ => rewrite H in H' end
  | H : ctx ?t = _ |- context [ctx ?t] => rewrite H
  | H : ctx ?t = _, H' : context [ctx ?t] |- _ =>
      lazymatch H' with H => fail | _ => rewrite H in H' end
  | H : check _ _ = Some _ |- _ => apply check_cases in H
  | H : ?x = ?x → _ |- _ => specialize (H eq_refl)
  | H : false = true → _ |- _ => clear H
  | H : true = false → _ |- _ => clear H
  | H : _ ∧ _ |- _ => destruct H
  | H : ?P → _, H' : ?P |- _ =>
      match type of P with Prop => specialize (H H') end
  | H : Some _ = Some _ |- _ => injection H as H; try subst
  | H : Some _ = None |- _ => discriminate H
  | H : None = Some _ |- _ => discriminate H
  | H : true = false |- _ => discriminate H
  | H : false = true |- _ => discriminate H
  | H : ?x ≠ ?x |- _ => destruct (H eq_refl)
  | |- true = true → _ => intros _
  | |- false = false → _ => intros _
  | |- false = true → _ => intros ?; discriminate
  | |- true = false → _ => intros ?; discriminate
  | |- _ ∧ _ => split
  | _ => progress simpl in *
  end.

Ltac learn_cs p H lem :=
  lazymatch goal with
  | _ : in_cs p = true |- _ => fail
  | _ => pose proof (lem _ H)
  end.

Ltac facts :=
  repeat match goal with
  | H : at_make ?p = true |- _ => learn_cs p H cs_of_make
  | H : sees_waiters ?p = true |- _ => learn_cs p H cs_of_sees
  | H : needs_ch ?p = true |- _ => learn_cs p H cs_of_needs
  | H : settled ?p = true |- _ => learn_cs p H cs_of_settled
  | H : at_drain ?p = true |- _ => learn_cs p H cs_of_drain
  | H : at_release ?p = true |- _ => learn_cs p H cs_of_release
  end;
  repeat match goal with
  | G : Forall one_token ?h, H : ?h !! _ = Some ?c |- _ =>
      lazymatch goal with
      | _ : one_token c |- _ => fail
      | _ => pose proof (one_token_lookup _ _ _ G H)
      end
  end;
  repeat match goal with
  | H : chan_recv _ = Some _ |- _ => apply recv_facts in H; destruct H as (? & ? & ? & ?)
  | H : chan_recv _ = None |- _ => apply recv_none in H as [? ?]
  | H : chan_send _ = Some _ |- _ => apply send_facts in H as (? & ? & ? & ?)
  | H : chan_send _ = None |- _ => apply send_none in H
  | H : (_ =? _) = true |- _ => apply Z.eqb_eq in H
  | H : (_ =? _) = false |- _ => apply Z.eqb_neq in H
  | H : (_ <? _) = true |- _ => apply Z.ltb_lt in H
  | H : (_ <? _) = false |- _ => apply Z.ltb_ge in H
  | H : one_token _ |- _ => destruct H
  | H : ∃ _, _ |- _ => destruct H
  | H : _ ∧ _ |- _ => destruct H
  | H : _ ∨ _ |- _ => destruct H
  | H1 : ?x = Some ?a, H2 : ?x = Some ?b |- _ =>
      lazymatch a with
      | b => fail
      | _ => assert (a = b) by congruence; first [subst a | subst b]
      end
  | H : ?x ≠ None |- _ =>
      lazymatch x with
      | Some _ => clear H
      | _ => let E := fresh "E" in destruct x eqn:E; [clear H | congruence]
      end
  end.

Ltac heap_step :=
  lazymatch goal with
  | |- closed_at (<[_ := _]> _) _ = true =>
      first [ eapply closed_upd_close; eassumption
            | eapply closed_upd_mono; [eassumption | simpl; congruence |] ]
  | |- open_at (<[_ := _]> _) _ = true =>
      eapply open_upd_keep; [eassumption | simpl; congruence |]
  | |- empty_at (<[_ := _]> _) _ = true =>
      first [ eapply empty_upd_at; [eassumption | simpl; lia]
            | eapply empty_upd_mono; [eassumption | simpl; lia |] ]
  | |- is_Some (<[_ := _]> _ !! _) => apply list_lookup_insert_is_Some
  | |- closed_at (_ ++ _) _ = true => apply closed_alloc
  | |- open_at (_ ++ _) _ = true => first [apply open_fresh | apply open_alloc]
  | |- empty_at (_ ++ _) _ = true => first [apply empty_fresh | apply empty_alloc]
  | |- is_Some ((_ ++ _) !! _) => apply lookup_alloc
  | |- Forall one_token (<[_ := _]> _) =>
      apply one_token_upd; [assumption | split; simpl; lia]
  | |- Forall one_token (_ ++ _) => apply one_token_alloc
  end.

Ltac hs :=
  first
  [ eassumption | reflexivity | congruence | lia | solve [eauto 3]
  | lazymatch goal with
    | |- ∀ _, _ => intros; tidy; hs
    | |- _ ∧ _ => split; hs
    | |- ∃ _, _ => eexists; hs
    | |- _ ∨ _ => first [left; hs | right; hs]
    | |- is_Some (Some _) => eexists; reflexivity
    | |- is_Some _ =>
        first [ heap_step; hs | eapply open_lookup; hs | eexists; eassumption ]
    | |- empty_at _ _ = true =>
        first [ heap_step; hs | eapply empty_intro; [eassumption | lia] ]
    | |- open_at _ _ = true =>
        first [ heap_step; hs | eapply open_intro; [eassumption | congruence] ]
    | |- closed_at _ _ = true =>
        first [ heap_step; hs | eapply closed_intro; [eassumption | congruence] ]
    | |- _ => heap_step; hs
    end ].

Ltac quick := try done; try congruence; try lia.

Ltac fin :=
  unfold ch_open, ch_empty, ch_closed, captured, woken_by_close, outcome_ok, do_unlock in *;
  tidy; repeat case_match; tidy; intros; tidy; quick;
  facts; tidy; quick; try (solve [hs]).

(** *** The invariants are preserved *)

Lemma inv1_step self a s s' : inv1 self s → step self a s = Some s' → inv1 self s'.
Proof.
  intros [HT [HL HG]] Hs.
  apply step_inv_local in Hs as (th & th' & Hth & Hloc & Hts & Hf).
  destruct s as [ts w], s' as [ts' w']; simpl in *; subst ts'.
  pose proof (HT _ _ Hth) as (Hcs & HLk & Hck & Hwk); simpl in *.
  local_cases Hloc;
  (split;
   [ refine (all_threads_step _ _ _ _ _ _ _ HT Hth _ _);
     [ clear HT; unfold tinv1 in *
     | intros j thj Hne Hj (A & B & C & D); clear HT; unfold tinv1 in * ]
   | clear HT; unfold ginv1 in * ]).
  all: solve [fin; intuition congruence].
Qed.

Lemma inv2_step self a s s' : inv2 s → step self a s = Some s' → inv2 s'.
Proof.
  intros [HW Hlen] Hs.
  apply step_inv_local in Hs as (th & th' & Hth & Hloc & Hts & Hf).
  destruct s as [ts w], s' as [ts' w']; simpl in *; subst ts'.
  pose proof (registered_insert ts _ th th' Hth) as Hreg.
  pose proof (registered_le (<[actor a := th']> ts)) as Hle.
  pose proof (registered_le ts) as Hle0.
  unfold inv2; simpl. rewrite length_insert in *.
  split; [|done].
  local_cases Hloc; unfold weight, do_unlock in *; tidy;
    repeat case_match; simplify_eq/=;
    rewrite ?int_wrap_id; try lia.
Qed.

Lemma inv3_step self a s s' :
  inv1 self s → inv2 s → inv3 s → step self a s = Some s' → inv3 s'.
Proof.
  intros [HT1 [HL HG]] [HW Hlen] [HT3 (G4 & G7 & G8)] Hs.
  pose proof (inv2_step _ _ _ _ (conj HW Hlen) Hs) as [HW' _].
  apply step_inv_local in Hs as (th & th' & Hth & Hloc & Hts & Hf).
  destruct s as [ts w], s' as [ts' w']; simpl in *; subst ts'.
  pose proof (HT1 _ _ Hth) as (Hcs & HLk & Hck & Hwk).
  pose proof (HT3 _ _ Hth) as (I1 & I2 & I3 & I4 & I5 & I6 & I7).
  assert (Hpos : counted (at_pc th) = true → 0 < waiters (cond w)).
  { intros Hc. pose proof (registered_pos _ _ _ Hth Hc). lia. }
  assert (Hnn : 0 ≤ waiters (cond w)) by lia.
  assert (Hpos' : counted (at_pc th') = true → 0 < waiters (cond w')).
  { intros Hc. assert (<[actor a := th']> ts !! actor a = Some th') as Hth'
      by (apply list_lookup_insert_eq; by eapply lookup_lt_Some).
    pose proof (registered_pos _ _ _ Hth' Hc). lia. }
  assert (Hnn' : 0 ≤ waiters (cond w')) by lia.
  clear Hwk HLk Hck HG HL HW HW' Hlen. simpl in *.
  local_cases Hloc.
  all: split;
   [ refine (all_threads_step _ _ _ _ _ _ _ HT3 Hth _ _);
     [ clear HT1 HT3; unfold tinv3 in *
     | intros j thj Hne Hj (J1 & J2 & J3 & J4 & J5 & J6 & J7);
       pose proof (HT1 _ _ Hj) as (Jcs & _); clear HT1 HT3;
       unfold tinv3 in * ]
   | clear HT1 HT3; unfold ginv3 in * ].
  all: solve [fin].
Qed.

Lemma safe_step self a s s' :
  inv1 self s → inv2 s → inv3 s → step self a s = Some s' → safe s'.
Proof.
  intros [HT1 [HL HG]] [HW Hlen] [HT3 (G4 & G7 & G8)] Hs.
  apply step_inv_local in Hs as (th & th' & Hth & Hloc & Hts & Hf).
  destruct s as [ts w], s' as [ts' w']; simpl in *; subst ts'.
  pose proof (HT1 _ _ Hth) as (Hcs & HLk & Hck & Hwk).
  pose proof (HT3 _ _ Hth) as (I1 & I2 & I3 & I4 & I5 & I6 & I7).
  pose proof (check_ok self _ HG) as Hchk.
  clear HT1 HT3 Hwk Hck HW Hlen. unfold safe. simpl in *.
  local_cases Hloc.
  all: fin.
  all: exfalso; eapply open_not_closed; [eauto 3 | eapply closed_intro; eassumption].
Qed.

Lemma inv5_step self a s s' :
  inv1 self s → inv2 s → inv3 s → inv5 s → step self a s = Some s' → inv5 s'.
Proof.
  intros [HT1 _] [HW _] [HT3 _] H5 Hs.
  apply step_inv_local in Hs as (th & th' & Hth & Hloc & Hts & Hf).
  destruct s as [ts w], s' as [ts' w']; simpl in *; subst ts'.
  intros b j thb thj Hb Hj Pb Pj; simpl in *.
  apply list_lookup_insert_Some in Hb as [(Eb & <- & _)|(Hnb & Hb)];
  apply list_lookup_insert_Some in Hj as [(Ej & <- & _)|(Hnj & Hj)].
  - destruct (at_pc th') as [|[]|[]|[]]; done.
  - pose proof (HT1 _ _ Hth) as (Hcs & _).
    pose proof (HT3 _ _ Hth) as (I1 & I2 & I3 & I4 & I5 & I6 & I7).
    pose proof (HT3 _ _ Hj) as (_ & _ & _ & _ & J5 & _).
    pose proof (registered_pos _ _ _ Hj (parked_counted _ Pj)) as Hreg.
    specialize (J5 (parked_holds _ Pj)).
    pose proof (λ P, H5 _ _ _ _ Hth Hj P Pj) as Hold.
    clear HT1 HT3 H5.
    local_cases Hloc; solve [fin].
  - pose proof (HT1 _ _ Hth) as (Hcs & _).
    pose proof (HT1 _ _ Hb) as (Bcs & _).
    specialize (Bcs (cs_of_release _ Pb)).
    pose proof (HT3 _ _ Hth) as (I1 & I2 & I3 & I4 & I5 & I6 & I7).
    pose proof (λ P, H5 _ _ _ _ Hb Hth Pb P) as Hold.
    clear HT1 HT3 H5.
    local_cases Hloc; solve [fin].
  - pose proof (HT1 _ _ Hth) as (Hcs & _).
    pose proof (HT1 _ _ Hb) as (Bcs & _).
    specialize (Bcs (cs_of_release _ Pb)).
    pose proof (H5 _ _ _ _ Hb Hj Pb Pj) as Hold.
    clear HT1 HT3 H5.
    local_cases Hloc; solve [fin].
Qed.

Lemma Inv_step self a s s' : Inv self s → step self a s = Some s' → Inv self s'.
Proof.
  intros (H1 & H2 & H3 & H5 & _) Hs.
  unfold Inv. split_and!;
    eauto using inv1_step, inv2_step, inv3_step, inv5_step, safe_step.
Qed.

(** *** Reachable states *)

Lemma Inv_init self n : Z.of_nat n ≤ max_int → Inv self (init (NewCond true) n).
Proof.
  intros Hn. unfold Inv, init.
  assert (Hidle : ∀ j thj, replicate n idle !! j = Some thj → thj = idle).
  { intros j thj [-> _]%lookup_replicate. done. }
  split_and!.
  - split; [|split; simpl; auto].
    intros j thj ->%Hidle. repeat split; simpl; done.
  - split; simpl; [by rewrite registered_idle | by rewrite length_replicate].
  - split.
    + intros j thj ->%Hidle. repeat split; simpl; done.
    + repeat split; simpl; try done; try lia. 
  - intros b j thb thj ->%Hidle _ ?. done.
  - done.
Qed.

Lemma Inv_run self tr : ∀ s s', Inv self s → run self tr s = Some s' → Inv self s'.
Proof.
  induction tr as [|a tr IH]; intros s s' HI Hr; simpl in Hr.
  - by simplify_eq.
  - destruct (step self a s) as [s1|] eqn:E; [|done].
    eauto using Inv_step.
Qed.

Lemma Inv_reachable self n s :
  Z.of_nat n ≤ max_int → reachable self n s → Inv self s.
Proof. intros Hn [tr Hr]. eauto using Inv_run, Inv_init. Qed.

Lemma served_step self a s s' b j :
  b ≠ j → Inv self s → step self a s = Some s' →
  no_call b a = true → no_call j a = true →
  served b j s → served b j s'.
Proof.
  intros Hbj HI Hs Nb Nj (thb & thj & Hb & Hj & Pb & Pj & Hok & Hcl).
  pose proof (Inv_step _ _ _ _ HI Hs) as (_ & _ & _ & H5' & _).
  destruct HI as ([HT1 _] & [HW _] & [HT3 _] & H5 & _).
  apply step_inv_local in Hs as (th & th' & Hth & Hloc & Hts & Hf).
  destruct s as [ts w], s' as [ts' w']; simpl in *; subst ts'.
  unfold served; simpl.
  destruct (decide (actor a = b)) as [Eb|Nab]; [|destruct (decide (actor a = j)) as [Ej|Naj]].
  - (* the broadcaster moves *)
    subst b. assert (th = thb) as -> by congruence.
    exists th', thj. rewrite list_lookup_insert_eq by (by eapply lookup_lt_Some).
    rewrite list_lookup_insert_ne by done.
    pose proof (registered_pos _ _ _ Hj) as Hreg.
    assert (H5j : at_release (at_pc th') = true → parked (at_pc thj) = true →
                  woken_by_close thj w').
    { intros. eapply (H5' (actor a) j); simpl; eauto.
      - apply list_lookup_insert_eq. by eapply lookup_lt_Some.
      - by rewrite list_lookup_insert_ne. }
    clear H5 H5' HT1 HT3.
    split_and!; try done.
    all: destruct a; simpl in *; try case_decide; try done.
    all: local_cases Hloc; solve [fin].
  - (* the waiter moves *)
    subst j. assert (th = thj) as -> by congruence.
    exists thb, th'. rewrite list_lookup_insert_eq by (by eapply lookup_lt_Some).
    rewrite list_lookup_insert_ne by done.
    pose proof (HT1 _ _ Hth) as (Hcs & _).
    pose proof (HT1 _ _ Hb) as (Bcs & _).
    clear H5 H5' HT1 HT3.
    split_and!; try done.
    all: destruct a; simpl in *; try case_decide; try done.
    all: local_cases Hloc; solve [fin].
  - (* a third thread moves *)
    exists thb, thj. rewrite !list_lookup_insert_ne by done.
    split_and!; try done.
    intros Fb Fj. specialize (Hcl Fb Fj).
    clear H5 H5' HT1 HT3 Nb Nj.
    local_cases Hloc; solve [fin].
Qed.

Lemma served_run self tr b j : ∀ s s',
  b ≠ j → Inv self s → run self tr s = Some s' →
  forallb (no_call b) tr = true → forallb (no_call j) tr = true →
  served b j s → served b j s'.
Proof.
  induction tr as [|a tr IH]; intros s s' Hbj HI Hr Nb Nj Hsv; simpl in *.
  - by simplify_eq.
  - destruct (step self a s) as [s1|] eqn:E; [|done].
    apply andb_prop in Nb as [Nb1 Nb2]. apply andb_prop in Nj as [Nj1 Nj2].
    eapply (IH s1); [done | by eapply Inv_step | done | done | done |].
    eapply served_step; eauto.
Qed.

Lemma served_start self s s1 b j thb thj :
  b ≠ j → Inv self s →
  threads s !! b = Some thb → at_pc thb = InBroadcast B_lock →
  threads s !! j = Some thj → waiting (at_pc thj) = true →
  step self (Tau b) s = Some s1 → served b j s1.
Proof.
  intros Hbj HI Hb Pb Hj Pj Hs.
  destruct HI as ([HT1 _] & _).
  apply step_inv_local in Hs as (th & th' & Hth & Hloc & Hts & Hf).
  destruct s as [ts w], s1 as [ts' w']; simpl in *; subst ts'.
  assert (th = thb) as -> by congruence.
  pose proof (HT1 _ _ Hj) as (Jcs & _).
  exists th', thj. unfold served; simpl.
  rewrite list_lookup_insert_eq by (by eapply lookup_lt_Some).
  rewrite list_lookup_insert_ne by done.
  clear HT1. rewrite Pb in Hloc. simpl in Hloc.
  unfold do_lock in Hloc. repeat case_match; simplify_eq/=.
  split_and!; try done.
  - destruct (at_pc thj) as [|[]|[]|[]]; simpl in *; try done.
    specialize (Jcs eq_refl). congruence.
  - destruct (at_pc thj) as [|[]|[]|[]]; simpl in *; try done.
    specialize (Jcs eq_refl). congruence.
Qed.

(** *** What the operations do *)

Lemma inv1_init self n : inv1 self (init (NewCond true) n).
Proof.
  split; [|split; simpl; auto].
  intros j thj [-> _]%lookup_replicate. repeat split; simpl; done.
Qed.

Lemma inv1_run self tr : ∀ s s', inv1 self s → run self tr s = Some s' → inv1 self s'.
Proof.
  induction tr as [|a tr IH]; intros s s' HI Hr; simpl in Hr.
  - by simplify_eq.
  - destruct (step self a s) as [s1|] eqn:E; [|done].
    eauto using inv1_step.
Qed.

Lemma inv1_reachable self n s : reachable self n s → inv1 self s.
Proof. intros [tr Hr]. eauto using inv1_run, inv1_init. Qed.

Lemma lock_held_on_return self n s a s' i p th th' :
  reachable self n s → step self a s = Some s' →
  threads s !! i = Some th → at_pc th = InWaitContext p →
  threads s' !! i = Some th' → at_pc th' = Idle →
  Lk (shared s') = Some i.
Proof.
  intros [HT _]%inv1_reachable Hs Hi Hp Hi' Hp'.
  apply step_inv_local in Hs as (th0 & th1 & Hth & Hloc & Hts & Hf).
  destruct s as [ts w], s' as [ts' w']; simpl in *; subst ts'.
  apply list_lookup_insert_Some in Hi' as [(<- & <- & _)|(Hne & Hi')]; [|congruence].
  assert (th0 = th) as -> by congruence.
  pose proof (HT _ _ Hth) as (_ & HL & _). clear HT.
  local_cases Hloc; fin.
Qed.

Lemma lock_held_at_return self n s i th :
  reachable self n s → threads s !! i = Some th →
  at_pc th = InWaitContext W_ret → Lk (shared s) = Some i.
Proof.
  intros [HT _]%inv1_reachable Hi Hp.
  pose proof (HT _ _ Hi) as (_ & HL & _). rewrite Hp in HL. by apply HL.
Qed.

Lemma outcome_at_return self n s i th :
  reachable self n s → threads s !! i = Some th → at_pc th = InWaitContext W_ret →
  (err th = None ↔ how th = ByChannel) ∧
  (how th = ByCancel ↔ ∃ e, err th = Some e ∧ Err (ctx th) = Some e).
Proof.
  intros [HT _]%inv1_reachable Hi Hp.
  pose proof (HT _ _ Hi) as (_ & _ & _ & Ho). rewrite Hp in Ho.
  destruct (Ho eq_refl) as [[E1 E2]|(E1 & E2 & E3)].
  - rewrite E1, E2. split; [done|]. split; [done|]. by intros (e & ? & _).
  - destruct (Done_Err _ E2) as [e He]. rewrite E1, E3, He.
    split; [split; done|]. split; eauto.
Qed.

Lemma no_panic self n s :
  Z.of_nat n ≤ max_int → reachable self n s → fault (shared s) = None.
Proof. intros Hn Hr. by destruct (Inv_reachable _ _ _ Hn Hr) as (_ & _ & _ & _ & ?). Qed.

Lemma waiters_counts self n s :
  Z.of_nat n ≤ max_int → reachable self n s →
  waiters (cond (shared s)) = Z.of_nat (registered (threads s)) ∧
  0 ≤ waiters (cond (shared s)).
Proof.
  intros Hn Hr. destruct (Inv_reachable _ _ _ Hn Hr) as (_ & [HW _] & _). lia.
Qed.

Lemma channel_present self n s :
  Z.of_nat n ≤ max_int → reachable self n s →
  (0 < waiters (cond (shared s)) → ch (cond (shared s)) ≠ None) ∧
  (∀ i th, threads s !! i = Some th →
     at_pc th = InBroadcast B_close ∨ at_pc th = InSignal S_select →
     ∃ r c, ch (cond (shared s)) = Some r ∧ hp (shared s) !! r = Some c ∧ closed c = false).
Proof.
  intros Hn Hr. destruct (Inv_reachable _ _ _ Hn Hr) as (_ & _ & [HT3 (G4 & G7 & G8)] & _).
  split; [done|]. intros i th Hi Hp.
  pose proof (HT3 _ _ Hi) as (I1 & I2 & I3 & I4 & _).
  assert (0 < waiters (cond (shared s))) as Hw by (destruct Hp as [E|E]; rewrite E in I2; by apply I2).
  assert (ch_open (shared s)) as Ho by (destruct Hp as [E|E]; rewrite E in I4; by apply I4).
  destruct (ch (cond (shared s))) as [r|] eqn:E; [|by destruct (G8 Hw)].
  specialize (Ho _ E). unfold open_at in Ho.
  destruct (hp (shared s) !! r) as [c|] eqn:Ec; [|done].
  exists r, c. split_and!; try done. by destruct (closed c).
Qed.

Lemma step_local self a s th th' w' :
  fault (shared s) = None → threads s !! actor a = Some th →
  local self a th (shared s) = Some (th', w') →
  step self a s = Some (State (<[actor a := th']> (threads s)) w').
Proof. intros Hf Hth Hl. unfold step. by rewrite Hf, Hth, Hl. Qed.

Lemma insert_twice (ts : list thread) i a b : <[i := a]> (<[i := b]> ts) = <[i := a]> ts.
Proof. apply list_insert_insert_eq. Qed.

Lemma lookup_same (ts : list thread) i th a : ts !! i = Some th → <[i := a]> ts !! i = Some a.
Proof. intros H. apply list_lookup_insert_eq. by eapply lookup_lt_Some. Qed.

Lemma run_nil self s : run self [] s = Some s.
Proof. done. Qed.

Lemma run_step self a tr s s1 s' :
  step self a s = Some s1 → run self tr s1 = Some s' → run self (a :: tr) s = Some s'.
Proof. intros H1 H2. simpl. by rewrite H1. Qed.

Arguments run : simpl never.

Ltac tau_with tac :=
  eapply run_step;
  [ eapply step_local;
    [ done
    | simpl; first [eassumption | eapply lookup_same; eassumption]
    | simpl; tac; simpl; reflexivity ]
  | simpl; rewrite ?insert_twice ].



Lemma at_most_one_token self n s r c :
  Z.of_nat n ≤ max_int → reachable self n s →
  hp (shared s) !! r = Some c → (buf c ≤ 1)%nat.
Proof.
  intros Hn Hr Hc. destruct (Inv_reachable _ _ _ Hn Hr) as (_ & _ & [_ (_ & G7 & _)] & _).
  by destruct (one_token_lookup _ _ _ G7 Hc).
Qed.

Lemma signal_noop_no_waiters self s i th :
  fault (shared s) = None → threads s !! i = Some th →
  at_pc th = InSignal S_lock →
  mtx (cond (shared s)) = None → waiters (cond (shared s)) = 0 →
  run self [Tau i; Tau i; Tau i] s = Some (State (<[i := goto th Idle]> (threads s)) (shared s)).
Proof.
  intros Hf Hth Hp Hm Hw. destruct s as [ts [[l m c n k] h o f]]; simpl in *; subst.
  tau_with ltac:(rewrite Hp).
  tau_with idtac. tau_with idtac.
  by rewrite run_nil.
Qed.

Lemma signal_noop_pending self n s i th r c :
  Z.of_nat n ≤ max_int → reachable self n s →
  threads s !! i = Some th → at_pc th = InSignal S_select →
  ch (cond (shared s)) = Some r → hp (shared s) !! r = Some c → buf c = 1%nat →
  step self (Tau i) s =
  Some (State (<[i := goto th (InSignal S_unlock)]> (threads s)) (shared s)).
Proof.
  intros Hn Hr Hth Hp Hch Hc Hb.
  destruct (Inv_reachable _ _ _ Hn Hr) as (_ & _ & [HT3 (_ & G7 & _)] & _ & Hf).
  pose proof (HT3 _ _ Hth) as (_ & _ & _ & I4 & _). rewrite Hp in I4.
  specialize (I4 eq_refl eq_refl _ Hch).
  pose proof (open_elim _ _ _ Hc I4) as Hcl.
  destruct (one_token_lookup _ _ _ G7 Hc) as [Hcap _].
  eapply step_local; [done|simpl; eassumption|]. simpl. rewrite Hp. simpl.
  rewrite Hch, Hc, Hcl. unfold chan_send. rewrite Hb, Hcap. done.
Qed.

Lemma signal_nonblocking self n s i th :
  Z.of_nat n ≤ max_int → reachable self n s →
  threads s !! i = Some th → at_pc th = InSignal S_select →
  ∃ s', step self (Tau i) s = Some s' ∧ fault (shared s') = None ∧
        ∃ th', threads s' !! i = Some th' ∧ at_pc th' = InSignal S_unlock.
Proof.
  intros Hn Hr Hth Hp.
  destruct (channel_present _ _ _ Hn Hr) as [_ Hc].
  destruct (Hc _ _ Hth (or_intror Hp)) as (r & c & Hch & Hlk & Hcl).
  destruct (Inv_reachable _ _ _ Hn Hr) as (_ & _ & _ & _ & Hf).
  destruct (chan_send c) as [c'|] eqn:Es.
  - eexists. split; [|split].
    + eapply step_local; [done|simpl; eassumption|]. simpl. rewrite Hp. simpl.
      rewrite Hch, Hlk, Hcl, Es. reflexivity.
    + done.
    + eexists. split; [simpl; eapply lookup_same; eassumption|done].
  - eexists. split; [|split].
    + eapply step_local; [done|simpl; eassumption|]. simpl. rewrite Hp. simpl.
      rewrite Hch, Hlk, Hcl, Es. reflexivity.
    + done.
    + eexists. split; [simpl; eapply lookup_same; eassumption|done].
Qed.

Lemma drain_last self n s i th :
  Z.of_nat n ≤ max_int → reachable self n s →
  threads s !! i = Some th → at_pc th = InWaitContext W_drain →
  ∃ s', step self (Tau i) s = Some s' ∧ ch_empty (shared s') ∧
        mtx (cond (shared s')) = Some i ∧
        threads s' !! i = Some (goto th (InWaitContext W_unlock2)).
Proof.
  intros Hn Hr Hth Hp.
  pose proof (Inv_reachable _ _ _ Hn Hr) as HI.
  destruct HI as ([HT1 _] & _ & [HT3 (_ & G7 & _)] & _ & Hf).
  pose proof (HT1 _ _ Hth) as (Hcs & _). rewrite Hp in Hcs. specialize (Hcs eq_refl).
  pose proof (HT3 _ _ Hth) as (_ & _ & _ & I4 & _). rewrite Hp in I4.
  specialize (I4 eq_refl eq_refl).
  destruct s as [ts w]; simpl in *.
  destruct (ch (cond w)) as [r|] eqn:Ech.
  - pose proof (open_lookup _ _ (I4 _ Ech)) as [c Hc].
    destruct (one_token_lookup _ _ _ G7 Hc) as [Hcap Hbuf].
    destruct (chan_recv c) as [[c' ok]|] eqn:Er.
    + eexists. split; [|split_and!].
      * eapply step_local; [done|simpl; eassumption|]. simpl. rewrite Hp. simpl.
        rewrite Ech, Hc, Er. reflexivity.
      * intros r' Hr'. simpl in *. assert (r' = r) as -> by congruence.
        apply recv_facts in Er as (_ & _ & _ & Hz).
        eapply empty_upd_at; eauto.
      * done.
      * simpl. eapply lookup_same; eassumption.
    + eexists. split; [|split_and!].
      * eapply step_local; [done|simpl; eassumption|]. simpl. rewrite Hp. simpl.
        rewrite Ech, Hc, Er. reflexivity.
      * intros r' Hr'. simpl in *. assert (r' = r) as -> by congruence.
        apply recv_none in Er as [Hz _]. eapply empty_intro; eauto.
      * done.
      * simpl. eapply lookup_same; eassumption.
  - eexists. split; [|split_and!].
    + eapply step_local; [done|simpl; eassumption|]. simpl. rewrite Hp. simpl.
      rewrite Ech. reflexivity.
    + intros r' Hr'. simpl in *. congruence.
    + done.
    + simpl. eapply lookup_same; eassumption.
Qed.

Lemma last_waiter_drains self s i th :
  fault (shared s) = None → threads s !! i = Some th → at_pc th = InWaitContext W_if →
  step self (Tau i) s =
  Some (State (<[i := goto th (InWaitContext
                  (if waiters (cond (shared s)) =? 0 then W_drain else W_unlock2))]> (threads s))
          (shared s)).
Proof.
  intros Hf Hth Hp. eapply step_local; [done|simpl; eassumption|]. simpl. rewrite Hp. simpl.
  by destruct (waiters (cond (shared s)) =? 0).
Qed.

Lemma no_token_without_waiters self n s :
  Z.of_nat n ≤ max_int → reachable self n s →
  mtx (cond (shared s)) = None → waiters (cond (shared s)) = 0 → ch_empty (shared s).
Proof.
  intros Hn Hr Hm Hw.
  destruct (Inv_reachable _ _ _ Hn Hr) as (_ & _ & [_ (G4 & _)] & _).
  by apply G4.
Qed.

Lemma make_fresh self s b th :
  fault (shared s) = None → threads s !! b = Some th → at_pc th = InBroadcast B_make →
  ∃ s', step self (Tau b) s = Some s' ∧
        ch (cond (shared s')) = Some (length (hp (shared s))) ∧
        open_at (hp (shared s')) (length (hp (shared s))) = true ∧
        empty_at (hp (shared s')) (length (hp (shared s))) = true ∧
        closed_at (hp (shared s')) (length (hp (shared s))) = false.
Proof.
  intros Hf Hth Hp. eexists. split; [|split_and!].
  - eapply step_local; [done|simpl; eassumption|]. simpl. rewrite Hp. simpl. reflexivity.
  - done.
  - simpl. apply open_fresh.
  - simpl. apply empty_fresh.
  - simpl. unfold closed_at. by rewrite lookup_fresh.
Qed.

Arguments ready_at : simpl never.

Lemma ready_upd (h : heap) r c c' x :
  h !! r = Some c → ready_at (<[r := c']> h) x = true →
  ready_at h x = true ∨ (x = r ∧ ((0 <? buf c')%nat || closed c' = true)).
Proof.
  intros Hr. unfold ready_at. rewrite (at_upd _ _ _ Hr (λ d, (0 <? buf d)%nat || closed d)).
  case_decide; subst; auto.
Qed.

Lemma ready_same (h : heap) r c c' x :
  h !! r = Some c → (closed c' = closed c) → (buf c' ≤ buf c)%nat →
  ready_at (<[r := c']> h) x = true → ready_at h x = true.
Proof.
  intros Hr Hc Hb. unfold ready_at. rewrite (at_upd _ _ _ Hr (λ d, (0 <? buf d)%nat || closed d)).
  case_decide; subst; auto. rewrite Hr, Hc.
  intros [H|H]%orb_prop; apply orb_true_iff; [left|by right].
  apply Nat.ltb_lt in H. apply Nat.ltb_lt. lia.
Qed.

Lemma ready_alloc (h : heap) n x :
  ready_at (h ++ [make n]) x = true → ready_at h x = true.
Proof.
  unfold ready_at. destruct (decide (x < length h)%nat) as [Hlt|Hge].
  - by rewrite lookup_app_l.
  - rewrite lookup_app_r by lia. by destruct (x - length h)%nat.
Qed.

Lemma ready_provenance self a s s' r :
  step self a s = Some s' →
  ready_at (hp (shared s')) r = true →
  ready_at (hp (shared s)) r = true ∨
  ∃ i th, a = Tau i ∧ threads s !! i = Some th ∧ ch (cond (shared s)) = Some r ∧
          (at_pc th = InSignal S_select ∨ at_pc th = InBroadcast B_close).
Proof.
  intros Hs Hrdy.
  apply step_inv_local in Hs as (th & th' & Hth & Hloc & Hts & Hf).
  destruct s as [ts w], s' as [ts' w']; simpl in *; subst ts'.
  local_cases Hloc; unfold do_unlock in *; simpl in *; repeat case_match; simpl in *;
    try (by left);
    try (left; by eapply ready_alloc).
  all: try (match goal with H : chan_send _ = Some _ |- _ => apply send_facts in H as (? & ? & ? & ?) end).
  all: try (match goal with H : chan_recv _ = Some _ |- _ => apply recv_facts in H as (? & ? & ? & ?) end).
  all: try (left; eapply ready_same; eauto; done).
  all: eapply ready_upd in Hrdy as [?|[-> ?]]; eauto; right; eauto 10.
Qed.

Lemma guard_set self n s i th :
  reachable self n s → threads s !! i = Some th → guarded (at_pc th) = true →
  checker (cond (shared s)) = uintptr_of self.
Proof.
  intros [HT _]%inv1_reachable Hi Hp.
  pose proof (HT _ _ Hi) as (_ & _ & Hc & _). by apply Hc.
Qed.

Lemma guard_kept self a s s' :
  checker (cond (shared s)) = uintptr_of self → step self a s = Some s' →
  checker (cond (shared s')) = uintptr_of self.
Proof.
  intros Hc Hs.
  apply step_inv_local in Hs as (th & th' & Hth & Hloc & Hts & Hf).
  destruct s as [ts w], s' as [ts' w']; simpl in *; subst ts'.
  local_cases Hloc; fin.
Qed.

Lemma copy_detected self self' d i th o :
  self ≠ self' → checker (cond (shared d)) = uintptr_of self →
  fault (shared d) = None → threads d !! i = Some th → at_pc th = entry o →
  ∃ d', step self' (Tau i) d = Some d' ∧ fault (shared d') = Some copied_msg.
Proof.
  intros Hne Hc Hf Hth Hp.
  pose proof (check_copied _ _ Hne) as Hk.
  destruct o; (eexists; split;
    [ eapply step_local; [done|simpl; eassumption|];
      simpl; rewrite Hp; simpl; unfold do_check; rewrite Hc, Hk; reflexivity
    | done ]).
Qed.

Lemma select_enabled self s j th :
  fault (shared s) = None → threads s !! j = Some th →
  at_pc th = InWaitContext W_select → woken_by_close th (shared s) →
  ∃ s' th', step self (Select j CaseCh) s = Some s' ∧ threads s' !! j = Some th' ∧
            at_pc th' = InWaitContext W_relock ∧ err th' = None ∧ how th' = ByChannel.
Proof.
  intros Hf Hth Hp (r & Hl & Hc).
  unfold closed_at in Hc. destruct (hp (shared s) !! r) as [c|] eqn:Ec; [|done].
  assert (∃ c' ok, chan_recv c = Some (c', ok)) as (c' & ok & Er).
  { unfold chan_recv. rewrite Hc. destruct (buf c); eauto. }
  eexists _, _. split_and!.
  - eapply step_local; [done|simpl; eassumption|].
    simpl. rewrite Hp. simpl. rewrite Hl, Ec, Er. reflexivity.
  - simpl. eapply lookup_same; eassumption.
  - done.
  - done.
  - done.
Qed.

Lemma broadcast_wakes self n s0 b j thb thj tr s1 thb1 thj1 :
  Z.of_nat n ≤ max_int → reachable self n s0 → b ≠ j →
  threads s0 !! b = Some thb → at_pc thb = InBroadcast B_lock →
  threads s0 !! j = Some thj → waiting (at_pc thj) = true →
  forallb (no_call b) tr = true → forallb (no_call j) tr = true →
  run self (Tau b :: tr) s0 = Some s1 →
  threads s1 !! b = Some thb1 → at_pc thb1 = Idle →
  threads s1 !! j = Some thj1 →
  (parked (at_pc thj1) = true ∧ woken_by_close thj1 (shared s1)) ∨
  ((woken (at_pc thj1) = true ∨ at_pc thj1 = Idle) ∧
   (Done (ctx thj1) = false → how thj1 = ByChannel ∧ err thj1 = None)).
Proof.
  intros Hn Hr Hbj Hb Pb Hj Pj Nb Nj Hrun Hb1 Pb1 Hj1.
  pose proof (Inv_reachable _ _ _ Hn Hr) as HI.
  unfold run in Hrun. fold run in Hrun.
  destruct (step self (Tau b) s0) as [s|] eqn:Es; [|done].
  pose proof (served_start _ _ _ _ _ _ _ Hbj HI Hb Pb Hj Pj Es) as Hsv.
  pose proof (Inv_step _ _ _ _ HI Es) as HI'.
  pose proof (served_run _ _ _ _ _ _ Hbj HI' Hrun Nb Nj Hsv)
    as (thb' & thj' & Hb' & Hj' & Fb & Fj & Ho & Hcl).
  assert (thb' = thb1) as -> by congruence.
  assert (thj' = thj1) as -> by congruence.
  rewrite Pb1 in *. simpl in *. specialize (Hcl eq_refl).
  destruct (parked (at_pc thj1)) eqn:Hpk.
  - left. split; [done|]. by apply Hcl.
  - right. split.
    + unfold w_phase in Fj. destruct (at_pc thj1); [by right|left..];
        by rewrite Hpk in Fj.
    + intros Hd. destruct (Ho eq_refl) as [[? ?]|(? & ? & ?)]; [done|congruence].
Qed.

Lemma capture_open self n s j thj :
  Z.of_nat n ≤ max_int → reachable self n s →
  threads s !! j = Some thj → at_pc thj = InWaitContext W_capture →
  ∃ r, ch (cond (shared s)) = Some r ∧ open_at (hp (shared s)) r = true ∧
       closed_at (hp (shared s)) r = false.
Proof.
  intros Hn Hr Hj Pj.
  destruct (Inv_reachable _ _ _ Hn Hr) as (_ & _ & [HT3 _] & _).
  pose proof (HT3 _ _ Hj) as (I1 & _ & _ & I4 & _). rewrite Pj in *.
  specialize (I1 eq_refl). specialize (I4 eq_refl eq_refl).
  destruct (ch (cond (shared s))) as [r|] eqn:E; [|done].
  exists r. split_and!; try done; [by apply I4|].
  destruct (closed_at (hp (shared s)) r) eqn:Ec; [|done].
  by destruct (open_not_closed _ _ (I4 _ E) Ec).
Qed.

(** *** Whole calls *)

Lemma run_app self tr1 : ∀ tr2 s s1 s2,
  run self tr1 s = Some s1 → run self tr2 s1 = Some s2 → run self (tr1 ++ tr2) s = Some s2.
Proof.
  induction tr1 as [|a tr1 IH]; intros tr2 s s1 s2 H1 H2.
  - rewrite run_nil in H1. by simplify_eq.
  - unfold run in H1; fold run in H1. simpl.
    destruct (step self a s) as [s'|] eqn:E; [|done].
    eapply run_step; eauto.
Qed.

Lemma reachable_run self n tr s s' :
  reachable self n s → run self tr s = Some s' → reachable self n s'.
Proof. intros [tr0 H0] H. exists (tr0 ++ tr). eauto using run_app. Qed.

Lemma goto_idle th : at_pc th = Idle → goto th Idle = th.
Proof. destruct th; simpl; by intros ->. Qed.


Lemma call_checked self n s i th o :
  Z.of_nat n ≤ max_int → reachable self n s →
  threads s !! i = Some th → at_pc th = Idle →
  o = OpBroadcast ∨ o = OpSignal →
  run self [Call i o; Tau i] s =
  Some (State (<[i := goto th (match o with
                               | OpBroadcast => InBroadcast B_lock
                               | _ => InSignal S_lock
                               end)]> (threads s))
          (checked self (shared s))).
Proof.
  intros Hn Hr Hth Hp Ho.
  pose proof (no_panic _ _ _ Hn Hr) as Hf.
  apply inv1_reachable in Hr as [_ [_ Hc]]. apply check_ok in Hc.
  destruct s as [ts [[l m c k v] h o' f]]; simpl in *; subst.
  destruct Ho as [-> | ->].
  - tau_with ltac:(rewrite Hp).
    tau_with ltac:(unfold do_check; simpl; rewrite Hc).
    by rewrite run_nil.
  - tau_with ltac:(rewrite Hp).
    tau_with ltac:(unfold do_check; simpl; rewrite Hc).
    by rewrite run_nil.
Qed.

Lemma back_to_idle (ts : list thread) i th p :
  ts !! i = Some th → at_pc th = Idle →
  <[i := goto (goto th p) Idle]> (<[i := goto th p]> ts) = ts.
Proof.
  intros Hth Hp. rewrite insert_twice.
  replace (goto (goto th p) Idle) with th by (destruct th; simpl in *; by subst).
  by apply list_insert_id.
Qed.


Lemma signal_call_noop self n s i th :
  Z.of_nat n ≤ max_int → reachable self n s →
  threads s !! i = Some th → at_pc th = Idle →
  mtx (cond (shared s)) = None → waiters (cond (shared s)) = 0 →
  run self [Call i OpSignal; Tau i; Tau i; Tau i; Tau i] s =
  Some (State (threads s) (checked self (shared s))).
Proof.
  intros Hn Hr Hth Hp Hm Hw.
  pose proof (no_panic _ _ _ Hn Hr) as Hf.
  pose proof (call_checked _ _ _ _ _ OpSignal Hn Hr Hth Hp (or_intror eq_refl)) as H1.
  eapply (run_app _ [_; _] [_; _; _]); [exact H1|].
  erewrite signal_noop_no_waiters; simpl; eauto using lookup_same.
  by erewrite back_to_idle.
Qed.


Lemma capture_fresh self n s j thj :
  Z.of_nat n ≤ max_int → reachable self n s →
  threads s !! j = Some thj → at_pc thj = InWaitContext W_capture →
  waiters (cond (shared s)) = 0 →
  ∃ r, ch (cond (shared s)) = Some r ∧ ready_at (hp (shared s)) r = false.
Proof.
  intros Hn Hr Hj Pj Hw.
  destruct (Inv_reachable _ _ _ Hn Hr) as (_ & _ & [HT3 _] & _).
  pose proof (HT3 _ _ Hj) as (I1 & _ & _ & I4 & _ & I6 & _). rewrite Pj in *.
  specialize (I1 eq_refl). specialize (I4 eq_refl eq_refl). specialize (I6 eq_refl Hw).
  destruct (ch (cond (shared s))) as [r|] eqn:E; [|done].
  exists r. split; [done|].
  specialize (I4 _ E). specialize (I6 _ E).
  unfold ready_at, open_at, empty_at in *.
  destruct (hp (shared s) !! r) as [c|]; [|done].
  apply Nat.eqb_eq in I6. rewrite I6. by destruct (closed c).
Qed.

Lemma capture_step self s j thj :
  fault (shared s) = None → threads s !! j = Some thj →
  at_pc thj = InWaitContext W_capture →
  step self (Tau j) s =
  Some (State (<[j := Thread (InWaitContext W_incr) (ctx thj) (ch (cond (shared s)))
                         (err thj) (how thj)]> (threads s)) (shared s)).
Proof.
  intros Hf Hth Hp. eapply step_local; [done|simpl; eassumption|]. simpl. by rewrite Hp.
Qed.

Lemma channel_before_incr self n s j thj :
  Z.of_nat n ≤ max_int → reachable self n s →
  threads s !! j = Some thj → at_pc thj = InWaitContext W_incr →
  ch (cond (shared s)) ≠ None.
Proof.
  intros Hn Hr Hj Pj.
  destruct (Inv_reachable _ _ _ Hn Hr) as (_ & _ & [HT3 _] & _).
  pose proof (HT3 _ _ Hj) as (I1 & _). rewrite Pj in I1. by apply I1.
Qed.

Lemma registered_none (ts : list thread) :
  (∀ i th, ts !! i = Some th → counted (at_pc th) = false) → registered ts = 0%nat.
Proof.
  induction ts as [|th ts IH]; intros H; simpl; [done|].
  rewrite IH by (intros i th' Hi; apply (H (S i) th' Hi)).
  unfold weight. by rewrite (H 0%nat th eq_refl).
Qed.

Lemma halted self a s msg : fault (shared s) = Some msg → step self a s = None.
Proof. intros H. unfold step. by rewrite H. Qed.

End TokenFacts.

(** ** The variant guarded by [mtxCh] *)
Module DelegFacts.
Import DelegCond.

Arguments unbuffered_at : simpl never.

Lemma unbuffered_upd (h : heap) r c c' x :
  h !! r = Some c → cap c' = cap c →
  unbuffered_at h x = true → unbuffered_at (<[r := c']> h) x = true.
Proof.
  intros Hr E. unfold unbuffered_at. rewrite (at_upd _ _ _ Hr (λ d, Nat.eqb (cap d) 0)).
  case_decide; subst; rewrite ?Hr, ?E; done.
Qed.
Lemma unbuffered_alloc (h : heap) c x :
  unbuffered_at h x = true → unbuffered_at (h ++ [c]) x = true.
Proof.
  unfold unbuffered_at. destruct (h !! x) as [d|] eqn:E; [|done].
  by rewrite (lookup_app_l_Some _ _ _ _ E).
Qed.
Lemma unbuffered_fresh (h : heap) : unbuffered_at (h ++ [make 0]) (length h) = true.
Proof. unfold unbuffered_at. by rewrite lookup_fresh. Qed.
Lemma within_cap_upd (h : heap) (r : nat) (c' : chan) :
  Forall within_cap h → within_cap c' → Forall within_cap (<[r := c']> h).
Proof. intros. by apply Forall_insert. Qed.
Lemma within_cap_alloc (h : heap) n : Forall within_cap h → Forall within_cap (h ++ [make n]).
Proof. intros. apply Forall_app; split; [done|]. repeat constructor. unfold within_cap; simpl; lia. Qed.
Lemma within_cap_lookup (h : heap) r c : Forall within_cap h → h !! r = Some c → within_cap c.
Proof. intros H ?. eapply Forall_lookup_1 in H; eauto. Qed.
Lemma open_fresh_ne (h : heap) m : open_at h m = true → length h ≠ m.
Proof. intros [d Hd%lookup_lt_Some]%open_lookup. lia. Qed.


Lemma deleg_registered_insert (ts : list thread) i th th' :
  ts !! i = Some th →
  (registered (<[i := th']> ts) + weight th = registered ts + weight th')%nat.
Proof.
  revert i. induction ts as [|t ts IH]; intros [|i] H; simplify_eq/=; try lia.
  specialize (IH _ H). lia.
Qed.
Lemma deleg_registered_idle n : registered (replicate n idle) = 0%nat.
Proof. induction n; simpl; auto. Qed.
Lemma weight_le th : (weight th ≤ 1)%nat.
Proof. unfold weight. repeat case_match; lia. Qed.
Lemma deleg_registered_le (ts : list thread) : (registered ts ≤ length ts)%nat.
Proof. induction ts as [|t ts IH]; simpl; [lia|]. pose proof (weight_le t). lia. Qed.

Lemma step_stepped self a s s' :
  step self a s = Some s' → fault (shared s) = None ∧ stepped self s s' a.
Proof.
  unfold step, solo, duo. intros H.
  destruct (fault (shared s)) eqn:Hf; [done|]. split; [done|].
  destruct a; repeat case_match; simplify_eq/=;
    first [ by eapply stepped_solo; eauto
          | by eapply (stepped_duo _ _ _ _ deliver); eauto
          | by eapply (stepped_duo _ _ _ _ delegate); eauto ].
Qed.

Lemma deleg_all_threads_step (T : nat → thread → world → Prop) (ts : list thread) w i th th' w' :
  (∀ j thj, ts !! j = Some thj → T j thj w) →
  ts !! i = Some th →
  T i th' w' →
  (∀ j thj, j ≠ i → ts !! j = Some thj → T j thj w → T j thj w') →
  ∀ j thj, <[i := th']> ts !! j = Some thj → T j thj w'.
Proof.
  intros Hall Hi Hnew Hframe j thj Hj.
  destruct (decide (j = i)) as [->|Hne].
  - rewrite list_lookup_insert_eq in Hj by (by eapply lookup_lt_Some). by simplify_eq.
  - rewrite list_lookup_insert_ne in Hj by done. eauto.
Qed.

Lemma all_threads_duo (T : nat → thread → world → Prop) (ts : list thread) w i j sg wt sg' wt' :
  (∀ k thk, ts !! k = Some thk → T k thk w) →
  i ≠ j → ts !! i = Some sg → ts !! j = Some wt →
  T i sg' w → T j wt' w →
  ∀ k thk, <[j := wt']> (<[i := sg']> ts) !! k = Some thk → T k thk w.
Proof.
  intros Hall Hij Hi Hj Hsg Hwt k thk Hk.
  apply list_lookup_insert_Some in Hk as [(<- & <- & _)|(Hnj & Hk)]; [done|].
  apply list_lookup_insert_Some in Hk as [(<- & <- & _)|(Hni & Hk)]; [done|].
  eauto.
Qed.

Ltac local_cases H :=
  unfold local, call, Broadcast, Signal, WaitContext, WaitContext_select,
    moved, continue, checks, send_on, recv_on, alloc in H;
  repeat (case_match; simplify_eq/=).

Ltac duo_cases H :=
  unfold deliver, delegate in H;
  repeat (case_match; simplify_eq/=).

Lemma holders_insert (ts : list thread) i th th' :
  ts !! i = Some th →
  (holders (<[i := th']> ts) + hweight th = holders ts + hweight th')%nat.
Proof.
  revert i. induction ts as [|t ts IH]; intros [|i] H; simplify_eq/=; try lia.
  specialize (IH _ H). lia.
Qed.
Lemma holders_idle n : holders (replicate n idle) = 0%nat.
Proof. induction n; simpl; auto. Qed.
Lemma holders_pos (ts : list thread) i th :
  ts !! i = Some th → holder th = true → (1 ≤ holders ts)%nat.
Proof.
  revert i. induction ts as [|t ts IH]; intros [|i] H Hc; simplify_eq/=.
  - unfold hweight. rewrite Hc. lia.
  - specialize (IH _ H Hc). lia.
Qed.
Lemma holders_ge (ts : list thread) i th :
  ts !! i = Some th → (hweight th ≤ holders ts)%nat.
Proof.
  revert i. induction ts as [|t ts IH]; intros [|i] H; simplify_eq/=; [lia|].
  specialize (IH _ H). lia.
Qed.
Lemma holders_two (ts : list thread) i j thi thj :
  i ≠ j → ts !! i = Some thi → ts !! j = Some thj →
  holder thi = true → holder thj = true → (2 ≤ holders ts)%nat.
Proof.
  revert i j. induction ts as [|t ts IH]; intros [|i] [|j] Hne Hi Hj Pi Pj; simplify_eq/=.
  - pose proof (holders_pos _ _ _ Hj Pj). unfold hweight. rewrite Pi. lia.
  - pose proof (holders_pos _ _ _ Hi Pi). unfold hweight. rewrite Pj. lia.
  - assert (i ≠ j) by congruence. specialize (IH _ _ H Hi Hj Pi Pj). lia.
Qed.
Lemma holder_of_make th : at_make (at_pc th) = true → holder th = true.
Proof. unfold holder. by destruct (at_pc th) as [|[]|[]|[]]. Qed.

Lemma recv_unbuffered c c' ok :
  chan_recv c = Some (c', ok) → within_cap c → cap c = 0%nat → c' = c ∧ ok = false.
Proof.
  unfold chan_recv, within_cap. destruct c as [k [|n] cl]; simpl; intros; repeat case_match; simplify_eq/=; try done; lia.
Qed.
Lemma unbuffered_elim (h : heap) r c : h !! r = Some c → unbuffered_at h r = true → cap c = 0%nat.
Proof. unfold unbuffered_at. intros ->. by intros ?%Nat.eqb_eq. Qed.

Lemma holder_unfold th :
  holder th =
  match at_pc th with
  | InBroadcast (B_if | B_close | B_make | B_unlock)
  | InSignal (S_for | S_select | S_lower | S_unlock)
  | InWaitContext (W_capture | W_incr | W_unlock | W_decr | W_unlock2) => true
  | InWaitContext W_ifsig => signalled th
  | InWaitContext W_ifdeleg => negb (loweringDelegated th)
  | _ => false
  end.
Proof. reflexivity. Qed.

Ltac learn H := 
  let T := type of H in
  lazymatch goal with
  | _ : T |- _ => fail
  | _ => pose proof H
  end.

Ltac tidy :=
  repeat match goal with
  | |- context [holder (Thread ?a ?b ?c ?d ?e ?f ?g)] =>
      rewrite (holder_unfold (Thread a b c d e f g)); simpl
  | H : context [holder (Thread ?a ?b ?c ?d ?e ?f ?g)] |- _ =>
      rewrite (holder_unfold (Thread a b c d e f g)) in H; simpl in H
  | |- context [holder (goto ?t ?p)] => rewrite (holder_unfold (goto t p)); simpl
  | H : context [holder (goto ?t ?p)] |- _ =>
      rewrite (holder_unfold (goto t p)) in H; simpl in H
  | H : at_pc ?t = _ |- context [holder ?t] => rewrite (holder_unfold t), H
  | H : at_pc ?t = _, H' : context [holder ?t] |- _ =>
      rewrite (holder_unfold t), H in H'
  | H : at_pc ?t = _ |- context [at_pc ?t] => rewrite H
  | H : at_pc ?t = _, H' : context [at_pc ?t] |- _ =>
      lazymatch H' with H => fail | _ => rewrite H in H' end
  | H : ctx ?t = _ |- context [ctx ?t] => rewrite H
  | H : ctx ?t = _, H' : context [ctx ?t] |- _ =>
      lazymatch H' with H => fail | _ => rewrite H in H' end
  | H : loweringDelegated ?t = _ |- context [loweringDelegated ?t] => rewrite H
  | H : loweringDelegated ?t = _, H' : context [loweringDelegated ?t] |- _ =>
      lazymatch H' with H => fail | _ => rewrite H in H' end
  | H : signalled ?t = _ |- context [signalled ?t] => rewrite H
  | H : signalled ?t = _, H' : context [signalled ?t] |- _ =>
      lazymatch H' with H => fail | _ => rewrite H in H' end
  | H : check _ _ = Some _ |- _ => apply check_cases in H
  | H : ?x = ?x → _ |- _ => specialize (H eq_refl)
  | H : false = true → _ |- _ => clear H
  | H : true = false → _ |- _ => clear H
  | H : _ ∧ _ |- _ => destruct H
  | H : ?P → _, H' : ?P |- _ =>
      match type of P with Prop => specialize (H H') end
  | H : Some _ = Some _ |- _ => injection H as H; try subst
  | H : Some _ = None |- _ => discriminate H
  | H : None = Some _ |- _ => discriminate H
  | H : true = false |- _ => discriminate H
  | H : false = true |- _ => discriminate H
  | H : ?x ≠ ?x |- _ => destruct (H eq_refl)
  | H : False |- _ => destruct H
  | |- true = true → _ => intros _
  | |- false = false → _ => intros _
  | |- false = true → _ => intros ?; discriminate
  | |- true = false → _ => intros ?; discriminate
  | |- _ ∧ _ => split
  | _ => progress simpl in *
  end.

Ltac opened :=
  repeat match goal with
  | H : ∃ _, _ |- _ => destruct H
  | H : _ ∧ _ |- _ => destruct H
  | H : _ ∨ _ |- _ => destruct H
  | H1 : ?x = Some ?a, H2 : ?x = Some ?b |- _ =>
      lazymatch a with
      | b => fail
      | _ => assert (a = b) by congruence; first [subst a | subst b]
      end
  end.

Ltac facts :=
  opened; tidy;
  repeat match goal with
  | I : (∀ r : nat, ?c = Some r → open_at ?h r = true), E : ?c = Some ?x |- _ => learn (I x E)
  | H : at_make (at_pc ?t) = true |- _ => learn (holder_of_make _ H)
  | G : Forall within_cap ?h, H : ?h !! _ = Some ?c |- _ => learn (within_cap_lookup _ _ _ G H)
  | H : ?h !! ?r = Some ?c, U : unbuffered_at ?h ?r = true |- _ => learn (unbuffered_elim _ _ _ H U)
  | H : ?h !! ?r = Some ?c, U : open_at ?h ?r = true |- _ => learn (open_elim _ _ _ H U)
  end;
  repeat match goal with
  | H : chan_recv ?c = Some _, E : closed ?c = false |- _ => learn (recv_open _ _ _ H E)
  | H : chan_recv ?c = Some _, W : within_cap ?c, E : cap ?c = 0%nat |- _ =>
      learn (recv_unbuffered _ _ _ H W E)
  | H : chan_send ?c = Some _, W : within_cap ?c, E : cap ?c = 1%nat |- _ =>
      learn (send_one _ _ H E)
  end;
  repeat match goal with
  | H : chan_recv _ = Some _ |- _ => apply recv_facts in H; destruct H as (? & ? & ? & ?)
  | H : chan_recv _ = None |- _ => apply recv_none in H as [? ?]
  | H : chan_send _ = Some _ |- _ => apply send_facts in H as (? & ? & ? & ?)
  | H : chan_send _ = None |- _ => apply send_none in H
  | H : (_ =? _) = true |- _ => apply Z.eqb_eq in H
  | H : (_ =? _) = false |- _ => apply Z.eqb_neq in H
  | H : (_ <? _) = true |- _ => apply Z.ltb_lt in H
  | H : (_ <? _) = false |- _ => apply Z.ltb_ge in H
  | H : within_cap _ |- _ => unfold within_cap in H
  end;
  opened;
  repeat match goal with
  | H : ?n = 0%nat → _ |- _ =>
      let E := fresh in assert (E : n = 0%nat) by lia; specialize (H E)
  end.

Ltac heap_step :=
  lazymatch goal with
  | |- closed_at (<[_ := _]> _) _ = true =>
      first [ eapply closed_upd_close; eassumption
            | eapply closed_upd_mono; [eassumption | simpl; congruence |] ]
  | |- open_at (<[_ := _]> _) _ = true =>
      first [ eapply open_upd_keep; [eassumption | simpl; congruence |]
            | eapply open_upd_other; [congruence |] ]
  | |- unbuffered_at (<[_ := _]> _) _ = true =>
      eapply unbuffered_upd; [eassumption | simpl; congruence |]
  | |- closed_at (_ ++ _) _ = true => apply closed_alloc
  | |- open_at (_ ++ _) _ = true => first [apply open_fresh | apply open_alloc]
  | |- unbuffered_at (_ ++ _) _ = true => first [apply unbuffered_fresh | apply unbuffered_alloc]
  | |- Forall within_cap (<[_ := _]> _) =>
      apply within_cap_upd; [assumption | unfold within_cap in *; simpl; lia]
  | |- Forall within_cap (_ ++ _) => apply within_cap_alloc
  | |- <[?n := _]> _ !! ?n = Some _ =>
      apply list_lookup_insert_eq; eapply lookup_lt_Some; eassumption
  | |- <[_ := _]> _ !! _ = Some _ =>
      rewrite list_lookup_insert_ne by congruence
  | |- (_ ++ _) !! _ = Some _ => apply lookup_app_l_Some
  | |- Some (length _) ≠ Some _ =>
      let E := fresh in intros E; injection E as E; lia
  end.

Ltac hs :=
  first
  [ eassumption | reflexivity | congruence | lia | solve [eauto 3]
  | lazymatch goal with
    | |- ∀ _, _ => intros; tidy; hs
    | |- _ ∧ _ => split; hs
    | |- ∃ _, _ => eexists; hs
    | |- _ ∨ _ => first [left; hs | right; hs]
    | |- open_at _ _ = true =>
        first [ heap_step; hs | eapply open_intro; [eassumption | congruence] ]
    | |- closed_at _ _ = true =>
        first [ heap_step; hs | eapply closed_intro; [eassumption | congruence] ]
    | |- _ => heap_step; hs
    end ].

Ltac quick := try done; try congruence; try lia; try (rewrite int_wrap_id; lia).

Ltac fin :=
  unfold outcome_ok, ch_open, ch_closed in *;
  tidy; repeat case_match; tidy; intros; tidy; quick;
  facts; tidy; quick; try (solve [hs]).

Lemma tinv_step self a s s' :
  Inv self s → step self a s = Some s' → all_threads (tinv self) s' ∧ ginv self (shared s').
Proof.
  intros (HT & (HL & HG & HU & HC) & ((m & cm & Hm & Hcm & Cap & Opn & Buf & Hne) & Hfree) & _)
    [Hf Hs]%step_stepped.
  destruct s as [ts w], s' as [ts' w']; simpl in *.
  destruct Hs as [a i th th' Hm' Hth Hloc Hts|a f i j sg wt sg' wt' Hm' Hij Hf' Hi Hj Hduo Hts Hw];
    simpl in *; subst.
  - pose proof (HT _ _ Hth) as (I1 & I2 & I3 & I4 & I5 & I6 & I7 & I8).
    pose proof (within_cap_lookup _ _ _ HC Hcm) as Wcm.
    assert (Hex : ∀ j thj, j ≠ i → ts !! j = Some thj →
                  holder th = true → holder thj = true → False).
    { intros j thj Hne' Hj Pi Pj.
      pose proof (holders_two _ _ _ _ _ Hne' Hj Hth Pj Pi). unfold within_cap in Wcm. lia. }
    assert (Hnone : ∀ j thj, ts !! j = Some thj → buf cm = 0%nat → holder thj = true → False).
    { intros j thj Hj Hz Pj. pose proof (holders_pos _ _ _ Hj Pj). lia. }
    assert (Hfree' : buf cm = 0%nat → ch_open w) by (intros; apply Hfree; lia).
    clear Buf Hfree.
    destruct a; simpl in Hm'; simplify_eq; local_cases Hloc.
    all: split;
      [ refine (deleg_all_threads_step _ _ _ _ _ _ _ HT Hth _ _);
        [ clear HT Hex Hnone; unfold tinv in *
        | intros j thj Hne' Hj (J1 & J2 & J3 & J4 & J5 & J6 & J7 & J8);
          specialize (Hex _ _ Hne' Hj); specialize (Hnone _ _ Hj);
          clear HT; unfold tinv in * ]
      | clear HT Hex Hnone; unfold ginv in * ].
    all: solve [fin].
  - pose proof (HT _ _ Hi) as (I1 & I2 & I3 & I4 & I5 & I6 & I7 & I8).
    pose proof (HT _ _ Hj) as (J1 & J2 & J3 & J4 & J5 & J6 & J7 & J8).
    split; [|done].
    refine (all_threads_duo _ _ _ _ _ _ _ _ _ HT Hij Hi Hj _ _);
      clear HT; unfold tinv in *;
      destruct Hf' as [-> | ->]; duo_cases Hduo; solve [fin].
Qed.

Lemma minv_step self a s s' : Inv self s → step self a s = Some s' → minv s'.
Proof.
  intros (HT & (HL & HG & HU & HC) & ((m & cm & Hm & Hcm & Cap & Opn & Buf & Hne) & Hfree) & _)
    [Hf Hs]%step_stepped.
  destruct s as [ts w], s' as [ts' w']; simpl in *.
  pose proof (within_cap_lookup _ _ _ HC Hcm) as Wcm.
  pose proof (lookup_lt_Some _ _ _ Hcm) as Hlt.
  destruct Hs as [a i th th' Hm' Hth Hloc Hts|a f i j sg wt sg' wt' Hm' Hij Hf' Hi Hj Hduo Hts Hw];
    simpl in *; subst.
  - pose proof (HT _ _ Hth) as (I1 & I2 & I3 & I4 & I5 & I6 & I7 & I8).
    pose proof (holders_insert ts _ th th' Hth) as Hh.
    pose proof (holders_ge ts _ th Hth) as Hge.
    assert (Hge' : (hweight th' ≤ holders (<[i := th']> ts))%nat).
    { eapply holders_ge, list_lookup_insert_eq. by eapply lookup_lt_Some. }
    clear HT. unfold minv; simpl.
    destruct a; simpl in Hm'; simplify_eq; local_cases Hloc.
    all: unfold hweight in Hh, Hge, Hge'.
    all: solve [fin].
  - pose proof (HT _ _ Hi) as (I1 & I2 & I3 & I4 & I5 & I6 & I7 & I8).
    pose proof (HT _ _ Hj) as (J1 & J2 & J3 & J4 & J5 & J6 & J7 & J8).
    assert (Hj' : <[i := sg']> ts !! j = Some wt) by (by rewrite list_lookup_insert_ne).
    pose proof (holders_insert ts _ sg sg' Hi) as Hh1.
    pose proof (holders_insert _ _ wt wt' Hj') as Hh2.
    clear HT. unfold minv; simpl.
    destruct Hf' as [-> | ->]; duo_cases Hduo; unfold hweight in *.
    all: solve [fin].
Qed.

Lemma deleg_safe_step self a s s' : Inv self s → step self a s = Some s' → safe s'.
Proof.
  intros (HT & (HL & HG & HU & HC) & ((m & cm & Hm & Hcm & Cap & Opn & Buf & Hne) & Hfree) & _)
    [Hf Hs]%step_stepped.
  destruct s as [ts w], s' as [ts' w']; simpl in *. unfold safe; simpl.
  destruct Hs as [a i th th' Hm' Hth Hloc Hts|a f i j sg wt sg' wt' Hm' Hij Hf' Hi Hj Hduo Hts Hw];
    simpl in *; subst; [|done].
  pose proof (HT _ _ Hth) as (I1 & I2 & I3 & I4 & I5 & I6 & I7 & I8).
  pose proof (check_ok self _ HG) as Hchk.
  clear HT Hfree Buf.
  destruct a; simpl in Hm'; simplify_eq; local_cases Hloc.
  all: solve [fin].
Qed.

Lemma counts_step self a s s' : Inv self s → counts s → step self a s = Some s' → counts s'.
Proof.
  intros (HT & _) [HW Hlen] [Hf Hs]%step_stepped.
  destruct s as [ts w], s' as [ts' w']; simpl in *.
  destruct Hs as [a i th th' Hm' Hth Hloc Hts|a f i j sg wt sg' wt' Hm' Hij Hf' Hi Hj Hduo Hts Hw];
    simpl in *; subst.
  - pose proof (HT _ _ Hth) as (I1 & I2 & I3 & I4 & _).
    pose proof (deleg_registered_insert ts _ th th' Hth) as Hreg.
    pose proof (deleg_registered_le (<[i := th']> ts)) as Hle.
    rewrite length_insert in Hle. clear HT.
    unfold counts; simpl. rewrite length_insert. split; [|done].
    destruct a; simpl in Hm'; simplify_eq; local_cases Hloc; unfold weight in *; solve [fin].
  - pose proof (HT _ _ Hi) as (I1 & I2 & I3 & I4 & _).
    pose proof (HT _ _ Hj) as (J1 & J2 & J3 & J4 & _).
    assert (Hj' : <[i := sg']> ts !! j = Some wt) by (by rewrite list_lookup_insert_ne).
    pose proof (deleg_registered_insert ts _ sg sg' Hi) as Hreg1.
    pose proof (deleg_registered_insert _ _ wt wt' Hj') as Hreg2.
    clear HT. unfold counts; simpl. rewrite !length_insert. split; [|done].
    destruct Hf' as [-> | ->]; duo_cases Hduo; unfold weight in *; solve [fin].
Qed.

Lemma deleg_Inv_step self a s s' : Inv self s → step self a s = Some s' → Inv self s'.
Proof.
  intros HI Hs. unfold Inv.
  pose proof (tinv_step _ _ _ _ HI Hs) as [? ?].
  split_and!; eauto using minv_step, deleg_safe_step.
Qed.

Lemma NewCond_eq l (h : heap) :
  NewCond l h = (mkCond l (Some (length h)) (Some (S (length h))) 0 (Some (S (S (length h)))) 0,
                 h ++ [make 1; make 0; make 0]).
Proof.
  unfold NewCond, alloc. rewrite !length_app. simpl.
  rewrite <- !app_assoc. simpl. repeat f_equal; lia.
Qed.

Lemma deleg_Inv_init self n : Inv self (init (NewCond true []) n).
Proof.
  unfold Inv, init.
  assert (Hidle : ∀ j thj, replicate n idle !! j = Some thj → thj = idle).
  { intros j thj [-> _]%lookup_replicate. done. }
  split_and!.
  - intros j thj ->%Hidle. repeat split; simpl; done.
  - repeat split; simpl; auto.
    + exists 1%nat. repeat split; done.
    + repeat constructor; unfold within_cap; simpl; lia.
  - split; simpl.
    + exists 0%nat, (make 1). rewrite holders_idle. repeat split; done.
    + intros _ r [= <-]. done.
  - done.
Qed.

Lemma counts_init n : Z.of_nat n ≤ max_int → counts (init (NewCond true []) n).
Proof.
  intros Hn. split; simpl; [by rewrite deleg_registered_idle | by rewrite length_replicate].
Qed.

Lemma deleg_Inv_run self tr : ∀ s s', Inv self s → run self tr s = Some s' → Inv self s'.
Proof.
  induction tr as [|a tr IH]; intros s s' HI Hr; simpl in Hr.
  - by simplify_eq.
  - destruct (step self a s) as [s1|] eqn:E; [|done].
    eauto using deleg_Inv_step.
Qed.

Lemma counts_run self tr : ∀ s s',
  Inv self s → counts s → run self tr s = Some s' → counts s'.
Proof.
  induction tr as [|a tr IH]; intros s s' HI HC Hr; simpl in Hr.
  - by simplify_eq.
  - destruct (step self a s) as [s1|] eqn:E; [|done].
    eauto using deleg_Inv_step, counts_step.
Qed.

Lemma deleg_Inv_reachable self n s : reachable self n s → Inv self s.
Proof. intros [tr Hr]. eauto using deleg_Inv_run, deleg_Inv_init. Qed.

Lemma counts_reachable self n s :
  Z.of_nat n ≤ max_int → reachable self n s → counts s.
Proof. intros Hn [tr Hr]. eauto using counts_run, deleg_Inv_init, counts_init. Qed.

(** *** What the operations do *)

Lemma deleg_no_panic self n s : reachable self n s → fault (shared s) = None.
Proof. intros Hr. by destruct (deleg_Inv_reachable _ _ _ Hr) as (_ & _ & _ & ?). Qed.

Lemma deleg_lock_held_on_return self n s a s' i p th th' :
  reachable self n s → step self a s = Some s' →
  threads s !! i = Some th → at_pc th = InWaitContext p →
  threads s' !! i = Some th' → at_pc th' = Idle →
  Lk (shared s') = Some i.
Proof.
  intros (HT & _)%deleg_Inv_reachable [Hf Hs]%step_stepped Hi Hp Hi' Hp'.
  destruct s as [ts w], s' as [ts' w']; simpl in *.
  destruct Hs as [a k th0 th1 Hm Hth Hloc Hts|a f k j sg wt sg' wt' Hm Hkj Hf' Hk Hj Hduo Hts Hw];
    simpl in *; subst.
  - apply list_lookup_insert_Some in Hi' as [(<- & <- & _)|(Hne & Hi')]; [|congruence].
    assert (th0 = th) as -> by congruence.
    pose proof (HT _ _ Hth) as (HL & _). clear HT.
    destruct a; simpl in Hm; simplify_eq; local_cases Hloc; fin.
  - apply list_lookup_insert_Some in Hi' as [(<- & <- & _)|(Hne & Hi')].
    { assert (wt = th) as -> by congruence.
      destruct Hf' as [-> | ->]; duo_cases Hduo; fin. }
    apply list_lookup_insert_Some in Hi' as [(<- & <- & _)|(Hne' & Hi')]; [|congruence].
    assert (sg = th) as -> by congruence.
    destruct Hf' as [-> | ->]; duo_cases Hduo; fin.
Qed.

Lemma deleg_lock_held_at_return self n s i th :
  reachable self n s → threads s !! i = Some th →
  at_pc th = InWaitContext W_ret → Lk (shared s) = Some i.
Proof.
  intros (HT & _)%deleg_Inv_reachable Hi Hp.
  pose proof (HT _ _ Hi) as (HL & _). rewrite Hp in HL. by apply HL.
Qed.

Lemma deleg_outcome_at_return self n s i th :
  reachable self n s → threads s !! i = Some th → at_pc th = InWaitContext W_ret →
  (err th = None ↔ how th = ByChannel) ∧
  (how th = ByCancel ↔ ∃ e, err th = Some e ∧ Err (ctx th) = Some e).
Proof.
  intros (HT & _)%deleg_Inv_reachable Hi Hp.
  pose proof (HT _ _ Hi) as (_ & _ & Ho & _). rewrite Hp in Ho.
  destruct (Ho eq_refl) as [[E1 E2]|(E1 & E2 & E3)].
  - rewrite E1, E2. split; [done|]. split; [done|]. by intros (e & ? & _).
  - destruct (Done_Err _ E2) as [e He]. rewrite E1, E3, He.
    split; [split; done|]. split; eauto.
Qed.

Lemma deleg_waiters_counts self n s :
  Z.of_nat n ≤ max_int → reachable self n s →
  waiters (cond (shared s)) = Z.of_nat (registered (threads s)) ∧
  0 ≤ waiters (cond (shared s)).
Proof. intros Hn Hr. destruct (counts_reachable _ _ _ Hn Hr) as [HW _]. lia. Qed.

Lemma deleg_guard_set self n s i th :
  reachable self n s → threads s !! i = Some th → guarded (at_pc th) = true →
  checker (cond (shared s)) = uintptr_of self.
Proof.
  intros (HT & _)%deleg_Inv_reachable Hi Hp.
  pose proof (HT _ _ Hi) as (_ & Hc & _). by apply Hc.
Qed.

Lemma deleg_guard_kept self a s s' :
  checker (cond (shared s)) = uintptr_of self → step self a s = Some s' →
  checker (cond (shared s')) = uintptr_of self.
Proof.
  intros Hc [Hf Hs]%step_stepped.
  destruct s as [ts w], s' as [ts' w']; simpl in *.
  destruct Hs as [a k th0 th1 Hm Hth Hloc Hts|a f k j sg wt sg' wt' Hm Hkj Hf' Hk Hj Hduo Hts Hw];
    simpl in *; subst; [|done].
  destruct a; simpl in Hm; simplify_eq; local_cases Hloc; fin.
Qed.

Lemma step_tau self s i th th' w' :
  fault (shared s) = None → threads s !! i = Some th →
  local self i (Tau i) th (shared s) = Some (th', w') →
  step self (Tau i) s = Some (State (<[i := th']> (threads s)) w').
Proof. intros Hf Hth Hl. unfold step, solo. by rewrite Hf, Hth, Hl. Qed.

Lemma deleg_copy_detected self self' d i th o :
  self ≠ self' → checker (cond (shared d)) = uintptr_of self →
  mtxCh (cond (shared d)) ≠ None →
  fault (shared d) = None → threads d !! i = Some th → at_pc th = entry o →
  ∃ d', step self' (Tau i) d = Some d' ∧ fault (shared d') = Some copied_msg.
Proof.
  intros Hne Hc Hm Hf Hth Hp.
  pose proof (check_copied _ _ Hne) as Hk.
  destruct (mtxCh (cond (shared d))) as [m|] eqn:Em; [|done].
  destruct o; (eexists; split;
    [ eapply step_tau; [done|eassumption|];
      simpl; rewrite Hp; simpl; unfold checks; rewrite Em, Hc, Hk; reflexivity
    | done ]).
Qed.

Lemma zero_value_rejected self l d i th o :
  cond (shared d) = zero_value l →
  fault (shared d) = None → threads d !! i = Some th → at_pc th = entry o →
  ∃ d', step self (Tau i) d = Some d' ∧ fault (shared d') = Some uninit_msg.
Proof.
  intros Hz Hf Hth Hp.
  destruct o; (eexists; split;
    [ eapply step_tau; [done|eassumption|];
      simpl; rewrite Hp; simpl; unfold checks; rewrite Hz; reflexivity
    | done ]).
Qed.

Lemma no_pending_token self n s r c :
  reachable self n s → ch (cond (shared s)) = Some r →
  hp (shared s) !! r = Some c → buf c = 0%nat.
Proof.
  intros (_ & (_ & _ & (r' & Hr' & Hu) & HC) & _)%deleg_Inv_reachable Hch Hc.
  assert (r' = r) as -> by congruence.
  pose proof (unbuffered_elim _ _ _ Hc Hu). pose proof (within_cap_lookup _ _ _ HC Hc) as Hw.
  unfold within_cap in Hw. lia.
Qed.

Lemma signal_blocks self n s i th :
  reachable self n s → threads s !! i = Some th → at_pc th = InSignal S_select →
  step self (Tau i) s = None.
Proof.
  intros (HT & (_ & _ & (r & Hr & Hu) & _) & _ & Hf)%deleg_Inv_reachable Hth Hp.
  pose proof (HT _ _ Hth) as (_ & _ & _ & _ & _ & _ & _ & I8).
  rewrite holder_unfold, Hp in I8. specialize (I8 eq_refl eq_refl _ Hr).
  pose proof (open_lookup _ _ I8) as [c Hc].
  pose proof (open_elim _ _ _ Hc I8) as Hcl.
  unfold step, solo. rewrite Hf, Hth. simpl. rewrite Hp. simpl.
  by rewrite Hr, Hc, Hcl.
Qed.

Lemma signal_needs_partner self n s a s' i th th' :
  reachable self n s → threads s !! i = Some th → at_pc th = InSignal S_select →
  step self a s = Some s' → threads s' !! i = Some th' →
  at_pc th' ≠ InSignal S_select →
  ∃ j, a = Deliver i j ∨ a = Delegate i j.
Proof.
  intros Hr Hth Hp Hs Hth' Hp'.
  pose proof (signal_blocks _ _ _ _ _ Hr Hth Hp) as Hb.
  pose proof Hs as [Hf Hst]%step_stepped.
  destruct s as [ts w], s' as [ts' w']; simpl in *.
  destruct Hst as [a k th0 th1 Hm Hk Hloc Hts|a f k j sg wt sg' wt' Hm Hkj Hf' Hk Hj Hduo Hts Hw];
    simpl in *; subst.
  - apply list_lookup_insert_Some in Hth' as [(<- & <- & _)|(Hne & Hi')]; [|congruence].
    assert (th0 = th) as -> by congruence.
    destruct a; simpl in Hm; simplify_eq; try congruence; local_cases Hloc; fin.
  - apply list_lookup_insert_Some in Hth' as [(<- & <- & _)|(Hne & Hi')].
    { assert (wt = th) as -> by congruence.
      destruct Hf' as [-> | ->]; duo_cases Hduo; fin. }
    apply list_lookup_insert_Some in Hi' as [(<- & <- & _)|(Hne' & Hi')]; [|congruence].
    destruct a; simpl in Hm; simplify_eq; eauto.
Qed.

Lemma deleg_run_nil self s : run self [] s = Some s.
Proof. done. Qed.

Lemma deleg_run_step self a tr s s1 s' :
  step self a s = Some s1 → run self tr s1 = Some s' → run self (a :: tr) s = Some s'.
Proof. intros H1 H2. simpl. by rewrite H1. Qed.

Lemma deleg_run_app self tr1 : ∀ tr2 s s1 s2,
  run self tr1 s = Some s1 → run self tr2 s1 = Some s2 → run self (tr1 ++ tr2) s = Some s2.
Proof.
  induction tr1 as [|a tr1 IH]; intros tr2 s s1 s2 H1 H2; simpl in *.
  - by simplify_eq.
  - destruct (step self a s) as [s'|] eqn:E; [|done]. eauto.
Qed.

Lemma deleg_reachable_run self n tr s s' :
  reachable self n s → run self tr s = Some s' → reachable self n s'.
Proof. intros [tr0 H0] H. exists (tr0 ++ tr). eauto using deleg_run_app. Qed.

Arguments run : simpl never.

Lemma step_call self s i o th th' w' :
  fault (shared s) = None → threads s !! i = Some th →
  local self i (Call i o) th (shared s) = Some (th', w') →
  step self (Call i o) s = Some (State (<[i := th']> (threads s)) w').
Proof. intros Hf Hth Hl. unfold step, solo. by rewrite Hf, Hth, Hl. Qed.

Lemma relookup (ts : list thread) i th a : ts !! i = Some th → <[i := a]> ts !! i = Some a.
Proof. intros H. apply list_lookup_insert_eq. by eapply lookup_lt_Some. Qed.

Lemma reinsert (ts : list thread) i a b : <[i := a]> (<[i := b]> ts) = <[i := a]> ts.
Proof. apply list_insert_insert_eq. Qed.

Ltac tau_with tac :=
  eapply deleg_run_step;
  [ first [eapply step_tau | eapply step_call];
    [ done
    | simpl; first [eassumption | eapply relookup; eassumption]
    | simpl; tac; simpl; reflexivity ]
  | simpl; rewrite ?reinsert ].


Lemma deleg_signal_noop self s i th m cm :
  fault (shared s) = None → threads s !! i = Some th →
  at_pc th = InSignal S_lock →
  mtxCh (cond (shared s)) = Some m → hp (shared s) !! m = Some cm →
  cap cm = 1%nat → buf cm = 0%nat → closed cm = false →
  waiters (cond (shared s)) = 0 →
  run self [Tau i; Tau i; Tau i] s = Some (State (<[i := goto th Idle]> (threads s)) (shared s)).
Proof.
  intros Hf Hth Hp Hm Hc Hcap Hbuf Hcl Hw.
  destruct s as [ts [[l mc c n d k] h o f]]; destruct cm as [cp b cl]; simpl in *; subst.
  assert (m < length h)%nat as Hlt by (by eapply lookup_lt_Some).
  tau_with ltac:(rewrite Hp; simpl; rewrite Hc).
  tau_with idtac.
  tau_with ltac:(rewrite list_lookup_insert_eq by done).
  rewrite deleg_run_nil. unfold set_hp, goto; simpl. rewrite list_insert_insert_eq.
  by rewrite (list_insert_id h m).
Qed.


Lemma deleg_call_checked self n s i th o :
  reachable self n s → threads s !! i = Some th → at_pc th = Idle →
  o = OpBroadcast ∨ o = OpSignal →
  run self [Call i o; Tau i] s =
  Some (State (<[i := goto th (match o with
                               | OpBroadcast => InBroadcast B_lock
                               | _ => InSignal S_lock
                               end)]> (threads s))
          (checked self (shared s))).
Proof.
  intros Hr Hth Hp Ho.
  pose proof (deleg_no_panic _ _ _ Hr) as Hf.
  apply deleg_Inv_reachable in Hr as (_ & (_ & Hc & _) & ((m & cm & Hm & _) & _) & _).
  apply check_ok in Hc.
  destruct s as [ts [[l mc c k d v] h o' f]]; simpl in *; subst.
  destruct Ho as [-> | ->].
  - tau_with ltac:(rewrite Hp).
    tau_with ltac:(unfold checks; simpl; rewrite Hc).
    by rewrite deleg_run_nil.
  - tau_with ltac:(rewrite Hp).
    tau_with ltac:(unfold checks; simpl; rewrite Hc).
    by rewrite deleg_run_nil.
Qed.

Lemma deleg_back_to_idle (ts : list thread) i th p :
  ts !! i = Some th → at_pc th = Idle →
  <[i := goto (goto th p) Idle]> (<[i := goto th p]> ts) = ts.
Proof.
  intros Hth Hp. rewrite reinsert.
  replace (goto (goto th p) Idle) with th by (destruct th; simpl in *; by subst).
  by apply list_insert_id.
Qed.

Lemma deleg_free self n s m cm :
  reachable self n s →
  mtxCh (cond (shared s)) = Some m → hp (shared s) !! m = Some cm →
  cap cm = 1%nat ∧ closed cm = false ∧
  (buf cm = 0%nat → ∃ r c, ch (cond (shared s)) = Some r ∧ hp (shared s) !! r = Some c ∧
                            closed c = false ∧ r ≠ m).
Proof.
  intros (_ & (_ & _ & (r & Hr & _) & _) & ((m' & c' & Hm' & Hc' & Hcap & Hcl & Hbuf & Hne) & Hfree) & _)%deleg_Inv_reachable Hm Hc.
  assert (m' = m) as -> by congruence. assert (c' = cm) as -> by congruence.
  split_and!; try done. intros Hz.
  assert (holders (threads s) = 0%nat) as Hh by lia.
  pose proof (Hfree Hh _ Hr) as Ho.
  pose proof (open_lookup _ _ Ho) as [c Hc0].
  exists r, c. split_and!; try done; [by eapply open_elim|congruence].
Qed.


Lemma deleg_signal_call_noop self n s i th m cm :
  reachable self n s → threads s !! i = Some th → at_pc th = Idle →
  mtxCh (cond (shared s)) = Some m → hp (shared s) !! m = Some cm → buf cm = 0%nat →
  waiters (cond (shared s)) = 0 →
  run self [Call i OpSignal; Tau i; Tau i; Tau i; Tau i] s =
  Some (State (threads s) (checked self (shared s))).
Proof.
  intros Hr Hth Hp Hm Hc Hb Hw.
  pose proof (deleg_no_panic _ _ _ Hr) as Hf.
  destruct (deleg_free _ _ _ _ _ Hr Hm Hc) as (Hcap & Hcl & _).
  pose proof (deleg_call_checked _ _ _ _ _ OpSignal Hr Hth Hp (or_intror eq_refl)) as H1.
  eapply (deleg_run_app _ [_; _] [_; _; _]); [exact H1|].
  erewrite deleg_signal_noop; simpl; eauto using relookup.
  by erewrite deleg_back_to_idle.
Qed.


Lemma deleg_registered_none (ts : list thread) :
  (∀ i th, ts !! i = Some th → weight th = 0%nat) → registered ts = 0%nat.
Proof.
  induction ts as [|th ts IH]; intros H; simpl; [done|].
  rewrite IH by (intros i th' Hi; apply (H (S i) th' Hi)).
  by rewrite (H 0%nat th eq_refl).
Qed.

Lemma deleg_halted self a s msg : fault (shared s) = Some msg → step self a s = None.
Proof. intros H. unfold step. by rewrite H. Qed.

Lemma deleg_mtxCh_set self n s : reachable self n s → mtxCh (cond (shared s)) ≠ None.
Proof.
  intros (_ & _ & ((m & c & Hm & _) & _) & _)%deleg_Inv_reachable. congruence.
Qed.

End DelegFacts.

(** * The properties the specification states *)

Module T := TokenCond.
Module D := DelegCond.

Lemma pool_fits : Z.of_nat 2 ≤ max_int.
Proof. unfold max_int. lia. Qed.

Lemma token_after tr s : T.run 1%positive tr (T.init (T.NewCond true) 2) = Some s → T.after tr = s.
Proof. unfold T.after. by intros ->. Qed.

Lemma token_reached tr s :
  T.run 1%positive tr (T.init (T.NewCond true) 2) = Some s → T.reachable 1%positive 2 (T.after tr).
Proof. intros H. exists tr. by rewrite (token_after _ _ H). Qed.

Lemma deleg_after tr s : D.run 1%positive tr (D.init (D.NewCond true []) 2) = Some s → D.after tr = s.
Proof. unfold D.after. by intros ->. Qed.

Lemma deleg_reached tr s :
  D.run 1%positive tr (D.init (D.NewCond true []) 2) = Some s → D.reachable 1%positive 2 (D.after tr).
Proof. intros H. exists tr. by rewrite (deleg_after _ _ H). Qed.

(** C1: a Broadcast that has taken the mutex wakes every waiter that was
    registered at that moment: when it has returned, such a waiter is
    still parked with its captured channel closed, so that the channel
    case of its [select] is ready and yields [nil], or it has left the
    [select] and, unless its context was cancelled, it was woken by the
    channel with a [nil] result.  A waiter that registers later captures
    a channel that no Broadcast has closed. *)
Theorem no_missed_broadcast self n s0 b thb tr s1 thb1 :
  Z.of_nat n ≤ max_int → T.reachable self n s0 →
  T.threads s0 !! b = Some thb → T.at_pc thb = T.InBroadcast T.B_lock →
  forallb (T.no_call b) tr = true →
  T.run self (T.Tau b :: tr) s0 = Some s1 →
  T.threads s1 !! b = Some thb1 → T.at_pc thb1 = T.Idle →
  (∀ j thj thj1,
     b ≠ j → T.threads s0 !! j = Some thj → T.waiting (T.at_pc thj) = true →
     forallb (T.no_call j) tr = true → T.threads s1 !! j = Some thj1 →
     (T.parked (T.at_pc thj1) = true ∧ T.woken_by_close thj1 (T.shared s1) ∧
      (T.at_pc thj1 = T.InWaitContext T.W_select →
       ∃ s' th', T.step self (T.Select j T.CaseCh) s1 = Some s' ∧
                 T.threads s' !! j = Some th' ∧
                 T.at_pc th' = T.InWaitContext T.W_relock ∧
                 T.err th' = None ∧ T.how th' = ByChannel)) ∨
     ((T.woken (T.at_pc thj1) = true ∨ T.at_pc thj1 = T.Idle) ∧
      (Done (T.ctx thj1) = false → T.how thj1 = ByChannel ∧ T.err thj1 = None))) ∧
  (∀ tr' s2 j thj,
     T.run self tr' s1 = Some s2 → T.threads s2 !! j = Some thj →
     T.at_pc thj = T.InWaitContext T.W_capture →
     ∃ r, T.ch (T.cond (T.shared s2)) = Some r ∧
          closed_at (T.hp (T.shared s2)) r = false ∧
          T.step self (T.Tau j) s2 =
          Some (T.State (<[j := T.Thread (T.InWaitContext T.W_incr) (T.ctx thj) (Some r)
                                  (T.err thj) (T.how thj)]> (T.threads s2))
                  (T.shared s2))).
Proof.
  intros Hn Hr Hb Pb Nb Hrun Hb1 Pb1.
  pose proof (TokenFacts.reachable_run _ _ _ _ _ Hr Hrun) as Hr1.
  split.
  - intros j thj thj1 Hbj Hj Pj Nj Hj1.
    destruct (TokenFacts.broadcast_wakes self n s0 b j thb thj tr s1 thb1 thj1)
      as [[Hpk Hcl]|Hw]; try done.
    + left. split_and!; try done. intros Psel.
      destruct (TokenFacts.select_enabled self s1 j thj1) as (s' & th' & ?); try done.
      * by eapply TokenFacts.no_panic.
      * by exists s', th'.
    + by right.
  - intros tr' s2 j thj Hrun2 Hj Pj.
    pose proof (TokenFacts.reachable_run _ _ _ _ _ Hr1 Hrun2) as Hr2.
    destruct (TokenFacts.capture_open self n s2 j thj) as (r & Hch & _ & Hcl); try done.
    exists r. split_and!; try done.
    rewrite <- Hch. apply TokenFacts.capture_step; try done.
    by eapply TokenFacts.no_panic.
Qed.

Lemma no_missed_broadcast_witness :
  T.reachable 1%positive 2 (T.after T.broadcast_called) ∧
  T.run 1%positive (T.Tau 1 :: T.broadcast_body) (T.after T.broadcast_called) =
    Some (T.after T.broadcast_done) ∧
  ∃ th, T.threads (T.after T.broadcast_done) !! 0%nat = Some th ∧
        T.woken_by_close th (T.shared (T.after T.broadcast_done)).
Proof.
  assert (Hr : T.reachable 1%positive 2 (T.after T.broadcast_called))
    by (eapply token_reached; vm_compute; reflexivity).
  assert (Hrun : T.run 1%positive (T.Tau 1 :: T.broadcast_body) (T.after T.broadcast_called) =
                 Some (T.after T.broadcast_done)) by (vm_compute; reflexivity).
  split; [exact Hr|]. split; [exact Hrun|].
  eexists. split; [vm_compute; reflexivity|].
  destruct (no_missed_broadcast 1%positive 2 (T.after T.broadcast_called) 1%nat
              (T.Thread (T.InBroadcast T.B_lock) Background None None NotYet)
              T.broadcast_body (T.after T.broadcast_done) T.idle
              pool_fits Hr eq_refl eq_refl eq_refl Hrun eq_refl eq_refl) as [H _].
  destruct (H 0%nat (T.Thread (T.InWaitContext T.W_select) (Cancelable None) (Some 0%nat) None NotYet)
              (T.Thread (T.InWaitContext T.W_select) (Cancelable None) (Some 0%nat) None NotYet))
    as [(_ & Hc & _)|[[Hw|Hw] _]];
    [discriminate | reflexivity.. | exact Hc | discriminate Hw | discriminate Hw].
Defined.

(** C2: on every path, and whatever woke it, a call of [Wait] or
    [WaitContext] returns with [c.L] held by the caller; in both
    variants. *)
Theorem wait_returns_with_lock self n :
  (∀ s a s' i p th th',
     T.reachable self n s → T.step self a s = Some s' →
     T.threads s !! i = Some th → T.at_pc th = T.InWaitContext p →
     T.threads s' !! i = Some th' → T.at_pc th' = T.Idle →
     T.Lk (T.shared s') = Some i) ∧
  (∀ s i th,
     T.reachable self n s → T.threads s !! i = Some th →
     T.at_pc th = T.InWaitContext T.W_ret → T.Lk (T.shared s) = Some i) ∧
  (∀ s a s' i p th th',
     D.reachable self n s → D.step self a s = Some s' →
     D.threads s !! i = Some th → D.at_pc th = D.InWaitContext p →
     D.threads s' !! i = Some th' → D.at_pc th' = D.Idle →
     D.Lk (D.shared s') = Some i) ∧
  (∀ s i th,
     D.reachable self n s → D.threads s !! i = Some th →
     D.at_pc th = D.InWaitContext D.W_ret → D.Lk (D.shared s) = Some i).
Proof.
  split_and!.
  - intros. by eapply TokenFacts.lock_held_on_return.
  - intros. by eapply TokenFacts.lock_held_at_return.
  - intros. by eapply DelegFacts.deleg_lock_held_on_return.
  - intros. by eapply DelegFacts.deleg_lock_held_at_return.
Qed.

Lemma wait_returns_with_lock_witness :
  (T.reachable 1%positive 2 (T.after T.woken_run) ∧
   T.Lk (T.shared (T.after T.woken_run)) = Some 0%nat) ∧
  (T.reachable 1%positive 2 (T.after T.cancelled_run) ∧
   T.Lk (T.shared (T.after T.cancelled_run)) = Some 0%nat) ∧
  (D.reachable 1%positive 2 (D.after D.delivered_run) ∧
   D.Lk (D.shared (D.after D.delivered_run)) = Some 0%nat) ∧
  (D.reachable 1%positive 2 (D.after D.cancelled_run) ∧
   D.Lk (D.shared (D.after D.cancelled_run)) = Some 0%nat).
Proof.
  destruct (wait_returns_with_lock 1%positive 2) as (_ & HT & _ & HD).
  assert (R1 : T.reachable 1%positive 2 (T.after T.woken_run))
    by (eapply token_reached; vm_compute; reflexivity).
  assert (R2 : T.reachable 1%positive 2 (T.after T.cancelled_run))
    by (eapply token_reached; vm_compute; reflexivity).
  assert (R3 : D.reachable 1%positive 2 (D.after D.delivered_run))
    by (eapply deleg_reached; vm_compute; reflexivity).
  assert (R4 : D.reachable 1%positive 2 (D.after D.cancelled_run))
    by (eapply deleg_reached; vm_compute; reflexivity).
  split; [split; [exact R1|] | split; [split; [exact R2|] | split; [split; [exact R3|] | split; [exact R4|]]]].
  - eapply (HT _ 0%nat); [exact R1 | vm_compute; reflexivity | reflexivity].
  - eapply (HT _ 0%nat); [exact R2 | vm_compute; reflexivity | reflexivity].
  - eapply (HD _ 0%nat); [exact R3 | vm_compute; reflexivity | reflexivity].
  - eapply (HD _ 0%nat); [exact R4 | vm_compute; reflexivity | reflexivity].
Defined.

(** C3: [WaitContext] returns [nil] exactly when the channel case of its
    [select] fired and the context's error exactly when the [ctx.Done()]
    case fired, and no state the operations reach has panicked, with or
    without cancellations; in both variants. *)
Theorem wait_result self n :
  Z.of_nat n ≤ max_int →
  (∀ s i th,
     T.reachable self n s → T.threads s !! i = Some th →
     T.at_pc th = T.InWaitContext T.W_ret →
     (T.err th = None ↔ T.how th = ByChannel) ∧
     (T.how th = ByCancel ↔ ∃ e, T.err th = Some e ∧ Err (T.ctx th) = Some e)) ∧
  (∀ s, T.reachable self n s → T.fault (T.shared s) = None) ∧
  (∀ s i th,
     D.reachable self n s → D.threads s !! i = Some th →
     D.at_pc th = D.InWaitContext D.W_ret →
     (D.err th = None ↔ D.how th = ByChannel) ∧
     (D.how th = ByCancel ↔ ∃ e, D.err th = Some e ∧ Err (D.ctx th) = Some e)) ∧
  (∀ s, D.reachable self n s → D.fault (D.shared s) = None).
Proof.
  intros Hn. split_and!.
  - intros. by eapply TokenFacts.outcome_at_return.
  - intros. by eapply TokenFacts.no_panic.
  - intros. by eapply DelegFacts.deleg_outcome_at_return.
  - intros. by eapply DelegFacts.deleg_no_panic.
Qed.

Lemma wait_result_witness :
  Z.of_nat 2 ≤ max_int ∧
  T.reachable 1%positive 2 (T.after T.cancelled_run) ∧
  D.reachable 1%positive 2 (D.after D.cancelled_run) ∧
  (∃ th, T.threads (T.after T.cancelled_run) !! 0%nat = Some th ∧
         T.how th = ByCancel ∧ ∃ e, T.err th = Some e ∧ Err (T.ctx th) = Some e) ∧
  (∃ th, D.threads (D.after D.cancelled_run) !! 0%nat = Some th ∧
         D.how th = ByCancel ∧ ∃ e, D.err th = Some e ∧ Err (D.ctx th) = Some e) ∧
  T.fault (T.shared (T.after T.cancelled_run)) = None ∧
  D.fault (D.shared (D.after D.cancelled_run)) = None.
Proof.
  destruct (wait_result 1%positive 2 pool_fits) as (HT & FT & HD & FD).
  assert (R2 : T.reachable 1%positive 2 (T.after T.cancelled_run))
    by (eapply token_reached; vm_compute; reflexivity).
  assert (R4 : D.reachable 1%positive 2 (D.after D.cancelled_run))
    by (eapply deleg_reached; vm_compute; reflexivity).
  split; [exact pool_fits|]. split; [exact R2|]. split; [exact R4|].
  split; [|split; [|split]].
  - eexists. split; [vm_compute; reflexivity|]. split; [reflexivity|].
    eapply (HT _ 0%nat); [exact R2 | vm_compute; reflexivity | reflexivity | reflexivity].
  - eexists. split; [vm_compute; reflexivity|]. split; [reflexivity|].
    eapply (HD _ 0%nat); [exact R4 | vm_compute; reflexivity | reflexivity | reflexivity].
  - apply FT, R2.
  - apply FD, R4.
Defined.

Lemma guard_kept_run self tr : ∀ s s',
  T.checker (T.cond (T.shared s)) = uintptr_of self → T.run self tr s = Some s' →
  T.checker (T.cond (T.shared s')) = uintptr_of self.
Proof.
  induction tr as [|a tr IH]; intros s s' Hc Hr.
  - rewrite TokenFacts.run_nil in Hr. by simplify_eq.
  - unfold T.run in Hr; fold T.run in Hr.
    destruct (T.step self a s) as [s1|] eqn:E; [|done].
    eauto using TokenFacts.guard_kept.
Qed.

Lemma deleg_guard_kept_run self tr : ∀ s s',
  D.checker (D.cond (D.shared s)) = uintptr_of self → D.run self tr s = Some s' →
  D.checker (D.cond (D.shared s')) = uintptr_of self.
Proof.
  induction tr as [|a tr IH]; intros s s' Hc Hr.
  - rewrite DelegFacts.deleg_run_nil in Hr. by simplify_eq.
  - unfold D.run in Hr; fold D.run in Hr.
    destruct (D.step self a s) as [s1|] eqn:E; [|done].
    eauto using DelegFacts.deleg_guard_kept.
Qed.

Lemma deleg_guard_passes self n s i th o :
  D.reachable self n s → D.threads s !! i = Some th → D.at_pc th = D.entry o →
  ∃ s', D.step self (D.Tau i) s = Some s' ∧ D.fault (D.shared s') = None.
Proof.
  intros Hr Hth Hp.
  pose proof (DelegFacts.deleg_no_panic _ _ _ Hr) as Hf.
  pose proof (DelegFacts.deleg_mtxCh_set _ _ _ Hr) as Hm.
  pose proof (DelegFacts.deleg_Inv_reachable _ _ _ Hr) as (_ & (_ & Hc & _) & _).
  apply check_ok in Hc.
  destruct (D.mtxCh (D.cond (D.shared s))) as [m|] eqn:Em; [|done].
  destruct o; (eexists; split;
    [ eapply DelegFacts.step_tau; [done|eassumption|];
      simpl; rewrite Hp; simpl; unfold D.checks; rewrite Em, Hc; reflexivity
    | done ]).
Qed.

(** C4 fails for the variant of lines 1-138: goroutine 1 is in [Signal]
    at the [select] of lines 67-75 with one waiter registered, and it
    has no step, alone or with a partner, until goroutine 0 reaches its
    own [select]: the delivery blocks. *)
Lemma signal_blocks_in_rendezvous :
  D.reachable 1%positive 2 (D.after D.signal_waits) ∧
  (∃ th, D.threads (D.after D.signal_waits) !! 1%nat = Some th ∧
         D.at_pc th = D.InSignal D.S_select) ∧
  D.waiters (D.cond (D.shared (D.after D.signal_waits))) = 1 ∧
  ∀ a, In 1%nat (D.movers a) → D.step 1%positive a (D.after D.signal_waits) = None.
Proof.
  split; [eapply deleg_reached; vm_compute; reflexivity|].
  split; [eexists; split; vm_compute; reflexivity|].
  split; [reflexivity|].
  intros a Hin.
  destruct a as [i o|i|i k|i j|i j|i e|i|i]; simpl in Hin.
  - destruct Hin as [->|[]]. reflexivity.
  - destruct Hin as [->|[]]. reflexivity.
  - destruct Hin as [->|[]]. by destruct k.
  - destruct Hin as [->|[->|[]]].
    + by destruct j as [|[|j]].
    + by destruct i as [|[|i]].
  - destruct Hin as [->|[->|[]]].
    + by destruct j as [|[|j]].
    + by destruct i as [|[|i]].
  - destruct Hin as [->|[]]. reflexivity.
  - destruct Hin as [->|[]]. reflexivity.
  - destruct Hin as [->|[]]. reflexivity.
Qed.

(** C4, amended.  In the variant of lines 140-251 no channel ever holds
    more than one token, [Signal] without waiters changes nothing but
    the copy guard, with a token pending it changes nothing, and its
    [select] always has a step.  In the variant of lines 1-138 the wake
    channel never holds a token and [Signal] without waiters changes
    nothing but the copy guard, but at its [select] a signaller has no
    step of its own: it leaves only together with a waiter that takes
    the token or hands over the lowering of its count. *)
Theorem signal_pending_tokens self n :
  Z.of_nat n ≤ max_int →
  (∀ s r c, T.reachable self n s → T.hp (T.shared s) !! r = Some c → (buf c ≤ 1)%nat) ∧
  (∀ s i th,
     T.reachable self n s → T.threads s !! i = Some th → T.at_pc th = T.Idle →
     T.mtx (T.cond (T.shared s)) = None → T.waiters (T.cond (T.shared s)) = 0 →
     T.run self [T.Call i T.OpSignal; T.Tau i; T.Tau i; T.Tau i; T.Tau i] s =
     Some (T.State (T.threads s) (T.checked self (T.shared s)))) ∧
  (∀ s i th r c,
     T.reachable self n s → T.threads s !! i = Some th →
     T.at_pc th = T.InSignal T.S_select →
     T.ch (T.cond (T.shared s)) = Some r → T.hp (T.shared s) !! r = Some c →
     buf c = 1%nat →
     T.step self (T.Tau i) s =
     Some (T.State (<[i := T.goto th (T.InSignal T.S_unlock)]> (T.threads s)) (T.shared s))) ∧
  (∀ s i th,
     T.reachable self n s → T.threads s !! i = Some th →
     T.at_pc th = T.InSignal T.S_select →
     ∃ s', T.step self (T.Tau i) s = Some s' ∧ T.fault (T.shared s') = None ∧
           ∃ th', T.threads s' !! i = Some th' ∧ T.at_pc th' = T.InSignal T.S_unlock) ∧
  (∀ s r c,
     D.reachable self n s → D.ch (D.cond (D.shared s)) = Some r →
     D.hp (D.shared s) !! r = Some c → buf c = 0%nat) ∧
  (∀ s i th m cm,
     D.reachable self n s → D.threads s !! i = Some th → D.at_pc th = D.Idle →
     D.mtxCh (D.cond (D.shared s)) = Some m → D.hp (D.shared s) !! m = Some cm →
     buf cm = 0%nat → D.waiters (D.cond (D.shared s)) = 0 →
     D.run self [D.Call i D.OpSignal; D.Tau i; D.Tau i; D.Tau i; D.Tau i] s =
     Some (D.State (D.threads s) (D.checked self (D.shared s)))) ∧
  (∀ s i th,
     D.reachable self n s → D.threads s !! i = Some th →
     D.at_pc th = D.InSignal D.S_select →
     D.step self (D.Tau i) s = None) ∧
  (∀ s a s' i th th',
     D.reachable self n s → D.threads s !! i = Some th →
     D.at_pc th = D.InSignal D.S_select →
     D.step self a s = Some s' → D.threads s' !! i = Some th' →
     D.at_pc th' ≠ D.InSignal D.S_select →
     ∃ j, a = D.Deliver i j ∨ a = D.Delegate i j).
Proof.
  intros Hn. split_and!.
  - intros. by eapply TokenFacts.at_most_one_token.
  - intros. by eapply TokenFacts.signal_call_noop.
  - intros. by eapply TokenFacts.signal_noop_pending.
  - intros. by eapply TokenFacts.signal_nonblocking.
  - intros. by eapply DelegFacts.no_pending_token.
  - intros. by eapply DelegFacts.deleg_signal_call_noop.
  - intros. by eapply DelegFacts.signal_blocks.
  - intros. by eapply DelegFacts.signal_needs_partner.
Qed.

Lemma signal_pending_tokens_witness :
  Z.of_nat 2 ≤ max_int ∧
  T.reachable 1%positive 2 (T.after T.signalled_twice) ∧
  D.reachable 1%positive 2 (D.after D.signal_waits) ∧
  T.step 1%positive (T.Tau 1) (T.after T.signalled_twice) =
    Some (T.State (<[1%nat := T.Thread (T.InSignal T.S_unlock) Background None None NotYet]>
                     (T.threads (T.after T.signalled_twice)))
            (T.shared (T.after T.signalled_twice))) ∧
  D.step 1%positive (D.Tau 1) (D.after D.signal_waits) = None.
Proof.
  destruct (signal_pending_tokens 1%positive 2 pool_fits) as (_ & _ & HT & _ & _ & _ & HD & _).
  assert (R1 : T.reachable 1%positive 2 (T.after T.signalled_twice))
    by (eapply token_reached; vm_compute; reflexivity).
  assert (R2 : D.reachable 1%positive 2 (D.after D.signal_waits))
    by (eapply deleg_reached; vm_compute; reflexivity).
  split; [exact pool_fits|]. split; [exact R1|]. split; [exact R2|]. split.
  - apply (HT _ 1%nat (T.Thread (T.InSignal T.S_select) Background None None NotYet)
             0%nat (Chan 1 1 false) R1); reflexivity.
  - apply (HD _ 1%nat (D.Thread (D.InSignal D.S_select) Background None None false false NotYet)
             R2); reflexivity.
Defined.



Lemma ready_provenance_run self tr : ∀ s s' r,
  T.run self tr s = Some s' →
  T.ready_at (T.hp (T.shared s')) r = true →
  T.ready_at (T.hp (T.shared s)) r = true ∨
  ∃ tr1 tr2 s1 i th,
    tr = tr1 ++ T.Tau i :: tr2 ∧ T.run self tr1 s = Some s1 ∧
    T.threads s1 !! i = Some th ∧ T.ch (T.cond (T.shared s1)) = Some r ∧
    (T.at_pc th = T.InSignal T.S_select ∨ T.at_pc th = T.InBroadcast T.B_close).
Proof.
  induction tr as [|a tr IH]; intros s s' r Hrun Hrdy.
  - rewrite TokenFacts.run_nil in Hrun. simplify_eq. by left.
  - unfold T.run in Hrun; fold T.run in Hrun.
    destruct (T.step self a s) as [s1|] eqn:Hs; [|done].
    destruct (IH _ _ _ Hrun Hrdy) as [H1|(tr1 & tr2 & s2 & i & th & -> & Hr1 & Hi & Hch & Hp)].
    + destruct (TokenFacts.ready_provenance _ _ _ _ _ Hs H1) as [?|(i & th & -> & Hi & Hch & Hp)];
        [by left|right].
      exists [], tr, s, i, th. split_and!; try done.
    + right. exists (a :: tr1), tr2, s2, i, th. split_and!; try done.
      by eapply TokenFacts.run_step.
Qed.

(** C6 fails as stated: goroutine 1 has returned from a Broadcast and
    then from a Signal, which left a token in the new wake channel
    because goroutine 0, already out of its [select], was still
    counted.  Goroutine 2 registers after both, captures that channel,
    and with no step of any other goroutine it takes the token and
    returns nil. *)
Lemma late_waiter_takes_earlier_token :
  T.run 1%positive T.signal_after_broadcast (T.init (T.NewCond true) 3) =
    Some (T.after3 T.signal_after_broadcast) ∧
  T.threads (T.after3 T.signal_after_broadcast) !! 1%nat = Some T.idle ∧
  T.threads (T.after3 T.signal_after_broadcast) !! 2%nat = Some T.idle ∧
  T.waiters (T.cond (T.shared (T.after3 T.signal_after_broadcast))) = 1 ∧
  forallb (λ a, Nat.eqb (T.actor a) 2) T.late_waiter = true ∧
  T.run 1%positive T.late_waiter (T.after3 T.signal_after_broadcast) =
    Some (T.after3 (T.signal_after_broadcast ++ T.late_waiter)) ∧
  T.threads (T.after3 (T.signal_after_broadcast ++ T.late_waiter)) !! 2%nat =
    Some (T.Thread (T.InWaitContext T.W_ret) (Cancelable None) (Some 1%nat) None ByChannel).
Proof. split_and!; vm_compute; reflexivity. Qed.

(** C6, amended.  A waiter that lowers the count to 0 goes on to the
    draining [select], which leaves the wake channel without a token
    while the waiter still holds the mutex; whenever the mutex is free
    and no waiter is counted the channel holds no token; the channel a
    Broadcast installs is open and empty; a waiter that registers while
    no waiter is counted captures a channel on which a receive would
    wait; and a receive on a channel only becomes ready, in one step or
    along a run, by a [Signal] sending on it or a [Broadcast] closing
    it while it is the current wake channel. *)
Theorem no_stale_token self n :
  Z.of_nat n ≤ max_int →
  (∀ s i th,
     T.reachable self n s → T.threads s !! i = Some th →
     T.at_pc th = T.InWaitContext T.W_if →
     T.step self (T.Tau i) s =
     Some (T.State (<[i := T.goto th (T.InWaitContext
                            (if T.waiters (T.cond (T.shared s)) =? 0
                             then T.W_drain else T.W_unlock2))]> (T.threads s))
             (T.shared s))) ∧
  (∀ s i th,
     T.reachable self n s → T.threads s !! i = Some th →
     T.at_pc th = T.InWaitContext T.W_drain →
     ∃ s', T.step self (T.Tau i) s = Some s' ∧ T.ch_empty (T.shared s') ∧
           T.mtx (T.cond (T.shared s')) = Some i ∧
           T.threads s' !! i = Some (T.goto th (T.InWaitContext T.W_unlock2))) ∧
  (∀ s, T.reachable self n s → T.mtx (T.cond (T.shared s)) = None →
        T.waiters (T.cond (T.shared s)) = 0 → T.ch_empty (T.shared s)) ∧
  (∀ s b th,
     T.reachable self n s → T.threads s !! b = Some th →
     T.at_pc th = T.InBroadcast T.B_make →
     ∃ s', T.step self (T.Tau b) s = Some s' ∧
           T.ch (T.cond (T.shared s')) = Some (length (T.hp (T.shared s))) ∧
           T.ready_at (T.hp (T.shared s')) (length (T.hp (T.shared s))) = false) ∧
  (∀ s j th,
     T.reachable self n s → T.threads s !! j = Some th →
     T.at_pc th = T.InWaitContext T.W_capture →
     T.waiters (T.cond (T.shared s)) = 0 →
     ∃ r, T.ch (T.cond (T.shared s)) = Some r ∧ T.ready_at (T.hp (T.shared s)) r = false) ∧
  (∀ s a s' r,
     T.reachable self n s → T.step self a s = Some s' →
     T.ready_at (T.hp (T.shared s')) r = true →
     T.ready_at (T.hp (T.shared s)) r = true ∨
     ∃ i th, a = T.Tau i ∧ T.threads s !! i = Some th ∧
             T.ch (T.cond (T.shared s)) = Some r ∧
             (T.at_pc th = T.InSignal T.S_select ∨ T.at_pc th = T.InBroadcast T.B_close)) ∧
  (∀ s tr s' r,
     T.reachable self n s → T.run self tr s = Some s' →
     T.ready_at (T.hp (T.shared s)) r = false →
     T.ready_at (T.hp (T.shared s')) r = true →
     ∃ tr1 tr2 s1 i th,
       tr = tr1 ++ T.Tau i :: tr2 ∧ T.run self tr1 s = Some s1 ∧
       T.threads s1 !! i = Some th ∧ T.ch (T.cond (T.shared s1)) = Some r ∧
       (T.at_pc th = T.InSignal T.S_select ∨ T.at_pc th = T.InBroadcast T.B_close)).
Proof.
  intros Hn. split_and!.
  - intros. eapply TokenFacts.last_waiter_drains; try done. by eapply TokenFacts.no_panic.
  - intros. by eapply TokenFacts.drain_last.
  - intros. by eapply TokenFacts.no_token_without_waiters.
  - intros s b th Hr Hb Pb.
    destruct (TokenFacts.make_fresh self s b th) as (s' & Hs & Hch & Ho & He & Hc); try done.
    { by eapply TokenFacts.no_panic. }
    exists s'. split_and!; try done.
    unfold T.ready_at, open_at, empty_at in *.
    destruct (T.hp (T.shared s') !! length (T.hp (T.shared s))) as [c|]; [|done].
    apply Nat.eqb_eq in He. rewrite He. by destruct (closed c).
  - intros. by eapply TokenFacts.capture_fresh.
  - intros. by eapply TokenFacts.ready_provenance.
  - intros s tr s' r Hr Hrun Hn0 Hrdy.
    destruct (ready_provenance_run _ _ _ _ _ Hrun Hrdy) as [H|H]; [congruence|done].
Qed.

Lemma no_stale_token_witness :
  Z.of_nat 2 ≤ max_int ∧
  T.reachable 1%positive 2 (T.after T.drain_run) ∧
  T.hp (T.shared (T.after T.drain_run)) = [Chan 1 0 true; Chan 1 1 false] ∧
  T.ch (T.cond (T.shared (T.after T.drain_run))) = Some 1%nat ∧
  ∃ s', T.step 1%positive (T.Tau 0) (T.after T.drain_run) = Some s' ∧
        T.ch_empty (T.shared s') ∧ T.mtx (T.cond (T.shared s')) = Some 0%nat.
Proof.
  destruct (no_stale_token 1%positive 2 pool_fits) as (_ & H2 & _).
  assert (R : T.reachable 1%positive 2 (T.after T.drain_run))
    by (eapply token_reached; vm_compute; reflexivity).
  split; [exact pool_fits|]. split; [exact R|].
  split; [vm_compute; reflexivity|]. split; [vm_compute; reflexivity|].
  destruct (H2 _ 0%nat (T.Thread (T.InWaitContext T.W_drain) (Cancelable None) (Some 0%nat)
                          None ByChannel) R eq_refl eq_refl) as (s' & Hs & He & Hm & _).
  exists s'. split; [exact Hs|]. split; [exact He | exact Hm].
Defined.

(** C7: in every reachable state [c.waiters] is the number of goroutines
    between their [c.waiters++] and the [c.waiters--] made by them or,
    in the variant of lines 1-138, for them; it is never negative, and
    it is 0 when no goroutine is inside an operation.  In both
    variants. *)
Theorem waiter_count self n :
  Z.of_nat n ≤ max_int →
  (∀ s, T.reachable self n s →
        T.waiters (T.cond (T.shared s)) = Z.of_nat (T.registered (T.threads s)) ∧
        0 ≤ T.waiters (T.cond (T.shared s)) ∧
        ((∀ i th, T.threads s !! i = Some th → T.at_pc th = T.Idle) →
         T.waiters (T.cond (T.shared s)) = 0)) ∧
  (∀ s, D.reachable self n s →
        D.waiters (D.cond (D.shared s)) = Z.of_nat (D.registered (D.threads s)) ∧
        0 ≤ D.waiters (D.cond (D.shared s)) ∧
        ((∀ i th, D.threads s !! i = Some th → D.at_pc th = D.Idle) →
         D.waiters (D.cond (D.shared s)) = 0)).
Proof.
  intros Hn. split.
  - intros s Hr. destruct (TokenFacts.waiters_counts _ _ _ Hn Hr) as [HW H0].
    split_and!; try done. intros Hidle. rewrite HW.
    rewrite TokenFacts.registered_none; [done|].
    intros i th Hi. by rewrite (Hidle _ _ Hi).
  - intros s Hr. destruct (DelegFacts.deleg_waiters_counts _ _ _ Hn Hr) as [HW H0].
    split_and!; try done. intros Hidle. rewrite HW.
    rewrite DelegFacts.deleg_registered_none; [done|].
    intros i th Hi. unfold D.weight. by rewrite (Hidle _ _ Hi).
Qed.

Lemma waiter_count_witness :
  Z.of_nat 2 ≤ max_int ∧
  T.reachable 1%positive 2 (T.after T.park0) ∧
  D.reachable 1%positive 2 (D.after D.park0) ∧
  T.waiters (T.cond (T.shared (T.after T.park0))) =
    Z.of_nat (T.registered (T.threads (T.after T.park0))) ∧
  D.waiters (D.cond (D.shared (D.after D.park0))) =
    Z.of_nat (D.registered (D.threads (D.after D.park0))).
Proof.
  destruct (waiter_count 1%positive 2 pool_fits) as (HT & HD).
  assert (R1 : T.reachable 1%positive 2 (T.after T.park0))
    by (eapply token_reached; vm_compute; reflexivity).
  assert (R2 : D.reachable 1%positive 2 (D.after D.park0))
    by (eapply deleg_reached; vm_compute; reflexivity).
  split; [exact pool_fits|]. split; [exact R1|]. split; [exact R2|]. split.
  - exact (proj1 (HT _ R1)).
  - exact (proj1 (HD _ R2)).
Defined.

(** C8: once an operation on a Cond at address [self] has passed the
    copy guard, the first step of any operation on a copy of the value
    at another address [self'] panics with "contextcond.Cond is copied",
    and nothing runs after the panic.  In both variants. *)
Theorem copy_aborts self self' n :
  self ≠ self' → Z.of_nat n ≤ max_int →
  (∀ s0 tr s j thj i th o,
     T.reachable self n s0 → T.threads s0 !! j = Some thj →
     T.guarded (T.at_pc thj) = true → T.run self tr s0 = Some s →
     T.threads s !! i = Some th → T.at_pc th = T.entry o →
     ∃ d, T.step self' (T.Tau i) s = Some d ∧
          T.fault (T.shared d) = Some copied_msg ∧
          ∀ p a, T.step p a d = None) ∧
  (∀ s0 tr s j thj i th o,
     D.reachable self n s0 → D.threads s0 !! j = Some thj →
     D.guarded (D.at_pc thj) = true → D.run self tr s0 = Some s →
     D.threads s !! i = Some th → D.at_pc th = D.entry o →
     ∃ d, D.step self' (D.Tau i) s = Some d ∧
          D.fault (D.shared d) = Some copied_msg ∧
          ∀ p a, D.step p a d = None).
Proof.
  intros Hne Hn. split.
  - intros s0 tr s j thj i th o Hr0 Hj Gj Hrun Hi Pi.
    pose proof (TokenFacts.guard_set _ _ _ _ _ Hr0 Hj Gj) as Hc0.
    pose proof (guard_kept_run _ _ _ _ Hc0 Hrun) as Hc.
    pose proof (TokenFacts.reachable_run _ _ _ _ _ Hr0 Hrun) as Hr.
    pose proof (TokenFacts.no_panic _ _ _ Hn Hr) as Hf.
    destruct (TokenFacts.copy_detected self self' s i th o) as (d & Hs & Hd); try done.
    exists d. split_and!; try done. intros p a. by eapply TokenFacts.halted.
  - intros s0 tr s j thj i th o Hr0 Hj Gj Hrun Hi Pi.
    pose proof (DelegFacts.deleg_guard_set _ _ _ _ _ Hr0 Hj Gj) as Hc0.
    pose proof (deleg_guard_kept_run _ _ _ _ Hc0 Hrun) as Hc.
    pose proof (DelegFacts.deleg_reachable_run _ _ _ _ _ Hr0 Hrun) as Hr.
    pose proof (DelegFacts.deleg_no_panic _ _ _ Hr) as Hf.
    pose proof (DelegFacts.deleg_mtxCh_set _ _ _ Hr) as Hm.
    destruct (DelegFacts.deleg_copy_detected self self' s i th o) as (d & Hs & Hd); try done.
    exists d. split_and!; try done. intros p a. by eapply DelegFacts.deleg_halted.
Qed.

Lemma copy_aborts_witness :
  (1 ≠ 2)%positive ∧ Z.of_nat 2 ≤ max_int ∧
  T.reachable 1%positive 2 (T.after T.used_run) ∧
  D.reachable 1%positive 2 (D.after D.used_run) ∧
  (∃ d, T.step 2%positive (T.Tau 1) (T.after (T.used_run ++ [T.Call 1%nat T.OpBroadcast])) = Some d ∧
        T.fault (T.shared d) = Some copied_msg) ∧
  (∃ d, D.step 2%positive (D.Tau 1) (D.after (D.used_run ++ [D.Call 1%nat D.OpBroadcast])) = Some d ∧
        D.fault (D.shared d) = Some copied_msg).
Proof.
  assert (Hne : (1 ≠ 2)%positive) by discriminate.
  destruct (copy_aborts 1%positive 2%positive 2 Hne pool_fits) as (HT & HD).
  assert (R1 : T.reachable 1%positive 2 (T.after T.used_run))
    by (eapply token_reached; vm_compute; reflexivity).
  assert (R2 : D.reachable 1%positive 2 (D.after D.used_run))
    by (eapply deleg_reached; vm_compute; reflexivity).
  split; [exact Hne|]. split; [exact pool_fits|]. split; [exact R1|]. split; [exact R2|]. split.
  - destruct (HT (T.after T.used_run) [T.Call 1%nat T.OpBroadcast]
                (T.after (T.used_run ++ [T.Call 1%nat T.OpBroadcast]))
                0%nat (T.Thread (T.InSignal T.S_lock) Background None None NotYet)
                1%nat (T.Thread (T.InBroadcast T.B_check) Background None None NotYet)
                T.OpBroadcast R1 eq_refl eq_refl eq_refl eq_refl eq_refl) as (d & Hs & Hf & _).
    exists d. split; [exact Hs | exact Hf].
  - destruct (HD (D.after D.used_run) [D.Call 1%nat D.OpBroadcast]
                (D.after (D.used_run ++ [D.Call 1%nat D.OpBroadcast]))
                0%nat (D.Thread (D.InSignal D.S_lock) Background None None false false NotYet)
                1%nat (D.Thread (D.InBroadcast D.B_checks) Background None None false false NotYet)
                D.OpBroadcast R2 eq_refl eq_refl eq_refl eq_refl eq_refl) as (d & Hs & Hf & _).
    exists d. split; [exact Hs | exact Hf].
Defined.

(** C9 fails for the variant of lines 1-138: on a Cond that was declared
    with its lock set but not built by [NewCond], the first statement of
    [Signal] panics with "contextcond.Cond must be initialized with
    NewCond". *)
Lemma zero_value_rejected_by_checks :
  D.run 1%positive [D.Call 0 D.OpSignal; D.Tau 0]%nat (D.init (D.zero_value true, []) 1) =
  Some (D.State [D.Thread (D.InSignal D.S_checks) Background None None false false NotYet]
          (D.World (D.zero_value true) [] None (Some uninit_msg))).
Proof. reflexivity. Qed.

(** C9, amended.  In the variant of lines 140-251 the zero value with
    its lock set is the value [NewCond] builds, so its states are the
    reachable states and none of them has panicked.  In the variant of
    lines 1-138 the first step of every operation on the zero value
    panics with "contextcond.Cond must be initialized with NewCond",
    whereas on a Cond built by [NewCond] that step passes. *)
Theorem zero_value_use self n :
  Z.of_nat n ≤ max_int →
  T.zero_value true = T.NewCond true ∧
  (∀ s, T.reachable_from self (T.init (T.zero_value true) n) s →
        T.reachable self n s ∧ T.fault (T.shared s) = None) ∧
  (∀ l d i th o,
     D.cond (D.shared d) = D.zero_value l → D.fault (D.shared d) = None →
     D.threads d !! i = Some th → D.at_pc th = D.entry o →
     ∃ d', D.step self (D.Tau i) d = Some d' ∧
           D.fault (D.shared d') = Some uninit_msg ∧ ∀ p a, D.step p a d' = None) ∧
  (∀ s i th o,
     D.reachable self n s → D.threads s !! i = Some th → D.at_pc th = D.entry o →
     ∃ s', D.step self (D.Tau i) s = Some s' ∧ D.fault (D.shared s') = None).
Proof.
  intros Hn. split_and!.
  - reflexivity.
  - intros s Hr. split; [exact Hr|]. by eapply TokenFacts.no_panic.
  - intros l d i th o Hz Hf Hi Pi.
    destruct (DelegFacts.zero_value_rejected self l d i th o) as (d' & Hs & Hd); try done.
    exists d'. split_and!; try done. intros p a. by eapply DelegFacts.deleg_halted.
  - intros. by eapply deleg_guard_passes.
Qed.

Lemma zero_value_use_witness :
  Z.of_nat 2 ≤ max_int ∧
  T.reachable_from 1%positive (T.init (T.zero_value true) 2) (T.after T.woken_run) ∧
  T.fault (T.shared (T.after T.woken_run)) = None ∧
  ∃ d', D.step 1%positive (D.Tau 0) (D.State [D.Thread (D.InSignal D.S_checks) Background None None
                                                 false false NotYet]
                                       (D.World (D.zero_value true) [] None None)) = Some d' ∧
        D.fault (D.shared d') = Some uninit_msg.
Proof.
  destruct (zero_value_use 1%positive 2 pool_fits) as (_ & HT & HD & _).
  assert (R1 : T.reachable_from 1%positive (T.init (T.zero_value true) 2) (T.after T.woken_run))
    by (eapply token_reached; vm_compute; reflexivity).
  split; [exact pool_fits|]. split; [exact R1|]. split.
  - exact (proj2 (HT _ R1)).
  - destruct (HD true (D.State [D.Thread (D.InSignal D.S_checks) Background None None
                                  false false NotYet]
                        (D.World (D.zero_value true) [] None None))
                0%nat (D.Thread (D.InSignal D.S_checks) Background None None false false NotYet)
                D.OpSignal eq_refl eq_refl eq_refl eq_refl) as (d' & Hs & Hf & _).
    exists d'. split; [exact Hs | exact Hf].
Defined.

(** C10: in every reachable state [c.waiters > 0] implies that [c.ch] is
    not nil; a waiter about to run [c.waiters++] finds the channel
    created; and the [close(c.ch)] of [Broadcast] and the send on [c.ch]
    of [Signal] find a channel that is allocated and open. *)
Theorem wake_channel_present self n s :
  Z.of_nat n ≤ max_int → T.reachable self n s →
  (0 < T.waiters (T.cond (T.shared s)) → T.ch (T.cond (T.shared s)) ≠ None) ∧
  (∀ i th, T.threads s !! i = Some th → T.at_pc th = T.InWaitContext T.W_incr →
           T.ch (T.cond (T.shared s)) ≠ None) ∧
  (∀ i th, T.threads s !! i = Some th →
           T.at_pc th = T.InBroadcast T.B_close ∨ T.at_pc th = T.InSignal T.S_select →
           ∃ r c, T.ch (T.cond (T.shared s)) = Some r ∧ T.hp (T.shared s) !! r = Some c ∧
                  closed c = false).
Proof.
  intros Hn Hr. destruct (TokenFacts.channel_present _ _ _ Hn Hr) as [H1 H2].
  split_and!; try done.
  intros. by eapply TokenFacts.channel_before_incr.
Qed.

Lemma wake_channel_present_witness :
  Z.of_nat 2 ≤ max_int ∧ T.reachable 1%positive 2 (T.after T.park0) ∧
  0 < T.waiters (T.cond (T.shared (T.after T.park0))) ∧
  T.ch (T.cond (T.shared (T.after T.park0))) ≠ None.
Proof.
  assert (R1 : T.reachable 1%positive 2 (T.after T.park0))
    by (eapply token_reached; vm_compute; reflexivity).
  assert (Hw : 0 < T.waiters (T.cond (T.shared (T.after T.park0)))) by reflexivity.
  split; [exact pool_fits|]. split; [exact R1|]. split; [exact Hw|].
  exact (proj1 (wake_channel_present 1%positive 2 _ pool_fits R1) Hw).
Defined.

(** * Further properties of the code *)

(** ** copyChecker *)

(** [check] passes exactly on a checker that is still zero or already
    holds its own address, and then the checker holds that address;
    lines 132-138 and 245-251. *)
Theorem check_passes_iff self v v' :
  check self v = Some v' ↔ v' = uintptr_of self ∧ (v = 0 ∨ v = uintptr_of self).
Proof.
  split.
  - apply check_cases.
  - intros [-> H]. by apply check_ok.
Qed.

(** ** The variant guarded by [sync.Mutex] *)

Module TokenProps.
Import TokenCond TokenFacts.

(** [c.mtx] excludes: two goroutines between [c.mtx.Lock()] and
    [c.mtx.Unlock()] are the same goroutine, and it owns the mutex. *)
Theorem mutex_excludes self n s i j thi thj :
  reachable self n s →
  threads s !! i = Some thi → in_cs (at_pc thi) = true →
  threads s !! j = Some thj → in_cs (at_pc thj) = true →
  i = j ∧ mtx (cond (shared s)) = Some i.
Proof.
  intros [HT _]%inv1_reachable Hi Pi Hj Pj.
  pose proof (HT _ _ Hi) as (Ci & _). pose proof (HT _ _ Hj) as (Cj & _).
  specialize (Ci Pi). specialize (Cj Pj). split; [congruence|done].
Qed.

Lemma mutex_excludes_witness :
  reachable 1%positive 2 (after signalled_twice) ∧
  mtx (cond (shared (after signalled_twice))) = Some 1%nat.
Proof.
  assert (R : reachable 1%positive 2 (after signalled_twice))
    by (eapply token_reached; vm_compute; reflexivity).
  split; [exact R|].
  exact (proj2 (mutex_excludes 1%positive 2 _ 1%nat 1%nat
                  (Thread (InSignal S_select) Background None None NotYet)
                  (Thread (InSignal S_select) Background None None NotYet)
                  R eq_refl eq_refl eq_refl eq_refl)).
Defined.

(** No statement between [c.mtx.Lock()] and [c.mtx.Unlock()] waits or
    panics: the goroutine that holds the mutex always has a step. *)
Theorem critical_section_runs self n s i th :
  Z.of_nat n ≤ max_int → reachable self n s →
  threads s !! i = Some th → in_cs (at_pc th) = true →
  ∃ s', step self (Tau i) s = Some s' ∧ fault (shared s') = None.
Proof.
  intros Hn Hr Hi Pi.
  pose proof (Inv_reachable _ _ _ Hn Hr) as HI.
  pose proof (no_panic _ _ _ Hn Hr) as Hf.
  assert (∃ o, local self (Tau i) th (shared s) = Some o) as [[th' w'] Hl].
  { destruct (at_pc th) as [|[]|[]|[]] eqn:Hp; simpl in Pi; try done.
    all: simpl; rewrite Hp; simpl.
    all: try (destruct (channel_present _ _ _ Hn Hr) as [_ Hc];
              destruct (Hc _ _ Hi (or_introl Hp)) as (r & c & Hch & Hlk & Hcl);
              rewrite Hch, Hlk, Hcl).
    all: try (destruct (channel_present _ _ _ Hn Hr) as [_ Hc];
              destruct (Hc _ _ Hi (or_intror Hp)) as (r & c & Hch & Hlk & Hcl);
              rewrite Hch, Hlk, Hcl).
    all: try (destruct (Inv_reachable _ _ _ Hn Hr) as (_ & _ & [HT3 _] & _);
              pose proof (HT3 _ _ Hi) as (_ & _ & _ & I4 & _); rewrite Hp in I4;
              specialize (I4 eq_refl eq_refl);
              destruct (ch (cond (shared s))) as [r|] eqn:Ech; [|by eauto];
              destruct (open_lookup _ _ (I4 _ eq_refl)) as [c Hc]; rewrite Hc).
    all: repeat case_match; simplify_eq; eauto.
    destruct (Inv_reachable _ _ _ Hn Hr) as (_ & _ & [HT3 _] & _).
    pose proof (HT3 _ _ Hi) as (_ & _ & _ & I4 & _). rewrite Hp in I4.
    match goal with H : ch _ = Some _ |- _ => specialize (I4 eq_refl eq_refl _ H) end.
    apply open_lookup in I4 as [c Hc]. congruence. }
  pose proof (step_local self (Tau i) s th th' w' Hf Hi Hl) as Hs.
  eexists. split; [exact Hs|].
  by destruct (Inv_step _ _ _ _ HI Hs) as (_ & _ & _ & _ & ?).
Qed.

Lemma critical_section_runs_witness :
  Z.of_nat 2 ≤ max_int ∧ reachable 1%positive 2 (after signalled_twice) ∧
  ∃ s', step 1%positive (Tau 1) (after signalled_twice) = Some s' ∧ fault (shared s') = None.
Proof.
  assert (R : reachable 1%positive 2 (after signalled_twice))
    by (eapply token_reached; vm_compute; reflexivity).
  split; [exact pool_fits|]. split; [exact R|].
  exact (critical_section_runs 1%positive 2 _ 1%nat
           (Thread (InSignal S_select) Background None None NotYet)
           pool_fits R eq_refl eq_refl).
Defined.

(** [Signal] with waiters and an empty wake channel leaves one token in
    it, and a waiter parked on that channel can then take the token: it
    leaves its [select] with a nil error and the channel is empty
    again, so the token wakes one waiter. *)
Theorem signal_wakes_one self n s i th r c :
  Z.of_nat n ≤ max_int → reachable self n s →
  threads s !! i = Some th → at_pc th = InSignal S_select →
  ch (cond (shared s)) = Some r → hp (shared s) !! r = Some c → buf c = 0%nat →
  step self (Tau i) s =
    Some (State (<[i := goto th (InSignal S_unlock)]> (threads s))
            (set_hp (shared s) (<[r := Chan 1 1 false]> (hp (shared s))))) ∧
  ∀ j thj, j ≠ i → threads s !! j = Some thj →
    at_pc thj = InWaitContext W_select → l_ch thj = Some r →
    run self [Tau i; Select j CaseCh] s =
    Some (State (<[j := Thread (InWaitContext W_relock) (ctx thj) (Some r) None ByChannel]>
                   (<[i := goto th (InSignal S_unlock)]> (threads s)))
            (set_hp (shared s) (<[r := Chan 1 0 false]> (hp (shared s))))).
Proof.
  intros Hn Hr Hth Hp Hch Hc Hb.
  destruct (Inv_reachable _ _ _ Hn Hr) as (_ & _ & [HT3 (_ & G7 & _)] & _ & Hf).
  pose proof (HT3 _ _ Hth) as (_ & _ & _ & I4 & _). rewrite Hp in I4.
  specialize (I4 eq_refl eq_refl _ Hch).
  pose proof (open_elim _ _ _ Hc I4) as Hcl.
  destruct (one_token_lookup _ _ _ G7 Hc) as [Hcap _].
  assert (r < length (hp (shared s)))%nat as Hlt by (by eapply lookup_lt_Some).
  destruct c as [k b cl]; simpl in *; subst.
  assert (Hs : step self (Tau i) s =
    Some (State (<[i := goto th (InSignal S_unlock)]> (threads s))
            (set_hp (shared s) (<[r := Chan 1 1 false]> (hp (shared s)))))).
  { eapply step_local; [done|simpl; eassumption|]. simpl. rewrite Hp. simpl.
    by rewrite Hch, Hc. }
  split; [exact Hs|].
  intros j thj Hji Hj Pj Lj.
  eapply run_step; [exact Hs|].
  eapply run_step; [|apply run_nil].
  erewrite step_local; [reflexivity | done | simpl; by rewrite list_lookup_insert_ne | ].
  simpl. rewrite Pj, Lj. rewrite list_lookup_insert_eq by done. simpl.
  unfold set_hp. simpl. by rewrite list_insert_insert_eq.
Qed.

Lemma signal_wakes_one_witness :
  Z.of_nat 2 ≤ max_int ∧
  reachable 1%positive 2 (after (park0 ++ [Call 1 OpSignal; Tau 1; Tau 1; Tau 1]%nat)) ∧
  ∃ s', run 1%positive [Tau 1; Select 0 CaseCh]%nat
          (after (park0 ++ [Call 1 OpSignal; Tau 1; Tau 1; Tau 1]%nat)) = Some s' ∧
        hp (shared s') = [Chan 1 0 false].
Proof.
  assert (R : reachable 1%positive 2 (after (park0 ++ [Call 1 OpSignal; Tau 1; Tau 1; Tau 1]%nat)))
    by (eapply token_reached; vm_compute; reflexivity).
  split; [exact pool_fits|]. split; [exact R|].
  destruct (signal_wakes_one 1%positive 2 _ 1%nat
              (Thread (InSignal S_select) Background None None NotYet) 0%nat (Chan 1 0 false)
              pool_fits R eq_refl eq_refl eq_refl eq_refl eq_refl) as [_ H].
  eexists. split.
  - apply (H 0%nat (Thread (InWaitContext W_select) (Cancelable None) (Some 0%nat) None NotYet));
      [discriminate | reflexivity..].
  - reflexivity.
Defined.

(** [WaitContext] creates the wake channel when there is none and
    leaves everything as it is otherwise (lines 210-212); either way
    [c.ch] then is an open channel of capacity 1. *)
Theorem wait_creates_channel self n s i th :
  Z.of_nat n ≤ max_int → reachable self n s →
  threads s !! i = Some th → at_pc th = InWaitContext W_init →
  ∃ s' r c, step self (Tau i) s = Some s' ∧
    ch (cond (shared s')) = Some r ∧ hp (shared s') !! r = Some c ∧
    cap c = 1%nat ∧ closed c = false ∧
    (ch (cond (shared s)) = None →
       r = length (hp (shared s)) ∧ hp (shared s') = hp (shared s) ++ [make 1]) ∧
    (ch (cond (shared s)) ≠ None → shared s' = shared s).
Proof.
  intros Hn Hr Hth Hp.
  destruct (Inv_reachable _ _ _ Hn Hr) as (_ & _ & [HT3 (_ & G7 & _)] & _ & Hf).
  pose proof (HT3 _ _ Hth) as (_ & _ & _ & I4 & _). rewrite Hp in I4.
  specialize (I4 eq_refl eq_refl).
  destruct (ch (cond (shared s))) as [r|] eqn:Ech.
  - pose proof (open_lookup _ _ (I4 _ Ech)) as [c Hc].
    exists (State (<[i := goto th (InWaitContext W_capture)]> (threads s)) (shared s)), r, c.
    split_and!; try done.
    + eapply step_local; [done|simpl; eassumption|]. simpl. rewrite Hp. simpl. by rewrite Ech.
    + by destruct (one_token_lookup _ _ _ G7 Hc).
    + eapply open_elim; [exact Hc | by apply I4].
  - exists (State (<[i := goto th (InWaitContext W_capture)]> (threads s))
              (set_cond (set_hp (shared s) (hp (shared s) ++ [make 1]))
                 (set_ch (cond (shared s)) (Some (length (hp (shared s))))))),
      (length (hp (shared s))), (make 1).
    split_and!; try done.
    + eapply step_local; [done|simpl; eassumption|]. simpl. rewrite Hp. simpl.
      rewrite Ech. reflexivity.
    + simpl. apply lookup_fresh.
Qed.

Lemma wait_creates_channel_witness :
  Z.of_nat 2 ≤ max_int ∧
  reachable 1%positive 2
    (after [LockL 0; Call 0 (OpWaitContext (Cancelable None)); Tau 0; Tau 0]%nat) ∧
  ∃ s' r c, step 1%positive (Tau 0)
              (after [LockL 0; Call 0 (OpWaitContext (Cancelable None)); Tau 0; Tau 0]%nat) = Some s' ∧
            ch (cond (shared s')) = Some r ∧ hp (shared s') !! r = Some c ∧ cap c = 1%nat.
Proof.
  assert (R : reachable 1%positive 2
                (after [LockL 0; Call 0 (OpWaitContext (Cancelable None)); Tau 0; Tau 0]%nat))
    by (eapply token_reached; vm_compute; reflexivity).
  split; [exact pool_fits|]. split; [exact R|].
  destruct (wait_creates_channel 1%positive 2 _ 0%nat
              (Thread (InWaitContext W_init) (Cancelable None) None None NotYet)
              pool_fits R eq_refl eq_refl) as (s' & r & c & H1 & H2 & H3 & H4 & _).
  exists s', r, c. split; [exact H1|]. split; [exact H2|]. split; [exact H3|exact H4].
Defined.

(** The channel a registered waiter captured is the current wake
    channel or a closed one: no waiter is left on an open channel that
    [Signal] and [Broadcast] no longer reach. *)
Theorem waiter_channel_current_or_closed self n s j th :
  Z.of_nat n ≤ max_int → reachable self n s →
  threads s !! j = Some th → holds_ref (at_pc th) = true →
  ∃ r c, l_ch th = Some r ∧ hp (shared s) !! r = Some c ∧
         (ch (cond (shared s)) = Some r ∨ closed c = true).
Proof.
  intros Hn Hr Hj Pj.
  destruct (Inv_reachable _ _ _ Hn Hr) as (_ & _ & [HT3 _] & _).
  pose proof (HT3 _ _ Hj) as (_ & _ & _ & _ & I5 & _).
  destruct (I5 Pj) as (r & Hl & [c Hc] & Hor).
  exists r, c. split_and!; try done.
  destruct Hor as [?|Hcl]; [by left|right].
  unfold closed_at in Hcl. by rewrite Hc in Hcl.
Qed.

Lemma waiter_channel_current_or_closed_witness :
  Z.of_nat 2 ≤ max_int ∧ reachable 1%positive 2 (after broadcast_done) ∧
  ∃ r c, hp (shared (after broadcast_done)) !! r = Some c ∧
         (ch (cond (shared (after broadcast_done))) = Some r ∨ closed c = true).
Proof.
  assert (R : reachable 1%positive 2 (after broadcast_done))
    by (eapply token_reached; vm_compute; reflexivity).
  split; [exact pool_fits|]. split; [exact R|].
  destruct (waiter_channel_current_or_closed 1%positive 2 _ 0%nat
              (Thread (InWaitContext W_select) (Cancelable None) (Some 0%nat) None NotYet)
              pool_fits R eq_refl eq_refl) as (r & c & _ & H2 & H3).
  exists r, c. split; [exact H2 | exact H3].
Defined.

End TokenProps.

(** ** The variant guarded by [mtxCh] *)

Module DelegProps.
Import DelegCond DelegFacts.

Lemma holder_token self n s i th :
  reachable self n s → threads s !! i = Some th → holder th = true →
  ∃ m c, mtxCh (cond (shared s)) = Some m ∧ hp (shared s) !! m = Some c ∧
         cap c = 1%nat ∧ buf c = 1%nat ∧ closed c = false.
Proof.
  intros (_ & (_ & _ & _ & HC) & ((m & c & Hm & Hc & Hcap & Hcl & Hbuf & _) & _) & _)%deleg_Inv_reachable
    Hi Pi.
  pose proof (within_cap_lookup _ _ _ HC Hc) as Hw. unfold within_cap in Hw.
  pose proof (holders_pos _ _ _ Hi Pi) as H1.
  exists m, c. split_and!; try done. lia.
Qed.

(** [mtxCh] is a mutex: it holds a token exactly while some goroutine
    is between its lock and its unlock or was handed the lock by a
    signaller, and two such goroutines are the same one. *)
Theorem mtxCh_excludes self n s i j thi thj :
  reachable self n s →
  threads s !! i = Some thi → holder thi = true →
  threads s !! j = Some thj → holder thj = true →
  i = j ∧ ∃ m c, mtxCh (cond (shared s)) = Some m ∧ hp (shared s) !! m = Some c ∧
                 cap c = 1%nat ∧ buf c = 1%nat ∧ closed c = false.
Proof.
  intros Hr Hi Pi Hj Pj. split; [|by eapply holder_token].
  pose proof (holders_pos _ _ _ Hi Pi) as H1.
  apply deleg_Inv_reachable in Hr
    as (_ & (_ & _ & _ & HC) & ((m & c & Hm & Hc & Hcap & Hcl & Hbuf & _) & _) & _).
  pose proof (within_cap_lookup _ _ _ HC Hc) as Hw. unfold within_cap in Hw.
  destruct (decide (i = j)) as [|Hne]; [done|].
  pose proof (holders_two _ _ _ _ _ Hne Hi Hj Pi Pj). lia.
Qed.

Lemma mtxCh_excludes_witness :
  reachable 1%positive 2 (after signal_waits) ∧
  ∃ m c, mtxCh (cond (shared (after signal_waits))) = Some m ∧
         hp (shared (after signal_waits)) !! m = Some c ∧ buf c = 1%nat.
Proof.
  assert (R : reachable 1%positive 2 (after signal_waits))
    by (eapply deleg_reached; vm_compute; reflexivity).
  split; [exact R|].
  destruct (mtxCh_excludes 1%positive 2 _ 1%nat 1%nat
              (Thread (InSignal S_select) Background None None false false NotYet)
              (Thread (InSignal S_select) Background None None false false NotYet)
              R eq_refl eq_refl eq_refl eq_refl) as [_ (m & c & H1 & H2 & _ & H3 & _)].
  exists m, c. split; [exact H1|]. split; [exact H2 | exact H3].
Defined.

(** A signaller at its [select] and a waiter parked on the current wake
    channel can always meet: the waiter leaves its [select] signalled,
    with a nil error, the signaller returns without unlocking, and
    [mtxCh] still holds the token, which the waiter now owns. *)
Theorem signal_hands_over self n s i j sg wt r :
  reachable self n s → i ≠ j →
  threads s !! i = Some sg → at_pc sg = InSignal S_select →
  threads s !! j = Some wt → at_pc wt = InWaitContext W_select →
  l_ch wt = Some r → ch (cond (shared s)) = Some r →
  step self (Deliver i j) s =
    Some (State (<[j := Thread (InWaitContext W_ifsig) (ctx wt) (Some r) None true
                           (loweringDelegated wt) ByChannel]>
                   (<[i := goto sg Idle]> (threads s)))
            (shared s)) ∧
  ∃ m c, mtxCh (cond (shared s)) = Some m ∧ hp (shared s) !! m = Some c ∧ buf c = 1%nat.
Proof.
  intros Hr Hij Hi Pi Hj Pj Lj Hch.
  pose proof (deleg_no_panic _ _ _ Hr) as Hf.
  assert (holder sg = true) as Hh by (by rewrite holder_unfold, Pi).
  destruct (holder_token _ _ _ _ _ Hr Hi Hh) as (m & c & Hm & Hc & _ & Hb & _).
  split; [|by exists m, c].
  pose proof (deleg_Inv_reachable _ _ _ Hr) as (HT & _).
  pose proof (HT _ _ Hi) as (_ & _ & _ & _ & _ & _ & _ & I8).
  rewrite holder_unfold, Pi in I8. specialize (I8 eq_refl eq_refl _ Hch).
  pose proof (open_lookup _ _ I8) as [cr Hcr].
  pose proof (open_elim _ _ _ Hcr I8) as Hcl.
  unfold step, duo. rewrite Hf, Hi, Hj. rewrite decide_False by done.
  unfold deliver. rewrite Pi, Pj, Hch, Lj. rewrite decide_True by done.
  by rewrite Hcr, Hcl.
Qed.

Lemma signal_hands_over_witness :
  reachable 1%positive 2 (after (signal_waits ++ [Tau 0%nat])) ∧
  step 1%positive (Deliver 1 0) (after (signal_waits ++ [Tau 0%nat])) =
    Some (State [Thread (InWaitContext W_ifsig) (Cancelable None) (Some 1%nat) None true false
                   ByChannel; idle]
            (shared (after (signal_waits ++ [Tau 0%nat])))).
Proof.
  assert (R : reachable 1%positive 2 (after (signal_waits ++ [Tau 0%nat])))
    by (eapply deleg_reached; vm_compute; reflexivity).
  split; [exact R|].
  exact (proj1 (signal_hands_over 1%positive 2 _ 1%nat 0%nat
                  (Thread (InSignal S_select) Background None None false false NotYet)
                  (Thread (InWaitContext W_select) (Cancelable None) (Some 1%nat) None false false
                     NotYet)
                  1%nat R ltac:(discriminate) eq_refl eq_refl eq_refl eq_refl eq_refl eq_refl)).
Defined.

(** When a waiter hands the lowering of its count to a signaller, the
    count is lowered once, by the signaller (line 74), and the waiter
    goes on to [c.L.Lock()] without touching it (line 119). *)
Theorem delegated_lowering self n s i j s1 :
  Z.of_nat n ≤ max_int → reachable self n s →
  step self (Delegate i j) s = Some s1 →
  ∃ sg wt,
    threads s !! i = Some sg ∧ threads s !! j = Some wt ∧
    run self [Tau i; Tau j] s1 =
    Some (State (<[j := Thread (InWaitContext W_Llock) (ctx wt) (l_ch wt) (err wt)
                           (signalled wt) true (how wt)]>
                   (<[i := goto sg (InSignal S_for)]> (threads s)))
            (set_cond (shared s)
               (set_waiters (cond (shared s)) (waiters (cond (shared s)) - 1)))) ∧
    0 < waiters (cond (shared s)).
Proof.
  intros Hn Hr Hs.
  pose proof (deleg_no_panic _ _ _ Hr) as Hf.
  destruct (counts_reachable _ _ _ Hn Hr) as [HW HL].
  unfold step, duo in Hs. rewrite Hf in Hs.
  destruct (decide (i = j)) as [|Hij]; [done|].
  destruct (threads s !! i) as [sg|] eqn:Hi; [|done].
  destruct (threads s !! j) as [wt|] eqn:Hj; [|done].
  destruct (delegate sg wt (shared s)) as [[sg' wt']|] eqn:Hd; [|done].
  simplify_eq. exists sg, wt. split; [done|]. split; [done|].
  unfold delegate in Hd. repeat case_match; simplify_eq.
  match goal with H : at_pc wt = _ |- _ => rename H into Pw end.
  match goal with H : at_pc sg = _ |- _ => rename H into Ps end.
  assert (1 ≤ registered (threads s))%nat as Hreg.
  { clear - Hj Pw. revert j Hj. induction (threads s) as [|t ts IH]; intros [|j] Hj; simplify_eq/=.
    - unfold weight. rewrite Pw. lia.
    - specialize (IH _ Hj). lia. }
  pose proof (deleg_registered_le (threads s)) as Hle.
  assert (int_wrap (waiters (cond (shared s)) - 1) = waiters (cond (shared s)) - 1) as Hwrap.
  { apply int_wrap_id. unfold max_int in *. lia. }
  split; [|lia].
  assert (i < length (threads s))%nat as Hli by (by eapply lookup_lt_Some).
  assert (j < length (threads s))%nat as Hlj by (by eapply lookup_lt_Some).
  eapply deleg_run_step.
  { eapply step_tau; [done| |].
    - simpl. rewrite list_lookup_insert_ne by done. by apply list_lookup_insert_eq.
    - simpl. reflexivity. }
  eapply deleg_run_step; [|apply deleg_run_nil].
  simpl. erewrite step_tau; [| done | simpl; rewrite list_lookup_insert_ne by done;
                              apply list_lookup_insert_eq; by rewrite length_insert
                            | simpl; reflexivity ].
  simpl. rewrite Hwrap. unfold goto. simpl.
  rewrite (list_insert_insert_ne _ i j) by done.
  by rewrite !list_insert_insert_eq.
Qed.

Lemma delegated_lowering_witness :
  Z.of_nat 2 ≤ max_int ∧
  reachable 1%positive 2
    (after (park0 ++ [Tau 0; Cancel 0 "context canceled"; Select 0 CaseDone; Tau 0;
                      Call 1 OpSignal; Tau 1; Tau 1; Tau 1]%nat)) ∧
  step 1%positive (Delegate 1 0)
    (after (park0 ++ [Tau 0; Cancel 0 "context canceled"; Select 0 CaseDone; Tau 0;
                      Call 1 OpSignal; Tau 1; Tau 1; Tau 1]%nat)) =
  Some (after (park0 ++ [Tau 0; Cancel 0 "context canceled"; Select 0 CaseDone; Tau 0;
                         Call 1 OpSignal; Tau 1; Tau 1; Tau 1; Delegate 1 0]%nat)) ∧
  ∃ s2, run 1%positive [Tau 1; Tau 0]%nat
          (after (park0 ++ [Tau 0; Cancel 0 "context canceled"; Select 0 CaseDone; Tau 0;
                            Call 1 OpSignal; Tau 1; Tau 1; Tau 1; Delegate 1 0]%nat)) = Some s2 ∧
        waiters (cond (shared s2)) = 0.
Proof.
  assert (R : reachable 1%positive 2
                (after (park0 ++ [Tau 0; Cancel 0 "context canceled"; Select 0 CaseDone; Tau 0;
                                  Call 1 OpSignal; Tau 1; Tau 1; Tau 1]%nat)))
    by (eapply deleg_reached; vm_compute; reflexivity).
  assert (S1 : step 1%positive (Delegate 1 0)
                 (after (park0 ++ [Tau 0; Cancel 0 "context canceled"; Select 0 CaseDone; Tau 0;
                                   Call 1 OpSignal; Tau 1; Tau 1; Tau 1]%nat)) =
               Some (after (park0 ++ [Tau 0; Cancel 0 "context canceled"; Select 0 CaseDone; Tau 0;
                                      Call 1 OpSignal; Tau 1; Tau 1; Tau 1; Delegate 1 0]%nat)))
    by (vm_compute; reflexivity).
  split; [exact pool_fits|]. split; [exact R|]. split; [exact S1|].
  destruct (delegated_lowering 1%positive 2 _ 1%nat 0%nat _ pool_fits R S1)
    as (sg & wt & _ & _ & Hrun & _).
  eexists. split; [exact Hrun | reflexivity].
Defined.

End DelegProps.

(** ** Both variants *)

(** [Wait] is [WaitContext] with [context.Background()]: its [select]
    never takes the [ctx.Done()] case, and past the [select] it was
    woken by the channel and its result is nil. *)
Theorem wait_ends_by_wake self n :
  (∀ i th w th' w', T.call i T.OpWait th w = Some (th', w') →
     T.ctx th' = Background ∧ T.at_pc th' = T.InWaitContext T.W_check) ∧
  (∀ s i th, T.threads s !! i = Some th → T.ctx th = Background →
     T.step self (T.Select i T.CaseDone) s = None) ∧
  (∀ s i th, T.reachable self n s → T.threads s !! i = Some th → T.ctx th = Background →
     T.woken (T.at_pc th) = true → T.how th = ByChannel ∧ T.err th = None) ∧
  (∀ i th w th' w', D.call i D.OpWait th w = Some (th', w') →
     D.ctx th' = Background ∧ D.at_pc th' = D.InWaitContext D.W_checks) ∧
  (∀ s i th, D.threads s !! i = Some th → D.ctx th = Background →
     D.step self (D.Select i D.CaseDone) s = None) ∧
  (∀ s i th, D.reachable self n s → D.threads s !! i = Some th → D.ctx th = Background →
     D.woken (D.at_pc th) = true → D.how th = ByChannel ∧ D.err th = None).
Proof.
  split_and!.
  - intros i th w th' w' H. unfold T.call in H. case_decide; by simplify_eq.
  - intros s i th Hi Hc. unfold T.step. destruct (T.fault (T.shared s)); [done|].
    simpl. rewrite Hi. simpl. destruct (T.at_pc th) as [|?|?|[]]; try done.
    simpl. by rewrite Hc.
  - intros s i th [HT _]%TokenFacts.inv1_reachable Hi Hc Hw.
    pose proof (HT _ _ Hi) as (_ & _ & _ & Ho).
    destruct (Ho Hw) as [[? ?]|(_ & Hd & _)]; [done|]. by rewrite Hc in Hd.
  - intros i th w th' w' H. unfold D.call in H. case_decide; by simplify_eq.
  - intros s i th Hi Hc. unfold D.step. destruct (D.fault (D.shared s)); [done|].
    unfold D.solo. rewrite Hi. simpl. unfold D.WaitContext_select.
    destruct (D.at_pc th) as [|?|?|[]]; try done. by rewrite Hc.
  - intros s i th (HT & _)%DelegFacts.deleg_Inv_reachable Hi Hc Hw.
    pose proof (HT _ _ Hi) as (_ & _ & Ho & _).
    destruct (Ho Hw) as [[? ?]|(_ & Hd & _)]; [done|]. by rewrite Hc in Hd.
Qed.

Lemma wait_ends_by_wake_witness :
  T.reachable 1%positive 2
    (T.after [T.LockL 0; T.Call 0 T.OpWait; T.Tau 0; T.Tau 0; T.Tau 0; T.Tau 0; T.Tau 0;
              T.Tau 0; T.Tau 0; T.Call 1 T.OpSignal; T.Tau 1; T.Tau 1; T.Tau 1; T.Tau 1;
              T.Tau 1; T.Select 0 T.CaseCh]%nat) ∧
  ∃ th, T.threads
          (T.after [T.LockL 0; T.Call 0 T.OpWait; T.Tau 0; T.Tau 0; T.Tau 0; T.Tau 0; T.Tau 0;
                    T.Tau 0; T.Tau 0; T.Call 1 T.OpSignal; T.Tau 1; T.Tau 1; T.Tau 1; T.Tau 1;
                    T.Tau 1; T.Select 0 T.CaseCh]%nat) !! 0%nat = Some th ∧
        T.how th = ByChannel ∧ T.err th = None.
Proof.
  destruct (wait_ends_by_wake 1%positive 2) as (_ & _ & H & _).
  assert (R : T.reachable 1%positive 2
    (T.after [T.LockL 0; T.Call 0 T.OpWait; T.Tau 0; T.Tau 0; T.Tau 0; T.Tau 0; T.Tau 0;
              T.Tau 0; T.Tau 0; T.Call 1 T.OpSignal; T.Tau 1; T.Tau 1; T.Tau 1; T.Tau 1;
              T.Tau 1; T.Select 0 T.CaseCh]%nat))
    by (eapply token_reached; vm_compute; reflexivity).
  split; [exact R|].
  exists (T.Thread (T.InWaitContext T.W_relock) Background (Some 0%nat) None ByChannel).
  split; [vm_compute; reflexivity|].
  exact (H _ 0%nat _ R eq_refl eq_refl eq_refl).
Defined.

(** Cancelling the context of a parked waiter wakes it: the
    [ctx.Done()] case of its [select] is ready, and taking it leaves
    the cancellation cause in [err] and the shared state as it was. *)
Theorem cancel_wakes self n e :
  Z.of_nat n ≤ max_int →
  (∀ s j th,
     T.reachable self n s → T.threads s !! j = Some th →
     T.at_pc th = T.InWaitContext T.W_select → T.ctx th = Cancelable None →
     T.run self [T.Cancel j e; T.Select j T.CaseDone] s =
     Some (T.State (<[j := T.Thread (T.InWaitContext T.W_relock) (Cancelable (Some e))
                              (T.l_ch th) (Some e) ByCancel]> (T.threads s))
             (T.shared s))) ∧
  (∀ s j th,
     D.reachable self n s → D.threads s !! j = Some th →
     D.at_pc th = D.InWaitContext D.W_select → D.ctx th = Cancelable None →
     D.run self [D.Cancel j e; D.Select j D.CaseDone] s =
     Some (D.State (<[j := D.Thread (D.InWaitContext D.W_ifsig) (Cancelable (Some e))
                              (D.l_ch th) (Some e) (D.signalled th)
                              (D.loweringDelegated th) ByCancel]> (D.threads s))
             (D.shared s))).
Proof.
  intros Hn. split.
  - intros s j th Hr Hj Pj Cj.
    pose proof (TokenFacts.no_panic _ _ _ Hn Hr) as Hf.
    assert (j < length (T.threads s))%nat as Hlt by (by eapply lookup_lt_Some).
    eapply TokenFacts.run_step.
    { eapply (TokenFacts.step_local self (T.Cancel j e)); [done|simpl; eassumption|].
      simpl. rewrite Cj. reflexivity. }
    eapply TokenFacts.run_step; [|apply TokenFacts.run_nil].
    erewrite (TokenFacts.step_local self (T.Select j T.CaseDone));
      [ | done | simpl; by apply list_lookup_insert_eq | simpl; rewrite Pj; reflexivity ].
    simpl. by rewrite list_insert_insert_eq.
  - intros s j th Hr Hj Pj Cj.
    pose proof (DelegFacts.deleg_no_panic _ _ _ Hr) as Hf.
    assert (j < length (D.threads s))%nat as Hlt by (by eapply lookup_lt_Some).
    eapply DelegFacts.deleg_run_step.
    { unfold D.step, D.solo. rewrite Hf, Hj. simpl. rewrite Cj. reflexivity. }
    eapply DelegFacts.deleg_run_step; [|apply DelegFacts.deleg_run_nil].
    unfold D.step, D.solo. simpl. rewrite Hf.
    rewrite list_lookup_insert_eq by done. simpl. unfold D.WaitContext_select. simpl.
    rewrite Pj. simpl. by rewrite list_insert_insert_eq.
Qed.

Lemma cancel_wakes_witness :
  Z.of_nat 2 ≤ max_int ∧ T.reachable 1%positive 2 (T.after T.park0) ∧
  T.run 1%positive [T.Cancel 0 "context canceled"; T.Select 0 T.CaseDone]%nat (T.after T.park0) =
  Some (T.State (<[0%nat := T.Thread (T.InWaitContext T.W_relock)
                             (Cancelable (Some "context canceled")) (Some 0%nat)
                             (Some "context canceled") ByCancel]> (T.threads (T.after T.park0)))
          (T.shared (T.after T.park0))).
Proof.
  destruct (cancel_wakes 1%positive 2 "context canceled" pool_fits) as (H & _).
  assert (R : T.reachable 1%positive 2 (T.after T.park0))
    by (eapply token_reached; vm_compute; reflexivity).
  split; [exact pool_fits|]. split; [exact R|].
  exact (H _ 0%nat (T.Thread (T.InWaitContext T.W_select) (Cancelable None) (Some 0%nat) None NotYet)
           R eq_refl eq_refl eq_refl).
Defined.

(** [WaitContext] gives [c.L] up before it parks (lines 96 and 217):
    the unlock neither waits nor panics and leaves the lock free.  On
    its way out (lines 124 and 237) it waits while another goroutine
    holds [c.L] and takes the lock when it is free. *)
Theorem lock_released_while_parked self n :
  Z.of_nat n ≤ max_int →
  (∀ s i th,
     T.reachable self n s → T.threads s !! i = Some th →
     T.at_pc th = T.InWaitContext T.W_Lunlock →
     T.step self (T.Tau i) s =
     Some (T.State (<[i := T.goto th (T.InWaitContext T.W_select)]> (T.threads s))
             (T.set_Lk (T.shared s) None))) ∧
  (∀ s i th,
     T.reachable self n s → T.threads s !! i = Some th →
     T.at_pc th = T.InWaitContext T.W_Llock →
     T.step self (T.Tau i) s =
     match T.Lk (T.shared s) with
     | None => Some (T.State (<[i := T.goto th (T.InWaitContext T.W_ret)]> (T.threads s))
                       (T.set_Lk (T.shared s) (Some i)))
     | Some _ => None
     end) ∧
  (∀ s i th,
     D.reachable self n s → D.threads s !! i = Some th →
     D.at_pc th = D.InWaitContext D.W_Lunlock →
     D.step self (D.Tau i) s =
     Some (D.State (<[i := D.goto th (D.InWaitContext D.W_select)]> (D.threads s))
             (D.set_Lk (D.shared s) None))) ∧
  (∀ s i th,
     D.reachable self n s → D.threads s !! i = Some th →
     D.at_pc th = D.InWaitContext D.W_Llock →
     D.step self (D.Tau i) s =
     match D.Lk (D.shared s) with
     | None => Some (D.State (<[i := D.goto th (D.InWaitContext D.W_ret)]> (D.threads s))
                       (D.set_Lk (D.shared s) (Some i)))
     | Some _ => None
     end).
Proof.
  intros Hn. split_and!.
  - intros s i th Hr Hi Pi.
    pose proof (TokenFacts.no_panic _ _ _ Hn Hr) as Hf.
    apply TokenFacts.inv1_reachable in Hr as [HT [HL _]].
    pose proof (HT _ _ Hi) as (_ & Hk & _). rewrite Pi in Hk. specialize (Hk eq_refl).
    unfold T.step. rewrite Hf. simpl. rewrite Hi. simpl. rewrite Pi. simpl.
    by rewrite HL, Hk.
  - intros s i th Hr Hi Pi.
    pose proof (TokenFacts.no_panic _ _ _ Hn Hr) as Hf.
    apply TokenFacts.inv1_reachable in Hr as [HT [HL _]].
    unfold T.step. rewrite Hf. simpl. rewrite Hi. simpl. rewrite Pi. simpl.
    rewrite HL. by destruct (T.Lk (T.shared s)).
  - intros s i th Hr Hi Pi.
    pose proof (DelegFacts.deleg_no_panic _ _ _ Hr) as Hf.
    apply DelegFacts.deleg_Inv_reachable in Hr as (HT & (HL & _) & _).
    pose proof (HT _ _ Hi) as (Hk & _). rewrite Pi in Hk. specialize (Hk eq_refl).
    unfold D.step, D.solo. rewrite Hf, Hi. simpl. rewrite Pi. simpl.
    by rewrite HL, Hk.
  - intros s i th Hr Hi Pi.
    pose proof (DelegFacts.deleg_no_panic _ _ _ Hr) as Hf.
    apply DelegFacts.deleg_Inv_reachable in Hr as (HT & (HL & _) & _).
    unfold D.step, D.solo. rewrite Hf, Hi. simpl. rewrite Pi. simpl.
    rewrite HL. by destruct (D.Lk (D.shared s)).
Qed.

Lemma lock_released_while_parked_witness :
  Z.of_nat 2 ≤ max_int ∧ D.reachable 1%positive 2 (D.after D.park0) ∧
  D.step 1%positive (D.Tau 0) (D.after D.park0) =
  Some (D.State (<[0%nat := D.Thread (D.InWaitContext D.W_select) (Cancelable None) (Some 1%nat)
                             None false false NotYet]> (D.threads (D.after D.park0)))
          (D.set_Lk (D.shared (D.after D.park0)) None)).
Proof.
  destruct (lock_released_while_parked 1%positive 2 pool_fits) as (_ & _ & H & _).
  assert (R : D.reachable 1%positive 2 (D.after D.park0))
    by (eapply deleg_reached; vm_compute; reflexivity).
  split; [exact pool_fits|]. split; [exact R|].
  exact (H _ 0%nat (D.Thread (D.InWaitContext D.W_Lunlock) (Cancelable None) (Some 1%nat)
                      None false false NotYet) R eq_refl eq_refl).
Defined.
